(** * ICPC scoreboard: ranking, freeze and scroll

    A shallow embedding of [src/main.cpp] (class [ICPCSystem]) and the
    properties of its ranking computation and of its freeze/scroll reveal.

    Conventions of the embedding.
    - [int] is modelled by [Z].  The sums that an input of ordinary size
      takes out of the range of a 32-bit [int] (the penalty of a team, the
      wrong attempts added by a reveal) are reduced by [wrap_int], as the
      compiled program reduces them; C++ itself leaves signed overflow
      undefined.  The increments by one count stored objects (map entries,
      submissions, teams) and are left in [Z].
    - [std::map<string, V>] is a [gmap string V]; [operator[]] is written out
      with its insert-on-miss effect ([touch] followed by a total lookup);
      iteration over a [std::map] visits the entries in key order
      ([map_items]).
    - [std::string] is [string]; [operator<] on strings is the lexicographic
      order on bytes, [String.ltb].
    - [cout] is the string of everything printed, returned next to the state.
    - Member functions that only use the member [teams] take and return that
      map; the others take and return the whole [ICPCSystem]. *)

From Stdlib Require Import ZArith Lia Ascii String List Permutation.
From Stdlib Require Import OrderedTypeEx.
From stdpp Require Import gmap strings list fin_maps pretty sorting.

Local Open Scope string_scope.

(** ** Data model *)

Record Submission := mkSubmission {
  problem : string;
  status : string;
  time : Z;
  before_freeze : bool
}.

Record ProblemStatus := mkProblemStatus {
  solved : bool;
  solve_time : Z;
  wrong_attempts_before_first_success : Z;
  wrong_attempts_before_freeze : Z;
  submissions_after_freeze : Z;
  frozen : bool
}.

Record Team := mkTeam {
  name : string;
  problems : gmap string ProblemStatus;
  submissions : list Submission;
  solved_count : Z;
  penalty_time : Z;
  ranking : Z;
  solve_times : list Z
}.

Record ICPCSystem := mkICPCSystem {
  teams : gmap string Team;
  team_order : list string;
  competition_started : bool;
  is_frozen : bool;
  duration_time : Z;
  problem_count : Z;
  problem_names : list string;
  freeze_time : Z
}.

(** The default constructors [ProblemStatus()], [Team()] and [ICPCSystem()]. *)
Definition ProblemStatus_new : ProblemStatus :=
  mkProblemStatus false 0 0 0 0 false.

Definition Team_new : Team :=
  mkTeam "" ∅ [] 0 0 0 [].

Definition ICPCSystem_new : ICPCSystem :=
  mkICPCSystem ∅ [] false false 0 0 [] 0.

Global Instance ProblemStatus_inhabited : Inhabited ProblemStatus :=
  populate ProblemStatus_new.
Global Instance Team_inhabited : Inhabited Team := populate Team_new.

(** Field assignments. *)
Definition set_problems (pm : gmap string ProblemStatus) (t : Team) : Team :=
  mkTeam (name t) pm (submissions t) (solved_count t) (penalty_time t)
         (ranking t) (solve_times t).

Definition set_submissions (l : list Submission) (t : Team) : Team :=
  mkTeam (name t) (problems t) l (solved_count t) (penalty_time t)
         (ranking t) (solve_times t).

Definition set_ranking (r : Z) (t : Team) : Team :=
  mkTeam (name t) (problems t) (submissions t) (solved_count t)
         (penalty_time t) r (solve_times t).

Definition set_name (n : string) (t : Team) : Team :=
  mkTeam n (problems t) (submissions t) (solved_count t) (penalty_time t)
         (ranking t) (solve_times t).

Definition set_stats (sc pt : Z) (st : list Z) (t : Team) : Team :=
  mkTeam (name t) (problems t) (submissions t) sc pt (ranking t) st.

Definition set_teams (ts : gmap string Team) (sys : ICPCSystem) : ICPCSystem :=
  mkICPCSystem ts (team_order sys) (competition_started sys) (is_frozen sys)
               (duration_time sys) (problem_count sys) (problem_names sys)
               (freeze_time sys).

(** ** [std::map] and [std::sort] *)

(** [m[k]] inserts a value-initialised entry when [k] is absent; the value
    read is then [touch k m !!! k]. *)
Definition touch `{Inhabited V} (k : string) (m : gmap string V) : gmap string V :=
  match m !! k with
  | Some _ => m
  | None => <[k := inhabitant]> m
  end.

(** In-order traversal of a [std::map]: the entries by ascending key. *)
Definition key_le {V} (x y : string * V) : Prop := String.leb x.1 y.1 = true.

Global Instance key_le_dec {V} (x y : string * V) : Decision (key_le x y).
Proof. unfold key_le. apply _. Defined.

Definition map_items {V} (m : gmap string V) : list (string * V) :=
  merge_sort key_le (map_to_list m).

(** [std::sort(first, last, comp)].  The standard leaves the algorithm open;
    the model is insertion sort, with the comparator's state threaded through
    the calls ([compare_teams] writes the statistics it computes back to the
    teams).  For a comparator that is a strict total order on distinct
    elements every sorting algorithm returns the same sequence
    ([sorted_unique] below). *)
Section std_sort.
Context {St A : Type} (comp : A → A → St → bool * St).

Fixpoint sort_insert (x : A) (l : list A) (s : St) : list A * St :=
  match l with
  | [] => ([x], s)
  | y :: l' =>
      let '(b, s1) := comp x y s in
      if b then (x :: y :: l', s1)
      else let '(r, s2) := sort_insert x l' s1 in (y :: r, s2)
  end.

Fixpoint std_sort (l : list A) (s : St) : list A * St :=
  match l with
  | [] => ([], s)
  | x :: l' => let '(r, s1) := std_sort l' s in sort_insert x r s1
  end.
End std_sort.

(** A comparator without state, such as [operator<] on [int] or on strings. *)
Definition pure_comp {A} (lt : A → A → bool) (x y : A) (s : unit) : bool * unit :=
  (lt x y, s).

Definition sort_by {A} (lt : A → A → bool) (l : list A) : list A :=
  (std_sort (pure_comp lt) l tt).1.

(** ** [int] arithmetic *)

(** The [int] that an arithmetic operation leaves when its mathematical
    result is [z]: the value congruent to [z] modulo [2^32] between [-2^31]
    and [2^31 - 1]. *)
Definition wrap_int (z : Z) : Z :=
  ((z + 2147483648) mod 4294967296 - 2147483648)%Z.

(** ** Stats aggregator: [calculate_team_stats] *)

(** The body of the loop over [team.problems]: the running [solved_count],
    [penalty_time] and [solve_times]. *)
Fixpoint stats_loop (items : list (string * ProblemStatus)) (include_frozen : bool)
    (sc pt : Z) (st : list Z) : Z * Z * list Z :=
  match items with
  | [] => (sc, pt, st)
  | (_, ps) :: rest =>
      if solved ps && (negb (frozen ps) || include_frozen) then
        stats_loop rest include_frozen (sc + 1)
          (wrap_int
             (pt + wrap_int (solve_time ps
                             + wrap_int (20 * wrong_attempts_before_first_success ps))))
          (st ++ [solve_time ps])
      else stats_loop rest include_frozen sc pt st
  end.

(** [sort(v.rbegin(), v.rend())]: the reversed view is sorted ascending. *)
Definition sort_reversed (v : list Z) : list Z :=
  reverse (sort_by Z.ltb (reverse v)).

Definition calculate_team_stats (team : Team) (include_frozen : bool) : Team :=
  let '(sc, pt, st) :=
    stats_loop (map_items (problems team)) include_frozen 0 0 [] in
  set_stats sc pt (sort_reversed st) team.

(** ** Ranker: [compare_teams] and [flush_scoreboard] *)

(** The loop [for (i = 0; i < min(size1, size2); i++)] over the two solve-time
    vectors; [None] when it runs to its end without returning. *)
Fixpoint solve_times_loop (st1 st2 : list Z) (idx : list nat) : option bool :=
  match idx with
  | [] => None
  | i :: rest =>
      let x := nth i st1 0%Z in
      let y := nth i st2 0%Z in
      if negb (x =? y)%Z then Some (x <? y)%Z
      else solve_times_loop st1 st2 rest
  end.

(** The comparisons of [compare_teams] after the statistics are refreshed. *)
Definition compare_stats (t1 t2 : Team) (name1 name2 : string) : bool :=
  if negb (solved_count t1 =? solved_count t2)%Z then
    (solved_count t1 >? solved_count t2)%Z
  else if negb (penalty_time t1 =? penalty_time t2)%Z then
    (penalty_time t1 <? penalty_time t2)%Z
  else
    match solve_times_loop (solve_times t1) (solve_times t2)
            (seq 0 (min (length (solve_times t1)) (length (solve_times t2)))) with
    | Some b => b
    | None => String.ltb name1 name2
    end.

(** [t1] and [t2] are references into [teams]: they are read back from the
    map after both updates, so that [name1 = name2] aliases them. *)
Definition compare_teams (name1 name2 : string) (include_frozen : bool)
    (ts : gmap string Team) : bool * gmap string Team :=
  let ts := touch name1 ts in
  let ts := touch name2 ts in
  let ts := <[name1 := calculate_team_stats (ts !!! name1) include_frozen]> ts in
  let ts := <[name2 := calculate_team_stats (ts !!! name2) include_frozen]> ts in
  (compare_stats (ts !!! name1) (ts !!! name2) name1 name2, ts).

(** The lambda [[this](a, b) { return compare_teams(a, b, false); }]. *)
Definition by_rank (a b : string) (ts : gmap string Team) : bool * gmap string Team :=
  compare_teams a b false ts.

(** [for (i = 0; i < sorted_teams.size(); i++) teams[sorted_teams[i]].ranking = i + 1]
    from index [i] on. *)
Fixpoint assign_rankings (sorted_teams : list string) (i : nat)
    (ts : gmap string Team) : gmap string Team :=
  match sorted_teams with
  | [] => ts
  | n :: rest =>
      let ts := touch n ts in
      assign_rankings rest (S i)
        (<[n := set_ranking (Z.of_nat i + 1) (ts !!! n)]> ts)
  end.

Definition flush_scoreboard (sys : ICPCSystem) : ICPCSystem :=
  let '(sorted_teams, ts) := std_sort by_rank (team_order sys) (teams sys) in
  set_teams (assign_rankings sorted_teams 0 ts) sys.

(** ** Scoreboard listing: [print_scoreboard] *)

(** ["\n"] *)
Definition nl : string := String "010"%char "".

(** [cout << n] for an [int]. *)
Definition show (n : Z) : string := pretty n.

(** One cell of a row: the body of the loop over [problem_names]. *)
Definition print_cell (pm : gmap string ProblemStatus) (pname : string) : string :=
  match pm !! pname with
  | Some ps =>
      if frozen ps then
        (if (wrong_attempts_before_freeze ps =? 0)%Z then "" else "-")
          +:+ show (wrong_attempts_before_freeze ps) +:+ "/"
          +:+ show (submissions_after_freeze ps)
      else if solved ps then
        "+" +:+ (if (wrong_attempts_before_first_success ps >? 0)%Z
                 then show (wrong_attempts_before_first_success ps) else "")
      else
        let wrong := wrong_attempts_before_freeze ps in
        if (wrong =? 0)%Z then "." else "-" +:+ show wrong
  | None => "."
  end.

Fixpoint print_cells (pm : gmap string ProblemStatus) (pnames : list string) : string :=
  match pnames with
  | [] => ""
  | pname :: rest => " " +:+ print_cell pm pname +:+ print_cells pm rest
  end.

Fixpoint print_rows (sorted_teams pnames : list string) (ts : gmap string Team)
    : string * gmap string Team :=
  match sorted_teams with
  | [] => ("", ts)
  | team_name :: rest =>
      let ts := touch team_name ts in
      let team := calculate_team_stats (ts !!! team_name) false in
      let ts := <[team_name := team]> ts in
      let row :=
        team_name +:+ " " +:+ show (ranking team) +:+ " "
          +:+ show (solved_count team) +:+ " " +:+ show (penalty_time team)
          +:+ print_cells (problems team) pnames +:+ nl in
      let '(out, ts) := print_rows rest pnames ts in
      (row +:+ out, ts)
  end.

Definition print_scoreboard (sys : ICPCSystem) : string * ICPCSystem :=
  let '(sorted_teams, ts) := std_sort by_rank (team_order sys) (teams sys) in
  let '(out, ts) := print_rows sorted_teams (problem_names sys) ts in
  (out, set_teams ts sys).

(** ** Operations *)

Definition add_team (team_name : string) (sys : ICPCSystem) : string * ICPCSystem :=
  if competition_started sys then
    ("[Error]Add failed: competition has started." +:+ nl, sys)
  else if bool_decide (is_Some (teams sys !! team_name)) then
    ("[Error]Add failed: duplicated team name." +:+ nl, sys)
  else
    ("[Info]Add successfully." +:+ nl,
     mkICPCSystem (<[team_name := set_name team_name Team_new]> (teams sys))
       (team_order sys ++ [team_name]) (competition_started sys) (is_frozen sys)
       (duration_time sys) (problem_count sys) (problem_names sys)
       (freeze_time sys)).

(** [string(1, 'A' + i)]: the sum is converted to [char], keeping its low 8
    bits. *)
Definition problem_letter (i : nat) : string :=
  String (ascii_of_nat (65 + i)) "".

Definition start_competition (duration problems_n : Z) (sys : ICPCSystem)
    : string * ICPCSystem :=
  if competition_started sys then
    ("[Error]Start failed: competition has started." +:+ nl, sys)
  else
    let sorted_teams := sort_by String.ltb (team_order sys) in
    ("[Info]Competition starts." +:+ nl,
     mkICPCSystem (assign_rankings sorted_teams 0 (teams sys)) (team_order sys)
       true (is_frozen sys) duration problems_n
       (problem_names sys ++ map problem_letter (seq 0 (Z.to_nat problems_n)))
       (freeze_time sys)).

Definition submit (problem team_name status : string) (time : Z)
    (sys : ICPCSystem) : ICPCSystem :=
  let ts := touch team_name (teams sys) in
  let team := ts !!! team_name in
  let pm := touch problem (problems team) in
  let ps := pm !!! problem in
  let sub := mkSubmission problem status time (negb (is_frozen sys)) in
  let subs := (submissions team ++ [sub])%list in
  let ps :=
    if is_frozen sys then
      if negb (solved ps) then
        mkProblemStatus (solved ps) (solve_time ps)
          (wrong_attempts_before_first_success ps)
          (wrong_attempts_before_freeze ps)
          (submissions_after_freeze ps + 1) true
      else ps
    else
      if negb (solved ps) then
        if String.eqb status "Accepted" then
          mkProblemStatus true time (wrong_attempts_before_freeze ps)
            (wrong_attempts_before_freeze ps) (submissions_after_freeze ps)
            (frozen ps)
        else
          mkProblemStatus (solved ps) (solve_time ps)
            (wrong_attempts_before_first_success ps)
            (wrong_attempts_before_freeze ps + 1)
            (submissions_after_freeze ps) (frozen ps)
      else ps in
  set_teams
    (<[team_name := set_submissions subs (set_problems (<[problem := ps]> pm) team)]> ts)
    sys.

Definition flush (sys : ICPCSystem) : string * ICPCSystem :=
  ("[Info]Flush scoreboard." +:+ nl, flush_scoreboard sys).

(** The loop of [freeze] over the teams has an empty body. *)
Definition freeze (sys : ICPCSystem) : string * ICPCSystem :=
  if is_frozen sys then
    ("[Error]Freeze failed: scoreboard has been frozen." +:+ nl, sys)
  else
    ("[Info]Freeze scoreboard." +:+ nl,
     mkICPCSystem (teams sys) (team_order sys) (competition_started sys) true
       (duration_time sys) (problem_count sys) (problem_names sys) 0).

(** ** Scroll engine *)

(** The inner loop setting [has_frozen]. *)
Definition has_frozen (team : Team) : bool :=
  existsb (λ pp, frozen pp.2) (map_items (problems team)).

(** [for (int i = sorted_teams.size() - 1; i >= 0; i--)], entered with
    [k = i + 1]; the result is [lowest_team]. *)
Fixpoint find_lowest_team (sorted_teams : list string) (k : nat)
    (ts : gmap string Team) : string * gmap string Team :=
  match k with
  | O => ("", ts)
  | S i =>
      let n := nth i sorted_teams "" in
      let ts := touch n ts in
      if has_frozen (ts !!! n) then (n, ts)
      else find_lowest_team sorted_teams i ts
  end.

(** The loop over [problem_names] looking for [unfreeze_problem]; each
    [team.problems[pname]] it evaluates creates the entry when missing. *)
Fixpoint find_unfreeze_problem (pnames : list string)
    (pm : gmap string ProblemStatus) : string * gmap string ProblemStatus :=
  match pnames with
  | [] => ("", pm)
  | pname :: rest =>
      let pm := touch pname pm in
      if frozen (pm !!! pname) then (pname, pm)
      else find_unfreeze_problem rest pm
  end.

(** The loop over [team.submissions] that replays the frozen submissions. *)
Fixpoint replay (subs : list Submission) (unfreeze_problem : string)
    (ps : ProblemStatus) (additional_wrong_attempts : Z) : ProblemStatus * Z :=
  match subs with
  | [] => (ps, additional_wrong_attempts)
  | sub :: rest =>
      if String.eqb (problem sub) unfreeze_problem && negb (before_freeze sub) then
        if negb (solved ps) then
          if String.eqb (status sub) "Accepted" then
            replay rest unfreeze_problem
              (mkProblemStatus true (time sub)
                 (wrap_int
                    (wrong_attempts_before_freeze ps + additional_wrong_attempts))
                 (wrong_attempts_before_freeze ps) (submissions_after_freeze ps)
                 (frozen ps))
              additional_wrong_attempts
          else replay rest unfreeze_problem ps (additional_wrong_attempts + 1)
        else replay rest unfreeze_problem ps additional_wrong_attempts
      else replay rest unfreeze_problem ps additional_wrong_attempts
  end.

(** "Unfreeze and process submissions": from [ps.frozen = false] to the update
    of [wrong_attempts_before_freeze]. *)
Definition reveal (unfreeze_problem : string) (team : Team) : Team :=
  let pm := touch unfreeze_problem (problems team) in
  let ps := pm !!! unfreeze_problem in
  let ps :=
    mkProblemStatus (solved ps) (solve_time ps)
      (wrong_attempts_before_first_success ps) (wrong_attempts_before_freeze ps)
      (submissions_after_freeze ps) false in
  let '(ps, additional_wrong_attempts) :=
    replay (submissions team) unfreeze_problem ps 0 in
  let ps :=
    if negb (solved ps) then
      mkProblemStatus (solved ps) (solve_time ps)
        (wrong_attempts_before_first_success ps)
        (wrap_int (wrong_attempts_before_freeze ps + additional_wrong_attempts))
        (submissions_after_freeze ps) (frozen ps)
    else ps in
  set_problems (<[unfreeze_problem := ps]> pm) team.

(** [old_rankings[name] = teams[name].ranking] for every sorted team. *)
Fixpoint save_rankings (sorted_teams : list string) (old_rankings : gmap string Z)
    (ts : gmap string Team) : gmap string Z * gmap string Team :=
  match sorted_teams with
  | [] => (old_rankings, ts)
  | n :: rest =>
      let ts := touch n ts in
      save_rankings rest (<[n := ranking (ts !!! n)]> old_rankings) ts
  end.

(** The search for [replaced_team].  [old_rankings] is a local that is only
    read here, at keys it holds, so its [operator[]] is a total lookup. *)
Fixpoint find_replaced (sorted_teams : list string) (old_rankings : gmap string Z)
    (new_rank : Z) (lowest_team : string) : string :=
  match sorted_teams with
  | [] => ""
  | n :: rest =>
      if (old_rankings !!! n =? new_rank)%Z && negb (String.eqb n lowest_team)
      then n
      else find_replaced rest old_rankings new_rank lowest_team
  end.

(** The line printed for a rank change; [team] has fresh statistics. *)
Definition notification (lowest_team replaced_team : string) (team : Team) : string :=
  lowest_team +:+ " " +:+ replaced_team +:+ " "
    +:+ show (solved_count team) +:+ " " +:+ show (penalty_time team) +:+ nl.

(** One pass through the body of [while (true)]: either [break], or the text
    printed by the pass (empty when the rank did not improve). *)
Inductive loop_step :=
  | Break
  | Continue (out : string).

Definition scroll_iteration (sys : ICPCSystem) : loop_step * ICPCSystem :=
  let '(sorted_teams, ts) := std_sort by_rank (team_order sys) (teams sys) in
  let '(lowest_team, ts) :=
    find_lowest_team sorted_teams (length sorted_teams) ts in
  if String.eqb lowest_team "" then (Break, set_teams ts sys)
  else
    let ts := touch lowest_team ts in
    let team := ts !!! lowest_team in
    let '(unfreeze_problem, pm) :=
      find_unfreeze_problem (problem_names sys) (problems team) in
    let team := set_problems pm team in
    let old_rank := ranking team in
    let team := reveal unfreeze_problem team in
    let ts := <[lowest_team := team]> ts in
    let '(old_rankings, ts) := save_rankings sorted_teams ∅ ts in
    let sys := flush_scoreboard (set_teams ts sys) in
    let new_rank := ranking (teams sys !!! lowest_team) in
    if (new_rank <? old_rank)%Z then
      let replaced_team :=
        find_replaced sorted_teams old_rankings new_rank lowest_team in
      let team := calculate_team_stats (teams sys !!! lowest_team) false in
      (Continue (notification lowest_team replaced_team team),
       set_teams (<[lowest_team := team]> (teams sys)) sys)
    else (Continue "", sys).

(** [while (true)]: [None] when the fuel runs out before the [break]. *)
Fixpoint scroll_loop (fuel : nat) (sys : ICPCSystem) : option (string * ICPCSystem) :=
  match fuel with
  | O => None
  | S fuel =>
      match scroll_iteration sys with
      | (Break, sys) => Some ("", sys)
      | (Continue line, sys) =>
          match scroll_loop fuel sys with
          | Some (out, sys) => Some (line +:+ out, sys)
          | None => None
          end
      end
  end.

(** "Reset frozen submission counts for all teams". *)
Definition reset_submissions_after_freeze (ps : ProblemStatus) : ProblemStatus :=
  mkProblemStatus (solved ps) (solve_time ps)
    (wrong_attempts_before_first_success ps) (wrong_attempts_before_freeze ps)
    0 (frozen ps).

Definition reset_team (t : Team) : Team :=
  set_problems (reset_submissions_after_freeze <$> problems t) t.

(** The state in which [scroll] enters its loop. *)
Definition scroll_entry (sys : ICPCSystem) : string * ICPCSystem :=
  print_scoreboard (flush_scoreboard sys).

Definition scroll (fuel : nat) (sys : ICPCSystem) : option (string * ICPCSystem) :=
  if negb (is_frozen sys) then
    Some ("[Error]Scroll failed: scoreboard has not been frozen." +:+ nl, sys)
  else
    let '(out1, sys) := scroll_entry sys in
    match scroll_loop fuel sys with
    | None => None
    | Some (out2, sys) =>
        let '(out3, sys) := print_scoreboard sys in
        Some ("[Info]Scroll scoreboard." +:+ nl +:+ out1 +:+ out2 +:+ out3,
              mkICPCSystem (reset_team <$> teams sys) (team_order sys)
                (competition_started sys) false (duration_time sys)
                (problem_count sys) (problem_names sys) (freeze_time sys))
    end.

(** ** Query service *)

Definition query_ranking (team_name : string) (sys : ICPCSystem) : string :=
  match teams sys !! team_name with
  | None => "[Error]Query ranking failed: cannot find the team." +:+ nl
  | Some t =>
      "[Info]Complete query ranking." +:+ nl
        +:+ (if is_frozen sys then
               "[Warning]Scoreboard is frozen. The ranking may be inaccurate until it were scrolled."
                 +:+ nl
             else "")
        +:+ team_name +:+ " NOW AT RANKING " +:+ show (ranking t) +:+ nl
  end.

(** The value of [match] for one submission. *)
Definition submission_matches (q_problem q_status : string) (sub : Submission) : bool :=
  let m := true in
  let m :=
    if negb (String.eqb q_problem "ALL") && negb (String.eqb (problem sub) q_problem)
    then false else m in
  let m :=
    if negb (String.eqb q_status "ALL") && negb (String.eqb (status sub) q_status)
    then false else m in
  m.

(** [for (int i = size - 1; i >= 0; i--)], entered with [k = i + 1]; the
    result is [found]. *)
Fixpoint find_submission (subs : list Submission) (q_problem q_status : string)
    (k : nat) : option Submission :=
  match k with
  | O => None
  | S i =>
      match subs !! i with
      | Some sub =>
          if submission_matches q_problem q_status sub then Some sub
          else find_submission subs q_problem q_status i
      | None => None
      end
  end.

Definition query_submission (team_name q_problem q_status : string)
    (sys : ICPCSystem) : string :=
  match teams sys !! team_name with
  | None => "[Error]Query submission failed: cannot find the team." +:+ nl
  | Some team =>
      "[Info]Complete query submission." +:+ nl
        +:+ match find_submission (submissions team) q_problem q_status
                    (length (submissions team)) with
            | Some found =>
                team_name +:+ " " +:+ problem found +:+ " " +:+ status found
                  +:+ " " +:+ show (time found) +:+ nl
            | None => "Cannot find any submission." +:+ nl
            end
  end.

Definition end_competition : string := "[Info]Competition ends." +:+ nl.

(** ** The command loop of [main], after parsing *)

Inductive command :=
  | ADDTEAM (team_name : string)
  | START (duration problems_n : Z)
  | SUBMIT (problem team_name status : string) (time : Z)
  | FLUSH
  | FREEZE
  | SCROLL
  | QUERY_RANKING (team_name : string)
  | QUERY_SUBMISSION (team_name q_problem q_status : string)
  | END.

Definition execute (fuel : nat) (c : command) (sys : ICPCSystem)
    : option (string * ICPCSystem) :=
  match c with
  | ADDTEAM n => Some (add_team n sys)
  | START d p => Some (start_competition d p sys)
  | SUBMIT p n st t => Some ("", submit p n st t sys)
  | FLUSH => Some (flush sys)
  | FREEZE => Some (freeze sys)
  | SCROLL => scroll fuel sys
  | QUERY_RANKING n => Some (query_ranking n sys, sys)
  | QUERY_SUBMISSION n p st => Some (query_submission n p st sys, sys)
  | END => Some (end_competition, sys)
  end.

(** [while (getline(cin, line))], which [END] leaves with [break]. *)
Fixpoint run (fuel : nat) (cs : list command) (sys : ICPCSystem)
    : option (string * ICPCSystem) :=
  match cs with
  | [] => Some ("", sys)
  | c :: rest =>
      match execute fuel c sys with
      | None => None
      | Some (out, sys) =>
          match c with
          | END => Some (out, sys)
          | _ =>
              match run fuel rest sys with
              | None => None
              | Some (out', sys) => Some (out +:+ out', sys)
              end
          end
      end
  end.

(** * Vocabulary of the properties *)

(** ** Reading the state *)

Definition team_of (sys : ICPCSystem) (team_name : string) : Team :=
  teams sys !!! team_name.

Definition status_of (sys : ICPCSystem) (team_name p : string) : ProblemStatus :=
  problems (team_of sys team_name) !!! p.

Definition frozen_at (sys : ICPCSystem) (n p : string) : bool :=
  frozen (status_of sys n p).

(** ** Statistics, in the words of the specification *)

(** A problem counts towards the statistics under a visibility mode. *)
Definition counted (include_frozen : bool) (ps : ProblemStatus) : bool :=
  solved ps && (negb (frozen ps) || include_frozen).

(** The problem statuses that count, in the order of the traversal. *)
Definition visible (include_frozen : bool) (pm : gmap string ProblemStatus)
    : list ProblemStatus :=
  List.filter (counted include_frozen) (map snd (map_items pm)).

Definition penalty (ps : ProblemStatus) : Z :=
  (solve_time ps + 20 * wrong_attempts_before_first_success ps)%Z.

Definition sumZ (l : list Z) : Z := foldr Z.add 0%Z l.

(** The values of a 32-bit [int]. *)
Definition fits_int (z : Z) : Prop := (-2147483648 ≤ z ≤ 2147483647)%Z.




(** ** The tie-break chain, in the words of the specification *)

(** The chain in the words of the specification.  [first_difference] is the
    pair of values at the first index, among the indices the two profiles
    share, at which they differ. *)
Fixpoint first_difference (p1 p2 : list Z) : option (Z * Z) :=
  match p1, p2 with
  | x :: p1', y :: p2' =>
      if decide (x = y) then first_difference p1' p2' else Some (x, y)
  | _, _ => None
  end.

Definition ranks_above (sc1 pt1 : Z) (prof1 : list Z) (n1 : string)
    (sc2 pt2 : Z) (prof2 : list Z) (n2 : string) : Prop :=
  (sc1 > sc2)%Z
  ∨ (sc1 = sc2 ∧ (pt1 < pt2)%Z)
  ∨ (sc1 = sc2 ∧ pt1 = pt2 ∧
     ∃ x y, first_difference prof1 prof2 = Some (x, y) ∧ (x < y)%Z)
  ∨ (sc1 = sc2 ∧ pt1 = pt2 ∧ first_difference prof1 prof2 = None ∧
     String_as_OT.lt n1 n2).

(** On profiles of one length the comparison at the first difference is the
    lexicographic order. *)
Definition profile_lt (p1 p2 : list Z) : Prop :=
  ∃ x y, first_difference p1 p2 = Some (x, y) ∧ (x < y)%Z.

(** ** Ranks *)

(** "Not greater", for a comparator [lt]. *)
Definition ngt {A} (lt : A → A → bool) (x y : A) : Prop := lt y x = false.

(** [compare_teams] as a relation on team names, for a fixed registry. *)
Definition rank_lt (include_frozen : bool) (ts : gmap string Team)
    (a b : string) : bool :=
  (compare_teams a b include_frozen ts).1.

(** A team's rank as the ranking pass computes it: one more than the number
    of teams that [compare_teams] puts before it. *)
Definition rank_of (ts : gmap string Team) (order : list string) (n : string) : Z :=
  (Z.of_nat (length (List.filter (λ m, rank_lt false ts m n) order)) + 1)%Z.

(** Every name of the ranking order list is registered once. *)
Definition registry_ok (sys : ICPCSystem) : Prop :=
  NoDup (team_order sys)
  ∧ Forall (λ n, is_Some (teams sys !! n)) (team_order sys).

Definition registry_exact (sys : ICPCSystem) : Prop :=
  ∀ n, is_Some (teams sys !! n) → n ∈ team_order sys.

(** The rank fields of the registered teams are a bijection onto [1..N]. *)
Definition ranks_bijective (sys : ICPCSystem) : Prop :=
  let N := Z.of_nat (length (team_order sys)) in
  (∀ n, n ∈ team_order sys → (1 ≤ ranking (team_of sys n) ≤ N)%Z)
  ∧ (∀ n m, n ∈ team_order sys → m ∈ team_order sys →
       ranking (team_of sys n) = ranking (team_of sys m) → n = m)
  ∧ (∀ r, (1 ≤ r ≤ N)%Z →
       ∃ n, n ∈ team_order sys ∧ ranking (team_of sys n) = r).

(** The stored ranks are those a ranking pass computes from the state. *)
Definition ranks_current (sys : ICPCSystem) : Prop :=
  ∀ n, n ∈ team_order sys →
    ranking (team_of sys n) = rank_of (teams sys) (team_order sys) n.

(** A team without its three statistics fields, which are rewritten before
    every use; and without its rank as well. *)
Definition core (t : Team) : Team := set_stats 0 0 [] t.

Definition payload (t : Team) : Team := set_ranking 0 (core t).

(** ** Submissions, filters and cells *)

(** The submissions to [p] that carry the flag of a submission made while
    frozen, oldest first.  The flag is set by [submit] and never reset: a
    submission made during an earlier freeze keeps it. *)
Definition frozen_window (p : string) (subs : list Submission) : list Submission :=
  List.filter (λ sub, String.eqb (problem sub) p && negb (before_freeze sub)) subs.

Definition accepted (sub : Submission) : bool := String.eqb (status sub) "Accepted".

(** A submission passes the two filters; ["ALL"] lets everything through. *)
Definition passes_filters (q_problem q_status : string) (sub : Submission) : Prop :=
  (q_problem = "ALL" ∨ problem sub = q_problem)
  ∧ (q_status = "ALL" ∨ status sub = q_status).

(** The cell of a still-frozen problem as the specification words it: the
    pre-freeze wrong attempts, nothing when there are none, then ["/"] and
    the number of attempts made while frozen. *)
Definition spec_frozen_cell (ps : ProblemStatus) : string :=
  (if (wrong_attempts_before_freeze ps =? 0)%Z then ""
   else show (wrong_attempts_before_freeze ps))
    +:+ "/" +:+ show (submissions_after_freeze ps).

(** ** Frozen flags *)

(** The entries of a problem map that a flag selects. *)
Definition keep (f : ProblemStatus → bool) (pm : gmap string ProblemStatus)
    : gmap string ProblemStatus :=
  filter (λ kv, f kv.2 = true) pm.

Definition frozen_count (pm : gmap string ProblemStatus) : nat :=
  size (keep frozen pm).

(** The number of frozen flags held by the registered teams. *)
Definition frozen_total (sys : ICPCSystem) : nat :=
  sum_list_with (λ n, frozen_count (problems (team_of sys n))) (team_order sys).

(** Every frozen problem of a registered team belongs to the problem set. *)
Definition frozen_in_problem_set (sys : ICPCSystem) : Prop :=
  ∀ n p, n ∈ team_order sys → frozen_at sys n p = true → p ∈ problem_names sys.

(** A frozen flag is only ever set in freeze mode and on a problem that is
    not solved. *)
Definition frozen_unsolved (sys : ICPCSystem) : Prop :=
  ∀ n p, n ∈ team_order sys → frozen_at sys n p = true →
    is_frozen sys = true ∧ solved (status_of sys n p) = false.

Definition no_frozen (sys : ICPCSystem) : Prop :=
  ∀ n p, n ∈ team_order sys → frozen_at sys n p = false.

(** Exactly one frozen flag goes from set to cleared, and no other flag of
    any team changes. *)
Definition one_flag_cleared (sys sys' : ICPCSystem) : Prop :=
  ∃ n p, frozen_at sys n p = true ∧ frozen_at sys' n p = false
    ∧ ∀ n' p', (n', p') ≠ (n, p) → frozen_at sys' n' p' = frozen_at sys n' p'.

(** ** The choices of a scroll iteration *)

(** The team the iteration picks: [lowest_team], as the first two statements
    of the loop body compute it. *)
Definition lowest_team (sys : ICPCSystem) : string :=
  let '(sorted_teams, ts) := std_sort by_rank (team_order sys) (teams sys) in
  (find_lowest_team sorted_teams (length sorted_teams) ts).1.

(** The problem the iteration reveals for [team]. *)
Definition next_problem (sys : ICPCSystem) (team : Team) : string :=
  (find_unfreeze_problem (problem_names sys) (problems team)).1.

(** The team after the reveal of its next frozen problem: the statements of
    the loop body from the search for [unfreeze_problem] to the update of the
    wrong attempts. *)
Definition revealed (sys : ICPCSystem) (team : Team) : Team :=
  let '(unfreeze_problem, pm) :=
    find_unfreeze_problem (problem_names sys) (problems team) in
  reveal unfreeze_problem (set_problems pm team).

(** ** Reachable states *)

(** [submit] assumes that its team is registered and its problem belongs to
    the problem set; the other commands take any argument. *)
Definition valid_command (sys : ICPCSystem) (c : command) : Prop :=
  match c with
  | SUBMIT p n _ _ => n ∈ team_order sys ∧ p ∈ problem_names sys
  | _ => True
  end.

Inductive reachable : ICPCSystem → Prop :=
  | reachable_new : reachable ICPCSystem_new
  | reachable_step sys c fuel out sys' :
      reachable sys → valid_command sys c →
      execute fuel c sys = Some (out, sys') → reachable sys'.

(** The states at the head of the loop of [scroll] called in [sys0]. *)
Inductive in_scroll (sys0 : ICPCSystem) : ICPCSystem → Prop :=
  | in_scroll_entry : in_scroll sys0 (scroll_entry sys0).2
  | in_scroll_next sys out sys' :
      in_scroll sys0 sys → scroll_iteration sys = (Continue out, sys') →
      in_scroll sys0 sys'.

Global Instance command_eq_dec : EqDecision command.
Proof. solve_decision. Defined.

Definition valid_commandb (sys : ICPCSystem) (c : command) : bool :=
  match c with
  | SUBMIT p n _ _ =>
      bool_decide (n ∈ team_order sys) && bool_decide (p ∈ problem_names sys)
  | _ => true
  end.

Fixpoint valid_run (fuel : nat) (cs : list command) (sys : ICPCSystem) : bool :=
  match cs with
  | [] => true
  | c :: rest =>
      valid_commandb sys c
      && match execute fuel c sys with
         | Some (_, sys') => valid_run fuel rest sys'
         | None => true
         end
  end.

(** ** Two contests *)

(** A contest with two teams in which [b] submits during the freeze. *)
Definition two_teams_frozen : ICPCSystem :=
  submit "A" "b" "Accepted" 20
    (freeze (start_competition 300 2
       (add_team "b" (add_team "a" ICPCSystem_new).2).2).2).2.


(** A contest with two freezes: [a] misses problem A during the first one
    and solves it during the second one. *)
Definition first_freeze : list command :=
  [ADDTEAM "a"; START 300 1; FREEZE; SUBMIT "A" "a" "Wrong_Answer" 10; SCROLL;
   FREEZE].

Definition second_freeze : list command :=
  [SUBMIT "A" "a" "Accepted" 20; SCROLL].

(** A contest in which [a] submits, during the freeze, to a problem that is
    not in the problem set. *)
Definition unknown_problem_frozen : ICPCSystem :=
  submit "B" "a" "Accepted" 5
    (freeze (start_competition 300 1 (add_team "a" ICPCSystem_new).2).2).2.

(** ** Vocabulary of the further properties *)

(** The capital letters, as one-character strings. *)
Definition alphabet : list string :=
  ["A"; "B"; "C"; "D"; "E"; "F"; "G"; "H"; "I"; "J"; "K"; "L"; "M";
   "N"; "O"; "P"; "Q"; "R"; "S"; "T"; "U"; "V"; "W"; "X"; "Y"; "Z"].

(** What a team keeps of its solved problems: the flag, the solve time and
    the wrong attempts that count for the penalty. *)
Definition team_solved_kept (t t' : Team) : Prop :=
  ∀ p, solved (problems t !!! p) = true →
    solved (problems t' !!! p) = true
    ∧ solve_time (problems t' !!! p) = solve_time (problems t !!! p)
    ∧ wrong_attempts_before_first_success (problems t' !!! p) =
      wrong_attempts_before_first_success (problems t !!! p).

Definition solved_kept (sys sys' : ICPCSystem) : Prop :=
  ∀ n, team_solved_kept (team_of sys n) (team_of sys' n).

(** The submission history of a team is extended at its end only. *)
Definition history_kept (t t' : Team) : Prop :=
  submissions t `prefix_of` submissions t'.

(** The three counters of a problem status are not negative. *)
Definition counters_nonneg (ps : ProblemStatus) : Prop :=
  (0 ≤ wrong_attempts_before_first_success ps)%Z
  ∧ (0 ≤ wrong_attempts_before_freeze ps)%Z
  ∧ (0 ≤ submissions_after_freeze ps)%Z.

(** The submissions to [p] made in the open, oldest first. *)
Definition open_window (p : string) (subs : list Submission) : list Submission :=
  List.filter (λ sub, String.eqb (problem sub) p && before_freeze sub) subs.

(** The counters of a team against its history.  With [U] submissions to a
    problem made in the open and [F] made while frozen, the two counts of
    wrong attempts lie between [0] and [U + F * F]; a problem that waits for
    its reveal has seen a submission since the last one. *)
Definition counters_bounded (t : Team) : Prop :=
  ∀ p,
    let ps := problems t !!! p in
    let U := Z.of_nat (length (open_window p (submissions t))) in
    let F := Z.of_nat (length (frozen_window p (submissions t))) in
    (0 ≤ submissions_after_freeze ps)%Z
    ∧ (0 ≤ wrong_attempts_before_first_success ps ≤ U + F * F)%Z
    ∧ (0 ≤ wrong_attempts_before_freeze ps
         ≤ U + (if frozen ps then (F - 1) * (F - 1) else F * F))%Z
    ∧ (frozen ps = true → (1 ≤ F)%Z).

(** A history short enough for [U + F * F] to fit in an [int]:
    [46340 * 46340 + 46340 ≤ 2^31 - 1 < 46341 * 46341]. *)
Definition few_submissions (t : Team) : Prop :=
  (Z.of_nat (length (submissions t)) ≤ 46340)%Z.

Definition counters_kept (t t' : Team) : Prop :=
  (few_submissions t → counters_bounded t) →
  few_submissions t' → counters_bounded t'.

Definition queue_kept (t t' : Team) : Prop :=
  (∀ p, (0 ≤ submissions_after_freeze (problems t !!! p))%Z) →
  ∀ p, (0 ≤ submissions_after_freeze (problems t' !!! p))%Z.

(** The team set and the problem set of two states are the same. *)
Definition same_contest (sys sys' : ICPCSystem) : Prop :=
  team_order sys' = team_order sys
  ∧ problem_names sys' = problem_names sys
  ∧ competition_started sys' = competition_started sys.

(** One row of the scoreboard listing, for a team with fresh statistics. *)
Definition scoreboard_row (pnames : list string) (team_name : string)
    (team : Team) : string :=
  team_name +:+ " " +:+ show (ranking team) +:+ " "
    +:+ show (solved_count team) +:+ " " +:+ show (penalty_time team)
    +:+ print_cells (problems team) pnames +:+ nl.

(** The listing in one piece: a row for each name of [sorted_teams], the
    statistics taken from the registry [ts]. *)
Definition scoreboard_rows (pnames sorted_teams : list string)
    (ts : gmap string Team) : string :=
  foldr (λ n out,
           scoreboard_row pnames n (calculate_team_stats (ts !!! n) false)
             +:+ out)
        "" sorted_teams.

(** Two teams registered in the order [b], [a], before the start. *)
Definition two_teams_registered : ICPCSystem :=
  (add_team "a" (add_team "b" ICPCSystem_new).2).2.

(** The same two teams after the start and a freeze, without any
    submission. *)
Definition two_teams_idle : ICPCSystem :=
  (freeze (start_competition 300 2 two_teams_registered).2).2.

(** A contest in which [a] has solved problem A before the freeze. *)
Definition solved_then_frozen : ICPCSystem :=
  submit "B" "a" "Wrong_Answer" 30
    (freeze (submit "A" "a" "Accepted" 10
       (start_competition 300 2 (add_team "a" ICPCSystem_new).2).2)).2.

(** * Properties *)

(** ** [operator[]] *)

Section touch.
Context `{Inhabited V}.
Implicit Types (m : gmap string V) (k j : string).

Lemma touch_lookup_total k j m : touch k m !!! j = m !!! j.
Proof.
  unfold touch. destruct (m !! k) eqn:E; [done|].
  rewrite !lookup_total_alt, lookup_insert.
  case_decide; subst; [by rewrite E|done].
Qed.

Lemma touch_lookup k m : touch k m !! k = Some (m !!! k).
Proof.
  unfold touch. rewrite lookup_total_alt.
  destruct (m !! k) eqn:E; simpl; [done|]. by rewrite lookup_insert_eq.
Qed.

Lemma touch_lookup_ne k j m : k ≠ j → touch k m !! j = m !! j.
Proof.
  intros. unfold touch. destruct (m !! k); [done|]. by rewrite lookup_insert_ne.
Qed.

Lemma touch_present k m : is_Some (m !! k) → touch k m = m.
Proof. intros [v Hv]. unfold touch. by rewrite Hv. Qed.

Lemma touch_is_Some k j m : is_Some (m !! j) → is_Some (touch k m !! j).
Proof.
  intros. destruct (decide (k = j)) as [->|].
  - rewrite touch_lookup. eauto.
  - by rewrite touch_lookup_ne.
Qed.
End touch.

(** ** [std::sort] *)

Section sort_facts.
Context {St A : Type} (comp : A → A → St → bool * St).

Lemma sort_insert_perm x l s : (sort_insert comp x l s).1 ≡ₚ x :: l.
Proof.
  revert s. induction l as [|y l IH]; intros s; simpl; [done|].
  destruct (comp x y s) as [[] s1]; simpl; [done|].
  specialize (IH s1). destruct (sort_insert comp x l s1) as [r s2]; simpl in *.
  rewrite IH. apply perm_swap.
Qed.

(** Whatever the comparator answers, the result is a rearrangement. *)
Lemma std_sort_perm l s : (std_sort comp l s).1 ≡ₚ l.
Proof.
  revert s. induction l as [|x l IH]; intros s; simpl; [done|].
  specialize (IH s). destruct (std_sort comp l s) as [r s1]; simpl in *.
  rewrite sort_insert_perm. by rewrite IH.
Qed.

(** A comparator that answers like the pure [lt] and keeps an invariant of
    its state sorts like [sort_by lt]. *)
Context (lt : A → A → bool) (P : A → Prop) (I : St → Prop).
Hypothesis comp_sim : ∀ x y s, P x → P y → I s →
  (comp x y s).1 = lt x y ∧ I (comp x y s).2.

Lemma sort_insert_sim x l s :
  P x → Forall P l → I s →
  (sort_insert comp x l s).1 = (sort_insert (pure_comp lt) x l tt).1
  ∧ I (sort_insert comp x l s).2.
Proof.
  intros Hx Hl. revert s. induction Hl as [|y l Hy Hl IH]; intros s Hs; simpl; [done|].
  destruct (comp_sim x y s Hx Hy Hs) as [Hb Hs1].
  destruct (comp x y s) as [b s1]; simpl in *. subst b.
  destruct (lt x y); simpl; [done|].
  destruct (IH s1 Hs1) as [Hr Hs2].
  destruct (sort_insert comp x l s1) as [r s2].
  destruct (sort_insert (pure_comp lt) x l tt) as [r' []]; simpl in *.
  by subst.
Qed.

Lemma std_sort_sim l s :
  Forall P l → I s →
  (std_sort comp l s).1 = sort_by lt l ∧ I (std_sort comp l s).2.
Proof.
  unfold sort_by. intros Hl. revert s.
  induction Hl as [|x l Hx Hl IH]; intros s Hs; simpl; [done|].
  destruct (IH s Hs) as [Hr Hs1].
  assert (Forall P (std_sort comp l s).1) as HP.
  { by rewrite std_sort_perm. }
  destruct (std_sort comp l s) as [r s1].
  destruct (std_sort (pure_comp lt) l tt) as [r' []]; simpl in *. subst r'.
  by apply sort_insert_sim.
Qed.
End sort_facts.

Lemma sort_by_perm {A} (lt : A → A → bool) l : sort_by lt l ≡ₚ l.
Proof. apply std_sort_perm. Qed.

Lemma sort_by_cons {A} (lt : A → A → bool) x l :
  sort_by lt (x :: l) = (sort_insert (pure_comp lt) x (sort_by lt l) tt).1.
Proof.
  unfold sort_by. simpl. by destruct (std_sort (pure_comp lt) l tt) as [r []].
Qed.

Lemma sort_insert_pure_cons {A} (lt : A → A → bool) x y l :
  (sort_insert (pure_comp lt) x (y :: l) tt).1 =
  if lt x y then x :: y :: l else y :: (sort_insert (pure_comp lt) x l tt).1.
Proof.
  simpl. destruct (lt x y); [done|].
  by destruct (sort_insert (pure_comp lt) x l tt) as [r []].
Qed.

(** Sortedness, for a comparator whose "not greater" relation is transitive
    and total on the elements at hand (a strict weak order). *)
Section sorted.
Context {A : Type} (lt : A → A → bool) (P : A → Prop).
Hypothesis ngt_trans :
  ∀ x y z, P x → P y → P z → ngt lt x y → ngt lt y z → ngt lt x z.
Hypothesis lt_asym : ∀ x y, P x → P y → lt x y = true → lt y x = false.

Lemma sort_insert_sorted x l :
  P x → Forall P l → StronglySorted (ngt lt) l →
  StronglySorted (ngt lt) (sort_insert (pure_comp lt) x l tt).1.
Proof.
  intros Hx Hl Hs. induction Hs as [|y l Hs IH Hy].
  - simpl. repeat constructor.
  - rewrite sort_insert_pure_cons. inversion_clear Hl as [|?? HPy HPl].
    destruct (lt x y) eqn:E.
    + constructor; [by constructor|]. constructor.
      * by apply lt_asym.
      * rewrite Forall_forall in *. intros z Hz.
        apply (ngt_trans x y z); auto. by apply lt_asym.
    + constructor; [by apply IH|].
      rewrite sort_insert_perm. by constructor.
Qed.

Lemma sort_by_sorted l : Forall P l → StronglySorted (ngt lt) (sort_by lt l).
Proof.
  induction 1 as [|x l Hx Hl IH]; [constructor|].
  rewrite sort_by_cons. apply sort_insert_sorted; auto.
  by rewrite sort_by_perm.
Qed.
End sorted.

(** ** [int] arithmetic *)

Lemma wrap_int_fits z : fits_int (wrap_int z).
Proof.
  unfold fits_int, wrap_int.
  pose proof (Z.mod_pos_bound (z + 2147483648) 4294967296 ltac:(lia)). lia.
Qed.

Lemma wrap_int_small z : fits_int z → wrap_int z = z.
Proof.
  unfold fits_int, wrap_int. intros Hz.
  rewrite Z.mod_small by lia. lia.
Qed.

Lemma wrap_int_add_r a b : wrap_int (a + wrap_int b) = wrap_int (a + b).
Proof.
  unfold wrap_int. f_equal.
  replace (a + ((b + 2147483648) mod 4294967296 - 2147483648) + 2147483648)%Z
    with (a + (b + 2147483648) mod 4294967296)%Z by lia.
  rewrite Zplus_mod_idemp_r. f_equal. lia.
Qed.

Lemma wrap_int_add_l a b : wrap_int (wrap_int a + b) = wrap_int (a + b).
Proof. by rewrite (Z.add_comm (wrap_int a)), wrap_int_add_r, Z.add_comm. Qed.

Lemma wrap_int_idemp z : wrap_int (wrap_int z) = wrap_int z.
Proof. apply wrap_int_small, wrap_int_fits. Qed.

(** ** Stats aggregator *)

Lemma stats_loop_spec items inc sc pt st :
  wrap_int pt = pt →
  stats_loop items inc sc pt st =
  let vis := List.filter (counted inc) (map snd items) in
  ((sc + Z.of_nat (length vis))%Z, wrap_int (pt + sumZ (map penalty vis)),
   (st ++ map solve_time vis)%list).
Proof.
  revert sc pt st. induction items as [|[k ps] items IH]; intros sc pt st Hpt; simpl.
  - f_equal; [f_equal; [lia|by rewrite Z.add_0_r]|by rewrite app_nil_r].
  - change (solved ps && (negb (frozen ps) || inc)) with (counted inc ps).
    destruct (counted inc ps); [|by rewrite IH].
    rewrite IH by apply wrap_int_idemp. simpl.
    rewrite (wrap_int_add_r (solve_time ps)), (wrap_int_add_r pt), wrap_int_add_l.
    f_equal; [f_equal; [lia|f_equal; unfold penalty; lia]|].
    by rewrite <- app_assoc.
Qed.

Lemma sort_reversed_perm v : sort_reversed v ≡ₚ v.
Proof.
  unfold sort_reversed. by rewrite reverse_Permutation, sort_by_perm, reverse_Permutation.
Qed.

Lemma sort_reversed_descending v : StronglySorted Z.ge (sort_reversed v).
Proof.
  unfold sort_reversed.
  assert (StronglySorted (ngt Z.ltb) (sort_by Z.ltb (reverse v))) as Hs.
  { apply (sort_by_sorted Z.ltb (λ _, True)).
    - intros x y z _ _ _. unfold ngt. rewrite !Z.ltb_ge. lia.
    - intros x y _ _. rewrite Z.ltb_lt, Z.ltb_ge. lia.
    - by apply Forall_forall. }
  apply Sorted_StronglySorted; [intros x y z; lia|].
  apply StronglySorted_Sorted in Hs. apply Sorted_reverse in Hs.
  clear -Hs. induction Hs as [|x l Hs IH Hx]; constructor; auto.
  destruct Hx as [|y l Hxy]; constructor.
  unfold flip, ngt in Hxy. apply Z.ltb_ge in Hxy. lia.
Qed.

(** What [calculate_team_stats] leaves in the three statistics fields, and
    that it touches nothing else. *)
Lemma calculate_team_stats_spec team inc :
  let vis := visible inc (problems team) in
  calculate_team_stats team inc =
  set_stats (Z.of_nat (length vis)) (wrap_int (sumZ (map penalty vis)))
            (sort_reversed (map solve_time vis)) team.
Proof.
  unfold calculate_team_stats, visible. rewrite stats_loop_spec by done. simpl.
  by rewrite !Z.add_0_l.
Qed.

Lemma calculate_team_stats_length team inc :
  Z.of_nat (length (solve_times (calculate_team_stats team inc))) =
  solved_count (calculate_team_stats team inc).
Proof.
  rewrite calculate_team_stats_spec. simpl.
  by rewrite sort_reversed_perm, length_map.
Qed.

Lemma calculate_team_stats_twice team inc inc' :
  calculate_team_stats (calculate_team_stats team inc') inc =
  calculate_team_stats team inc.
Proof. by rewrite !calculate_team_stats_spec. Qed.

(** ** Ranker: the tie-break chain *)

Lemma solve_times_loop_shift x y st1 st2 idx :
  solve_times_loop (x :: st1) (y :: st2) (map S idx) =
  solve_times_loop st1 st2 idx.
Proof. induction idx as [|i idx IH]; simpl; [done|]. by rewrite IH. Qed.

Lemma solve_times_loop_first_difference st1 st2 :
  solve_times_loop st1 st2 (seq 0 (min (length st1) (length st2))) =
  (λ xy, (xy.1 <? xy.2)%Z) <$> first_difference st1 st2.
Proof.
  revert st2. induction st1 as [|x st1 IH]; intros [|y st2]; simpl; try done.
  rewrite <- seq_shift, solve_times_loop_shift, IH.
  destruct (decide (x = y)) as [->|Hne].
  - by rewrite Z.eqb_refl.
  - apply Z.eqb_neq in Hne. by rewrite Hne.
Qed.

Lemma first_difference_refl p : first_difference p p = None.
Proof. induction p; simpl; [done|]. by rewrite decide_True. Qed.

Lemma first_difference_None p1 p2 :
  length p1 = length p2 → first_difference p1 p2 = None → p1 = p2.
Proof.
  revert p2. induction p1 as [|x p1 IH]; intros [|y p2]; simpl; try done.
  intros [= Hlen]. destruct (decide (x = y)) as [->|]; [|done].
  intros. f_equal. auto.
Qed.

Lemma profile_lt_trans p1 p2 p3 :
  length p1 = length p2 → length p2 = length p3 →
  profile_lt p1 p2 → profile_lt p2 p3 → profile_lt p1 p3.
Proof.
  unfold profile_lt. revert p2 p3.
  induction p1 as [|x p1 IH]; intros [|y p2] [|z p3]; simpl; try done;
    try (by intros _ _ (?&?&?&?)); try (by intros _ _ _ (?&?&?&?)).
  intros [= H12] [= H23].
  intros H1 H2. destruct (decide (x = z)) as [->|Hxz].
  - destruct (decide (z = y)) as [->|Hzy].
    + rewrite decide_True in H2 by done. eauto.
    + rewrite decide_False in H2 by congruence.
      destruct H1 as (a&b&[= <- <-]&?), H2 as (c&d&[= <- <-]&?). lia.
  - destruct (decide (x = y)) as [->|Hxy].
    + rewrite decide_False in H2 by done. done.
    + destruct H1 as (a&b&[= <- <-]&?). destruct (decide (y = z)) as [->|Hyz].
      * eexists _, _. split; [done|lia].
      * destruct H2 as (c&d&[= <- <-]&?). eexists _, _. split; [done|lia].
Qed.

Lemma profile_lt_total p1 p2 :
  first_difference p1 p2 = None ∨ profile_lt p1 p2 ∨ profile_lt p2 p1.
Proof.
  unfold profile_lt. revert p2.
  induction p1 as [|x p1 IH]; intros [|y p2]; simpl; auto.
  destruct (decide (x = y)) as [->|Hxy].
  - rewrite decide_True by done. apply IH.
  - right. destruct (decide (y = x)) as [->|_]; [done|].
    destruct (Z.lt_total x y) as [?|[?|?]]; [left|done|right]; eauto.
Qed.

Lemma first_difference_sym_None p1 p2 :
  first_difference p1 p2 = None → first_difference p2 p1 = None.
Proof.
  revert p2. induction p1 as [|x p1 IH]; intros [|y p2]; simpl; try done.
  destruct (decide (x = y)) as [->|]; [|done].
  rewrite (decide_True (P := y = y)) by done. auto.
Qed.

(** [operator<] on [std::string]. *)
Lemma string_ltb_lt a b : String.ltb a b = true ↔ String_as_OT.lt a b.
Proof.
  rewrite <- String_as_OT.cmp_lt. unfold String.ltb, String_as_OT.cmp.
  destruct (String.compare a b); split; done.
Qed.

Lemma string_lt_total a b : a ≠ b → String_as_OT.lt a b ∨ String_as_OT.lt b a.
Proof.
  intros Hne. destruct (String_as_OT.compare a b) as [?|?|?]; auto. done.
Qed.

Lemma string_lt_irrefl a : ¬ String_as_OT.lt a a.
Proof. intros Hlt. by apply String_as_OT.lt_not_eq in Hlt. Qed.

(** The answer of [compare_teams] only depends on the refreshed statistics
    of the two teams. *)
Lemma compare_teams_fst a b inc ts :
  (compare_teams a b inc ts).1 =
  compare_stats (calculate_team_stats (ts !!! a) inc)
                (calculate_team_stats (ts !!! b) inc) a b.
Proof.
  unfold compare_teams. simpl.
  rewrite !lookup_total_insert, !touch_lookup_total.
  repeat case_decide; subst; try done.
  by rewrite calculate_team_stats_twice.
Qed.

Lemma compare_stats_ranks_above t1 t2 n1 n2 :
  compare_stats t1 t2 n1 n2 = true ↔
  ranks_above (solved_count t1) (penalty_time t1) (solve_times t1) n1
              (solved_count t2) (penalty_time t2) (solve_times t2) n2.
Proof.
  unfold compare_stats, ranks_above.
  rewrite solve_times_loop_first_difference.
  destruct (Z.eqb_spec (solved_count t1) (solved_count t2)) as [Hsc|Hsc]; simpl.
  2:{ rewrite Z.gtb_gt. intuition lia. }
  destruct (Z.eqb_spec (penalty_time t1) (penalty_time t2)) as [Hpt|Hpt]; simpl.
  2:{ rewrite Z.ltb_lt. intuition lia. }
  destruct (first_difference (solve_times t1) (solve_times t2)) as [[x y]|]; simpl.
  - rewrite Z.ltb_lt. split.
    + intros. right. right. left. do 2 (split; [done|]). by eexists _, _.
    + intros [?|[[_ ?]|[(_&_&a&b&[= <- <-]&?)|(_&_&?&_)]]]; try lia; done.
  - rewrite string_ltb_lt. split.
    + intros. do 3 right. done.
    + intros [?|[[_ ?]|[(_&_&a&b&?&?)|(_&_&_&?)]]]; try lia; done.
Qed.

(** The chain is a strict total order as soon as each profile is as long as
    the solved count next to it, which [calculate_team_stats] ensures. *)
Lemma ranks_above_irrefl sc pt prof n : ¬ ranks_above sc pt prof n sc pt prof n.
Proof.
  unfold ranks_above. rewrite first_difference_refl.
  intros [?|[[_ ?]|[(_&_&a&b&?&_)|(_&_&_&?)]]]; try lia; try done.
  by eapply string_lt_irrefl.
Qed.

Lemma ranks_above_trans sc1 pt1 prof1 n1 sc2 pt2 prof2 n2 sc3 pt3 prof3 n3 :
  Z.of_nat (length prof1) = sc1 → Z.of_nat (length prof2) = sc2 →
  Z.of_nat (length prof3) = sc3 →
  ranks_above sc1 pt1 prof1 n1 sc2 pt2 prof2 n2 →
  ranks_above sc2 pt2 prof2 n2 sc3 pt3 prof3 n3 →
  ranks_above sc1 pt1 prof1 n1 sc3 pt3 prof3 n3.
Proof.
  intros L1 L2 L3 H12 H23. unfold ranks_above in *.
  destruct H12 as [?|[[? ?]|H12]]; [left; intuition lia| |].
  { destruct H23 as [?|[[? ?]|[(?&?&_)|(?&?&_)]]];
      [left; lia|right; left; split; lia..]. }
  destruct H23 as [?|[[? ?]|H23]]; [left; intuition lia| |].
  { right; left. intuition lia. }
  assert (sc1 = sc2 ∧ pt1 = pt2) as [E1 E2] by (destruct H12 as [H|H]; by destruct H as (?&?&_)).
  assert (sc2 = sc3 ∧ pt2 = pt3) as [E3 E4] by (destruct H23 as [H|H]; by destruct H as (?&?&_)).
  assert (length prof1 = length prof2) as LA by lia.
  assert (length prof2 = length prof3) as LB by lia.
  right; right.
  destruct H12 as [(_&_&H12)|(_&_&N12&S12)], H23 as [(_&_&H23)|(_&_&N23&S23)].
  - left. do 2 (split; [congruence|]).
    by apply (profile_lt_trans prof1 prof2 prof3).
  - left. do 2 (split; [congruence|]).
    by rewrite <- (first_difference_None prof2 prof3).
  - left. do 2 (split; [congruence|]).
    by rewrite (first_difference_None prof1 prof2).
  - right. do 2 (split; [congruence|]).
    rewrite (first_difference_None prof1 prof2), (first_difference_None prof2 prof3) by done.
    split; [apply first_difference_refl|].
    by apply (String_as_OT.lt_trans n1 n2 n3).
Qed.

Lemma ranks_above_total sc1 pt1 prof1 n1 sc2 pt2 prof2 n2 :
  n1 ≠ n2 →
  ranks_above sc1 pt1 prof1 n1 sc2 pt2 prof2 n2
  ∨ ranks_above sc2 pt2 prof2 n2 sc1 pt1 prof1 n1.
Proof.
  intros Hne. unfold ranks_above.
  destruct (Z.lt_total sc1 sc2) as [?|[->|?]]; [right; left; lia| |left; left; lia].
  destruct (Z.lt_total pt1 pt2) as [?|[->|?]];
    [left; right; left; done| |right; right; left; done].
  destruct (profile_lt_total prof1 prof2) as [HN|[?|?]].
  - pose proof (first_difference_sym_None _ _ HN).
    destruct (string_lt_total n1 n2 Hne); [left|right]; do 3 right; done.
  - left. right. right. left. done.
  - right. right. right. left. done.
Qed.

Lemma rank_lt_ranks_above inc ts a b :
  let stat n := calculate_team_stats (ts !!! n) inc in
  rank_lt inc ts a b = true ↔
  ranks_above (solved_count (stat a)) (penalty_time (stat a)) (solve_times (stat a)) a
              (solved_count (stat b)) (penalty_time (stat b)) (solve_times (stat b)) b.
Proof.
  simpl. unfold rank_lt. by rewrite compare_teams_fst, compare_stats_ranks_above.
Qed.

Lemma rank_lt_irrefl inc ts a : rank_lt inc ts a a = false.
Proof.
  apply not_true_is_false. rewrite rank_lt_ranks_above. apply ranks_above_irrefl.
Qed.

Lemma rank_lt_trans inc ts a b c :
  rank_lt inc ts a b = true → rank_lt inc ts b c = true → rank_lt inc ts a c = true.
Proof.
  rewrite !rank_lt_ranks_above.
  apply ranks_above_trans; apply calculate_team_stats_length.
Qed.

Lemma rank_lt_total inc ts a b :
  a ≠ b → rank_lt inc ts a b = true ∨ rank_lt inc ts b a = true.
Proof. rewrite !rank_lt_ranks_above. apply ranks_above_total. Qed.

Lemma rank_lt_asym inc ts a b :
  rank_lt inc ts a b = true → rank_lt inc ts b a = false.
Proof.
  intros Hab. apply not_true_is_false. intros Hba.
  pose proof (rank_lt_trans _ _ _ _ _ Hab Hba) as Haa.
  by rewrite rank_lt_irrefl in Haa.
Qed.




(** ** Reveal of a frozen problem *)

Lemma replay_solved subs p ps add :
  solved ps = true → replay subs p ps add = (ps, add).
Proof.
  intros Hs. revert add. induction subs as [|sub subs IH]; intros add; simpl; [done|].
  rewrite Hs. simpl. destruct (_ && _); apply IH.
Qed.

Lemma replay_accepted subs p ps add pre acc post :
  solved ps = false →
  frozen_window p subs = (pre ++ acc :: post)%list →
  Forall (λ sub, accepted sub = false) pre → accepted acc = true →
  replay subs p ps add =
  (mkProblemStatus true (time acc)
     (wrap_int (wrong_attempts_before_freeze ps + (add + Z.of_nat (length pre))))
     (wrong_attempts_before_freeze ps) (submissions_after_freeze ps) (frozen ps),
   (add + Z.of_nat (length pre))%Z).
Proof.
  intros Hs. revert add pre.
  induction subs as [|sub subs IH]; intros add pre Hw Hpre Hacc; simpl in *.
  { by destruct pre. }
  destruct (String.eqb (problem sub) p && negb (before_freeze sub)); [|by apply IH].
  rewrite Hs. simpl. destruct pre as [|s pre]; simpl in *.
  - injection Hw as -> Hw. unfold accepted in Hacc. rewrite Hacc.
    rewrite replay_solved by done. by rewrite !Z.add_0_r.
  - injection Hw as -> Hw. inversion_clear Hpre as [|?? Hs' Hpre'].
    unfold accepted in Hs'. rewrite Hs'.
    rewrite (IH _ pre) by done. f_equal; [f_equal; f_equal|]; lia.
Qed.

Lemma replay_rejected subs p ps add :
  solved ps = false →
  Forall (λ sub, accepted sub = false) (frozen_window p subs) →
  replay subs p ps add = (ps, (add + Z.of_nat (length (frozen_window p subs)))%Z).
Proof.
  intros Hs. revert add. induction subs as [|sub subs IH]; intros add Hw; simpl in *.
  { by rewrite Z.add_0_r. }
  destruct (String.eqb (problem sub) p && negb (before_freeze sub)); [|by apply IH].
  rewrite Hs. simpl. inversion_clear Hw as [|?? Hs' Hw'].
  unfold accepted in Hs'. rewrite Hs'. rewrite IH by done.
  f_equal. simpl length. lia.
Qed.

Lemma replay_frozen subs p ps add :
  frozen (replay subs p ps add).1 = frozen ps.
Proof.
  revert ps add. induction subs as [|sub subs IH]; intros ps add; simpl; [done|].
  destruct (_ && _); [|apply IH].
  destruct (solved ps); simpl; [apply IH|].
  destruct (String.eqb _ _); by rewrite IH.
Qed.

Lemma reveal_lookup p team :
  problems (reveal p team) !! p = Some (problems (reveal p team) !!! p).
Proof.
  unfold reveal. destruct (replay _ _ _ _) as [ps add]. simpl.
  by rewrite lookup_total_insert_eq, lookup_insert_eq.
Qed.

Lemma reveal_lookup_ne p q team :
  p ≠ q → problems (reveal p team) !! q = problems team !! q.
Proof.
  intros. unfold reveal. destruct (replay _ _ _ _) as [ps add]. simpl.
  by rewrite lookup_insert_ne, touch_lookup_ne.
Qed.

(** The reveal of a frozen, not yet solved problem [p] of a team: the effect
    of the replay on its status. *)
Lemma reveal_status (p : string) (team : Team) (ps : ProblemStatus) :
  problems team !! p = Some ps → frozen ps = true → solved ps = false →
  let window := frozen_window p (submissions team) in
  let ps' := problems (reveal p team) !!! p in
  (∀ pre acc post,
     window = (pre ++ acc :: post)%list →
     Forall (λ sub, accepted sub = false) pre → accepted acc = true →
     solved ps' = true ∧ solve_time ps' = time acc
     ∧ wrong_attempts_before_first_success ps' =
       wrap_int (wrong_attempts_before_freeze ps + Z.of_nat (length pre)))
  ∧ (Forall (λ sub, accepted sub = false) window →
     solved ps' = false
     ∧ wrong_attempts_before_freeze ps' =
       wrap_int (wrong_attempts_before_freeze ps + Z.of_nat (length window)))
  ∧ frozen ps' = false.
Proof.
  intros Hps Hfr Hs. simpl.
  assert (touch p (problems team) !!! p = ps) as Hget.
  { rewrite touch_lookup_total. by apply lookup_total_correct. }
  unfold reveal. rewrite Hget. split_and!.
  - intros pre acc post Hw Hpre Hacc.
    erewrite replay_accepted by eauto. simpl.
    rewrite lookup_total_insert_eq. simpl. split_and!; [done..|f_equal; lia].
  - intros Hw. rewrite replay_rejected by done. simpl.
    rewrite Hs. simpl. rewrite lookup_total_insert_eq. simpl.
    split; [done|f_equal; lia].
  - destruct (replay _ _ _ _) as [ps1 add] eqn:E. simpl.
    rewrite lookup_total_insert_eq.
    assert (frozen ps1 = false) as Hf.
    { pose proof (replay_frozen (submissions team) p
        (mkProblemStatus (solved ps) (solve_time ps)
           (wrong_attempts_before_first_success ps)
           (wrong_attempts_before_freeze ps) (submissions_after_freeze ps) false) 0) as Hf.
      by rewrite E in Hf. }
    by destruct (solved ps1).
Qed.

(** ** Submissions *)

Lemma submit_team p n st t sys :
  teams (submit p n st t sys) !! n = Some (team_of (submit p n st t sys) n).
Proof. unfold team_of, submit. simpl. by rewrite lookup_total_insert_eq, lookup_insert_eq. Qed.


(** ** Submission query *)

Lemma submission_matches_passes qp qs sub :
  submission_matches qp qs sub = true ↔ passes_filters qp qs sub.
Proof.
  unfold submission_matches, passes_filters.
  destruct (String.eqb_spec qp "ALL"), (String.eqb_spec (problem sub) qp),
    (String.eqb_spec qs "ALL"), (String.eqb_spec (status sub) qs);
    simpl; intuition congruence.
Qed.

Lemma find_submission_found subs qp qs k i sub :
  (i < k)%nat → subs !! i = Some sub → passes_filters qp qs sub →
  (∀ j sub', (i < j < k)%nat → subs !! j = Some sub' → ¬ passes_filters qp qs sub') →
  (∀ j, (j < k)%nat → is_Some (subs !! j)) →
  find_submission subs qp qs k = Some sub.
Proof.
  induction k as [|k IH]; intros Hik Hi Hp Hlater Hk; [lia|]. simpl.
  destruct (Hk k) as [s Hs]; [lia|]. rewrite Hs.
  destruct (decide (i = k)) as [->|Hne].
  - assert (s = sub) as -> by congruence.
    apply submission_matches_passes in Hp. by rewrite Hp.
  - destruct (submission_matches qp qs s) eqn:Em.
    + apply submission_matches_passes in Em. destruct (Hlater k s); [lia|done..].
    + apply IH; auto with lia. intros j sub' ?. apply Hlater. lia.
Qed.

Lemma find_submission_none subs qp qs k :
  (∀ j sub', (j < k)%nat → subs !! j = Some sub' → ¬ passes_filters qp qs sub') →
  find_submission subs qp qs k = None.
Proof.
  induction k as [|k IH]; intros Hno; simpl; [done|].
  destruct (subs !! k) as [s|] eqn:Hs; [|done].
  destruct (submission_matches qp qs s) eqn:Em.
  - apply submission_matches_passes in Em. destruct (Hno k s); [lia|done..].
  - apply IH. intros j sub' ?. apply Hno. lia.
Qed.

(** C8.  [query_submission] reports that it cannot find the team when the
    name is not in the registry.  Otherwise it prints the last-appended entry
    of the team's history that passes both filters, and when no entry passes
    them (as for an empty history) it reports that it cannot find any
    submission. *)
Theorem query_submission_result (team_name q_problem q_status : string)
    (sys : ICPCSystem) :
  let out := query_submission team_name q_problem q_status sys in
  (teams sys !! team_name = None →
   out = "[Error]Query submission failed: cannot find the team." +:+ nl)
  ∧ (∀ team, teams sys !! team_name = Some team →
     (∀ i found,
        submissions team !! i = Some found →
        passes_filters q_problem q_status found →
        (∀ j sub, (i < j)%nat → submissions team !! j = Some sub →
                  ¬ passes_filters q_problem q_status sub) →
        out = "[Info]Complete query submission." +:+ nl
                +:+ (team_name +:+ " " +:+ problem found +:+ " " +:+ status found
                       +:+ " " +:+ show (time found) +:+ nl))
     ∧ ((∀ sub, sub ∈ submissions team → ¬ passes_filters q_problem q_status sub) →
        out = "[Info]Complete query submission." +:+ nl
                +:+ ("Cannot find any submission." +:+ nl))
     ∧ (submissions team = [] →
        out = "[Info]Complete query submission." +:+ nl
                +:+ ("Cannot find any submission." +:+ nl))).
Proof.
  simpl. unfold query_submission. split.
  { by intros ->. }
  intros team ->. split_and!.
  - intros i found Hi Hp Hlater.
    erewrite find_submission_found; eauto.
    + by eapply lookup_lt_Some.
    + intros j sub' [? _]. by apply Hlater.
    + intros j ?. by apply lookup_lt_is_Some.
  - intros Hno. rewrite find_submission_none; [done|].
    intros j sub' _ Hj. apply Hno. by eapply list_elem_of_lookup_2.
  - by intros ->.
Qed.

(** ** Scoreboard cells *)

(** C9, as stated, fails: with no wrong attempt before the freeze and two
    submissions while frozen, the cell printed is ["0/2"], digit included. *)
Lemma frozen_cell_shows_zero :
  let ps := mkProblemStatus false 0 0 0 2 true in
  print_cell {[ "A" := ps ]} "A" = "0/2"
  ∧ print_cell {[ "A" := ps ]} "A" ≠ spec_frozen_cell ps.
Proof. split; [reflexivity|]. vm_compute. discriminate. Qed.

(** C9, amended.  The cell of a frozen problem is ["0/M"] when there is no
    wrong attempt before the freeze and ["-N/M"] when there are [N > 0] of
    them, [M] being the number of submissions made while frozen. *)
Theorem frozen_cell_format (pm : gmap string ProblemStatus) (pname : string)
    (ps : ProblemStatus) :
  pm !! pname = Some ps → frozen ps = true →
  (wrong_attempts_before_freeze ps = 0%Z →
   print_cell pm pname = "0/" +:+ show (submissions_after_freeze ps))
  ∧ ((wrong_attempts_before_freeze ps > 0)%Z →
     print_cell pm pname =
       "-" +:+ show (wrong_attempts_before_freeze ps) +:+ "/"
         +:+ show (submissions_after_freeze ps)).
Proof.
  intros Hps Hfr. unfold print_cell. rewrite Hps, Hfr. split.
  - by intros ->.
  - intros Hpos. destruct (Z.eqb_spec (wrong_attempts_before_freeze ps) 0); [lia|done].
Qed.

Lemma frozen_cell_format_witness :
  print_cell {[ "B" := mkProblemStatus false 0 0 3 1 true ]} "B" = "-3/1".
Proof.
  destruct (frozen_cell_format {[ "B" := mkProblemStatus false 0 0 3 1 true ]} "B"
              (mkProblemStatus false 0 0 3 1 true)) as [_ H];
    [reflexivity..|].
  apply H. reflexivity.
Defined.

(** ** Submitting for a name that was never registered *)

(** C10.  For a name absent from the registry a ranking query fails, but
    [submit] for that name creates a default-constructed team under it,
    holding the submission, and leaves the ranking order list alone; a
    ranking query for the name then succeeds and prints rank 0. *)
Theorem submit_unregistered_team (p team_name verdict : string) (t : Z)
    (sys : ICPCSystem) :
  teams sys !! team_name = None →
  let sys' := submit p team_name verdict t sys in
  query_ranking team_name sys =
    "[Error]Query ranking failed: cannot find the team." +:+ nl
  ∧ (∃ team, teams sys' !! team_name = Some team ∧ ranking team = 0%Z
           ∧ name team = ""
           ∧ submissions team = [mkSubmission p verdict t (negb (is_frozen sys))])
  ∧ team_order sys' = team_order sys
  ∧ query_ranking team_name sys' =
      "[Info]Complete query ranking." +:+ nl
        +:+ (if is_frozen sys then
               "[Warning]Scoreboard is frozen. The ranking may be inaccurate until it were scrolled."
                 +:+ nl
             else "")
        +:+ team_name +:+ " NOW AT RANKING 0" +:+ nl.
Proof.
  intros Hnone. simpl.
  assert (touch team_name (teams sys) !!! team_name = Team_new) as Hnew.
  { rewrite touch_lookup_total, lookup_total_alt, Hnone. done. }
  split_and!.
  - unfold query_ranking. by rewrite Hnone.
  - eexists. unfold submit. simpl. rewrite lookup_insert_eq, Hnew. done.
  - done.
  - unfold query_ranking, submit. simpl. rewrite lookup_insert_eq, Hnew. done.
Qed.

Lemma submit_unregistered_team_witness :
  let sys := (add_team "a" ICPCSystem_new).2 in
  let sys' := submit "A" "ghost" "Accepted" 5 sys in
  team_order sys' = ["a"]
  ∧ query_ranking "ghost" sys' =
      "[Info]Complete query ranking." +:+ nl +:+ "ghost NOW AT RANKING 0" +:+ nl.
Proof.
  intros sys sys'.
  destruct (submit_unregistered_team "A" "ghost" "Accepted" 5 sys)
    as (_ & _ & Hord & Hq); [reflexivity|].
  split; [exact Hord|exact Hq].
Defined.

(** ** What the ranker reads and writes *)

Lemma core_calculate_team_stats t inc : core (calculate_team_stats t inc) = core t.
Proof. by rewrite calculate_team_stats_spec. Qed.

Lemma payload_core t : payload (core t) = payload t.
Proof. done. Qed.

Lemma core_payload_eq (ts ts' : gmap string Team) :
  core <$> ts = core <$> ts' → payload <$> ts = payload <$> ts'.
Proof.
  intros Hc. apply map_eq. intros n.
  apply (f_equal (λ m, m !! n)) in Hc. rewrite !lookup_fmap in *.
  destruct (ts !! n) as [t|], (ts' !! n) as [t'|]; try done.
  cbn [fmap option_fmap option_map] in *. injection Hc as Hn Hp Hs _.
  f_equal. unfold payload, core, set_ranking, set_stats. simpl. congruence.
Qed.

Lemma fmap_eq_is_Some {B} (f : Team → B) (ts ts' : gmap string Team) n :
  f <$> ts = f <$> ts' → is_Some (ts !! n) → is_Some (ts' !! n).
Proof.
  intros Hc [t Ht]. apply (f_equal (λ m, m !! n)) in Hc.
  rewrite !lookup_fmap, Ht in Hc. destruct (ts' !! n); [eauto|done].
Qed.

Lemma fmap_eq_lookup_total {B} (f : Team → B) (ts ts' : gmap string Team) n :
  f <$> ts = f <$> ts' → f (ts !!! n) = f (ts' !!! n).
Proof.
  intros Hc. apply (f_equal (λ m, m !! n)) in Hc.
  rewrite !lookup_fmap, !lookup_total_alt in *.
  destruct (ts !! n), (ts' !! n); simpl in *; congruence.
Qed.

Lemma payload_problems t : problems (payload t) = problems t.
Proof. done. Qed.

Lemma compare_stats_payload t1 t2 inc a b :
  compare_stats (calculate_team_stats t1 inc) (calculate_team_stats t2 inc) a b =
  compare_stats (calculate_team_stats (payload t1) inc)
                (calculate_team_stats (payload t2) inc) a b.
Proof. by rewrite !calculate_team_stats_spec. Qed.

(** The comparison only reads the problems of the teams. *)
Lemma rank_lt_payload inc ts ts' a b :
  payload <$> ts = payload <$> ts' → rank_lt inc ts a b = rank_lt inc ts' a b.
Proof.
  intros Hp. unfold rank_lt. rewrite !compare_teams_fst.
  rewrite compare_stats_payload, (compare_stats_payload (ts' !!! a)).
  by rewrite !(fmap_eq_lookup_total payload ts ts').
Qed.

(** The state it leaves differs from the one it found in statistics only. *)
Lemma compare_teams_snd a b inc ts :
  is_Some (ts !! a) → is_Some (ts !! b) →
  core <$> (compare_teams a b inc ts).2 = core <$> ts.
Proof.
  intros Ha Hb. unfold compare_teams. simpl.
  rewrite (touch_present a) by done. rewrite (touch_present b) by done.
  rewrite !fmap_insert, !core_calculate_team_stats.
  rewrite lookup_total_insert. case_decide; subst.
  - rewrite core_calculate_team_stats, insert_insert_eq.
    apply insert_id. rewrite lookup_fmap. by rewrite lookup_lookup_total.
  - rewrite (insert_id _ a); [|by rewrite lookup_fmap, lookup_lookup_total].
    apply insert_id. by rewrite lookup_fmap, lookup_lookup_total.
Qed.

Lemma sort_by_ext {A} (lt lt' : A → A → bool) l :
  (∀ x y, lt x y = lt' x y) → sort_by lt l = sort_by lt' l.
Proof.
  intros Hext. induction l as [|x l IH]; [done|].
  rewrite !sort_by_cons, IH. generalize (sort_by lt' l). intros r.
  induction r as [|y r IHr]; [done|].
  rewrite !sort_insert_pure_cons, Hext, IHr. done.
Qed.

(** The sort of the team order by [compare_teams] is the sort by the pure
    relation [rank_lt] of the registry it starts from. *)
Lemma std_sort_by_rank ts l :
  Forall (λ n, is_Some (ts !! n)) l →
  (std_sort by_rank l ts).1 = sort_by (rank_lt false ts) l
  ∧ core <$> (std_sort by_rank l ts).2 = core <$> ts.
Proof.
  intros Hl.
  apply (std_sort_sim by_rank (rank_lt false ts)
           (λ n, is_Some (ts !! n)) (λ s, core <$> s = core <$> ts)); [|done..].
  intros x y s Hx Hy Hs. unfold by_rank. split.
  - change ((compare_teams x y false s).1) with (rank_lt false s x y).
    apply rank_lt_payload. by apply core_payload_eq.
  - rewrite compare_teams_snd; [done|..]; by eapply fmap_eq_is_Some.
Qed.

(** ** Ranks as positions *)

Section position.
Context {A : Type} (lt : A → A → bool).

Lemma filter_length_perm (f : A → bool) l l' :
  l ≡ₚ l' → length (List.filter f l) = length (List.filter f l').
Proof.
  induction 1 as [|x l l' _ IH|x y l|l l' l'' _ IH1 _ IH2]; simpl.
  - done.
  - destruct (f x); simpl; by rewrite IH.
  - by destruct (f x), (f y).
  - by rewrite IH1.
Qed.

Lemma filter_length_le (f g : A → bool) l :
  (∀ x, x ∈ l → f x = true → g x = true) →
  (length (List.filter f l) ≤ length (List.filter g l))%nat.
Proof.
  induction l as [|x l IH]; intros Hfg; simpl; [done|].
  assert (length (List.filter f l) ≤ length (List.filter g l))%nat as Hle.
  { apply IH. intros y Hy. apply Hfg. by right. }
  pose proof (Hfg x (list_elem_of_here _ _)) as Hx.
  destruct (f x), (g x); simpl; try lia; by specialize (Hx eq_refl).
Qed.

(** In a list sorted by a strict order, the index of an element is the
    number of elements before it in the order. *)
Lemma sorted_position l i x :
  (∀ y, y ∈ l → lt y y = false) →
  (∀ y z, y ∈ l → z ∈ l → lt y z = true → lt z y = false) →
  StronglySorted (λ y z, lt y z = true) l →
  l !! i = Some x →
  length (List.filter (λ y, lt y x) l) = i.
Proof.
  intros Hirr Hasym Hs. revert i.
  induction Hs as [|y l Hs IH Hy]; intros i Hi; [done|].
  assert (∀ z, z ∈ l → lt z z = false) as Hirr' by (intros; apply Hirr; by right).
  assert (∀ z w, z ∈ l → w ∈ l → lt z w = true → lt w z = false) as Hasym'
    by (intros; apply Hasym; by try right).
  rewrite Forall_forall in Hy. destruct i as [|i]; simpl in *.
  - injection Hi as ->. rewrite Hirr by left.
    assert (Forall (λ z, lt z x = false) l) as Hall.
    { apply Forall_forall. intros z Hz.
      apply Hasym; [left|by right|by apply Hy]. }
    clear -Hall. induction Hall as [|z l Hz _ IH]; simpl; [done|].
    by rewrite Hz.
  - rewrite Hy by (by eapply list_elem_of_lookup_2). simpl.
    f_equal. by apply IH.
Qed.
End position.

(** [teams[sorted_teams[i]].ranking = i + 1] *)
Lemma assign_rankings_other sorted k ts n :
  n ∉ sorted → assign_rankings sorted k ts !! n = ts !! n.
Proof.
  revert k ts. induction sorted as [|m sorted IH]; intros k ts Hn; simpl; [done|].
  apply not_elem_of_cons in Hn as [Hne Hn].
  rewrite IH by done. by rewrite lookup_insert_ne, touch_lookup_ne.
Qed.

Lemma assign_rankings_at sorted k ts i n :
  NoDup sorted → sorted !! i = Some n →
  assign_rankings sorted k ts !! n =
  Some (set_ranking (Z.of_nat (k + i) + 1) (ts !!! n)).
Proof.
  intros Hnd. revert k ts i.
  induction Hnd as [|m sorted Hm Hnd IH]; intros k ts i Hi; [done|]. simpl.
  destruct i as [|i]; simpl in *.
  - injection Hi as ->. rewrite assign_rankings_other by done.
    by rewrite lookup_insert_eq, touch_lookup_total, Nat.add_0_r.
  - assert (m ≠ n) by (intros ->; apply Hm; by eapply list_elem_of_lookup_2).
    rewrite (IH _ _ i) by done.
    rewrite lookup_total_insert_ne, touch_lookup_total by done.
    do 3 f_equal. lia.
Qed.

Lemma assign_rankings_payload sorted k ts :
  Forall (λ n, is_Some (ts !! n)) sorted →
  payload <$> assign_rankings sorted k ts = payload <$> ts.
Proof.
  revert k ts. induction sorted as [|m sorted IH]; intros k ts Hs; simpl; [done|].
  inversion_clear Hs as [|?? Hm Hs'].
  rewrite (touch_present m) by done. rewrite IH.
  - rewrite fmap_insert. apply insert_id.
    rewrite lookup_fmap. by rewrite lookup_lookup_total.
  - eapply Forall_impl; [exact Hs'|]. intros n Hn. simpl.
    rewrite lookup_insert. case_decide; eauto.
Qed.

(** ** The registry and the ranking pass *)

Lemma rank_lt_ngt_trans ts x y z :
  ngt (rank_lt false ts) x y → ngt (rank_lt false ts) y z →
  ngt (rank_lt false ts) x z.
Proof.
  unfold ngt. intros Hyx Hzy.
  destruct (decide (x = y)) as [->|Hxy]; [done|].
  destruct (decide (y = z)) as [->|Hyz]; [done|].
  destruct (rank_lt_total false ts x y Hxy) as [Hlt1|Hlt1]; [|congruence].
  destruct (rank_lt_total false ts y z Hyz) as [Hlt2|Hlt2]; [|congruence].
  apply rank_lt_asym. by apply (rank_lt_trans _ _ x y z).
Qed.

Lemma sort_by_rank_sorted ts order :
  NoDup order →
  StronglySorted (λ a b, rank_lt false ts a b = true)
    (sort_by (rank_lt false ts) order).
Proof.
  intros Hnd.
  assert (NoDup (sort_by (rank_lt false ts) order)) as Hnd'
    by (by rewrite sort_by_perm).
  assert (StronglySorted (ngt (rank_lt false ts)) (sort_by (rank_lt false ts) order)) as Hs.
  { apply (sort_by_sorted _ (λ _, True)).
    - intros x y z _ _ _. apply rank_lt_ngt_trans.
    - intros x y _ _. apply rank_lt_asym.
    - by apply Forall_forall. }
  induction Hs as [|x l Hs IH Hx]; constructor.
  - apply IH. by inversion Hnd'.
  - inversion_clear Hnd' as [|?? Hnotin _].
    rewrite Forall_forall in *. intros y Hy.
    destruct (rank_lt_total false ts x y) as [?|Hlt]; [congruence|done|].
    specialize (Hx y Hy). unfold ngt in Hx. congruence.
Qed.

(** Any sorting algorithm returns the order that the model computes: a
    rearrangement of a duplicate-free team order that [compare_teams] finds
    sorted is the result of [sort_by]. *)
Lemma sorted_unique ts order l :
  NoDup order → l ≡ₚ order →
  StronglySorted (λ a b, rank_lt false ts a b = true) l →
  l = sort_by (rank_lt false ts) order.
Proof.
  intros Hnd Hperm Hsorted.
  apply (StronglySorted_unique_strong (λ a b, rank_lt false ts a b = true)).
  - intros a b _ _ Hab Hba. apply rank_lt_asym in Hab. congruence.
  - done.
  - by apply sort_by_rank_sorted.
  - by rewrite Hperm, sort_by_perm.
Qed.

Lemma rank_of_payload ts ts' order n :
  payload <$> ts = payload <$> ts' → rank_of ts order n = rank_of ts' order n.
Proof.
  intros Hp. unfold rank_of. do 3 f_equal.
  apply filter_ext. intros m. by apply rank_lt_payload.
Qed.

Lemma set_teams_fields ts sys :
  team_order (set_teams ts sys) = team_order sys
  ∧ problem_names (set_teams ts sys) = problem_names sys
  ∧ is_frozen (set_teams ts sys) = is_frozen sys
  ∧ competition_started (set_teams ts sys) = competition_started sys
  ∧ teams (set_teams ts sys) = ts.
Proof. done. Qed.

Lemma flush_scoreboard_fields sys :
  team_order (flush_scoreboard sys) = team_order sys
  ∧ problem_names (flush_scoreboard sys) = problem_names sys
  ∧ is_frozen (flush_scoreboard sys) = is_frozen sys
  ∧ competition_started (flush_scoreboard sys) = competition_started sys.
Proof. unfold flush_scoreboard. by destruct (std_sort _ _ _). Qed.

(** After a ranking pass every team sits at the rank of its position in the
    sorted order. *)
Lemma flush_scoreboard_positions sys :
  NoDup (team_order sys) →
  ∃ sorted, sorted ≡ₚ team_order sys
    ∧ ∀ i n, sorted !! i = Some n →
        ranking (team_of (flush_scoreboard sys) n) = (Z.of_nat i + 1)%Z.
Proof.
  intros Hnd. unfold flush_scoreboard, team_of.
  pose proof (std_sort_perm by_rank (team_order sys) (teams sys)) as Hperm.
  destruct (std_sort by_rank (team_order sys) (teams sys)) as [sorted ts1].
  simpl in *. exists sorted. split; [done|]. intros i n Hi.
  assert (NoDup sorted) as Hnd' by (by rewrite Hperm).
  by rewrite (lookup_total_correct _ _ _ (assign_rankings_at sorted 0 ts1 i n Hnd' Hi)).
Qed.

Lemma flush_scoreboard_payload sys :
  registry_ok sys →
  payload <$> teams (flush_scoreboard sys) = payload <$> teams sys.
Proof.
  intros [Hnd Hreg]. unfold flush_scoreboard.
  destruct (std_sort_by_rank (teams sys) (team_order sys) Hreg) as [Hsorted Hcore].
  pose proof (std_sort_perm by_rank (team_order sys) (teams sys)) as Hperm.
  destruct (std_sort by_rank (team_order sys) (teams sys)) as [sorted ts1].
  simpl in *. rewrite assign_rankings_payload; [by apply core_payload_eq|].
  rewrite Hperm. eapply Forall_impl; [exact Hreg|].
  intros n Hn. simpl. by eapply fmap_eq_is_Some.
Qed.

Lemma flush_scoreboard_ranking sys n :
  registry_ok sys → n ∈ team_order sys →
  ranking (team_of (flush_scoreboard sys) n) = rank_of (teams sys) (team_order sys) n.
Proof.
  intros [Hnd Hreg] Hn. unfold flush_scoreboard, team_of.
  destruct (std_sort_by_rank (teams sys) (team_order sys) Hreg) as [Hsorted Hcore].
  destruct (std_sort by_rank (team_order sys) (teams sys)) as [sorted ts1].
  simpl in *. subst sorted.
  set (sorted := sort_by (rank_lt false (teams sys)) (team_order sys)).
  assert (sorted ≡ₚ team_order sys) as Hperm by apply sort_by_perm.
  assert (n ∈ sorted) as Hin by (by rewrite Hperm).
  apply list_elem_of_lookup_1 in Hin as [i Hi].
  assert (NoDup sorted) as Hnd' by (by rewrite Hperm).
  rewrite (lookup_total_correct _ _ _ (assign_rankings_at sorted 0 ts1 i n Hnd' Hi)).
  simpl. unfold rank_of.
  rewrite <- (filter_length_perm _ _ _ Hperm).
  rewrite (sorted_position (rank_lt false (teams sys)) sorted i n); [done|..|done].
  - intros. apply rank_lt_irrefl.
  - intros y z _ _. apply rank_lt_asym.
  - by apply sort_by_rank_sorted.
Qed.

Lemma positions_bijective sys sorted :
  sorted ≡ₚ team_order sys →
  (∀ i n, sorted !! i = Some n → ranking (team_of sys n) = (Z.of_nat i + 1)%Z) →
  ranks_bijective sys.
Proof.
  intros Hperm Hpos. unfold ranks_bijective.
  rewrite <- (Permutation_length Hperm). split_and!.
  - intros n Hn. rewrite <- Hperm in Hn.
    apply list_elem_of_lookup_1 in Hn as [i Hi].
    rewrite (Hpos i n Hi). apply lookup_lt_Some in Hi. lia.
  - intros n m Hn Hm. rewrite <- Hperm in Hn, Hm.
    apply list_elem_of_lookup_1 in Hn as [i Hi].
    apply list_elem_of_lookup_1 in Hm as [j Hj].
    rewrite (Hpos i n Hi), (Hpos j m Hj). intros Heq.
    assert (i = j) as -> by lia. congruence.
  - intros r Hr.
    destruct (lookup_lt_is_Some_2 sorted (Z.to_nat (r - 1))) as [n Hn]; [lia|].
    exists n. split.
    + rewrite <- Hperm. by eapply list_elem_of_lookup_2.
    + rewrite (Hpos _ n Hn). lia.
Qed.

Lemma flush_scoreboard_bijective sys :
  NoDup (team_order sys) → ranks_bijective (flush_scoreboard sys).
Proof.
  intros Hnd. destruct (flush_scoreboard_positions sys Hnd) as (sorted & Hperm & Hpos).
  apply (positions_bijective _ sorted); [|done].
  by destruct (flush_scoreboard_fields sys) as [-> _].
Qed.

Lemma List_filter_perm {A} (f : A → bool) l l' :
  l ≡ₚ l' → List.filter f l ≡ₚ List.filter f l'.
Proof.
  induction 1 as [|x l l' _ IH|x y l|l l' l'' _ IH1 _ IH2]; simpl.
  - done.
  - destruct (f x); by rewrite IH.
  - destruct (f x), (f y); try done. apply perm_swap.
  - by rewrite IH1.
Qed.

(** ** Problem statuses selected by a flag

    Entries created by [operator[]] are value-initialised: neither solved nor
    frozen.  The entries selected by a predicate that rejects such an entry
    are therefore determined by the total lookups of the map. *)
Section keep.
Context (f : ProblemStatus → bool) (f_new : f inhabitant = false).
Implicit Types pm : gmap string ProblemStatus.

Lemma keep_lookup pm q v :
  keep f pm !! q = Some v ↔ pm !!! q = v ∧ f v = true.
Proof.
  unfold keep. rewrite map_lookup_filter_Some, lookup_total_alt. simpl.
  destruct (pm !! q) as [w|]; simpl.
  - split; intros [Hw Hf]; split; congruence.
  - split; [by intros [? _]|]. intros [<- Hf].
    change (f inhabitant = true) in Hf. congruence.
Qed.

Lemma keep_ext pm pm' :
  (∀ q, f (pm !!! q) = true ∨ f (pm' !!! q) = true → pm !!! q = pm' !!! q) →
  keep f pm = keep f pm'.
Proof.
  intros Hext. apply map_eq. intros q. apply option_eq. intros v.
  rewrite !keep_lookup. split; intros [Hv Hf].
  - rewrite <- Hext; [done|]. left. congruence.
  - rewrite Hext; [done|]. right. congruence.
Qed.

Lemma keep_values pm :
  List.filter f (map snd (map_to_list pm)) ≡ₚ map snd (map_to_list (keep f pm)).
Proof.
  unfold keep. induction pm as [|q v pm Hq IH] using map_ind.
  - by rewrite map_filter_empty, !map_to_list_empty.
  - etrans.
    { apply List_filter_perm, Permutation_map, (map_to_list_insert pm q v Hq). }
    simpl. rewrite map_filter_insert. destruct (f v) eqn:Ef.
    + rewrite decide_True by done.
      etrans; [|symmetry; apply Permutation_map, map_to_list_insert].
      * simpl. by apply perm_skip.
      * by rewrite map_lookup_filter, Hq.
    + rewrite decide_False by (simpl; congruence).
      by rewrite delete_id.
Qed.

Lemma keep_exists pm :
  existsb f (map snd (map_to_list pm)) = true ↔ ∃ q, f (pm !!! q) = true.
Proof.
  rewrite existsb_exists. split.
  - intros (v & Hin & Hv). apply in_map_iff in Hin as ([q w] & <- & Hin).
    apply list_elem_of_In, elem_of_map_to_list in Hin.
    exists q. by rewrite (lookup_total_correct _ _ _ Hin).
  - intros (q & Hq). exists (pm !!! q). split; [|done].
    apply in_map_iff. exists (q, pm !!! q). split; [done|].
    apply list_elem_of_In, elem_of_map_to_list.
    rewrite lookup_total_alt in *. destruct (pm !! q); [done|]. simpl in *. congruence.
Qed.
End keep.

Lemma existsb_perm {A} (f : A → bool) l l' :
  l ≡ₚ l' → existsb f l = existsb f l'.
Proof.
  intros Hp. apply eq_true_iff_eq. rewrite !existsb_exists.
  split; intros (x & Hx & ?); exists x; split; auto.
  - by apply (Permutation_in _ Hp).
  - by apply (Permutation_in _ (Permutation_sym Hp)).
Qed.

Lemma map_items_perm {V} (m : gmap string V) : map_items m ≡ₚ map_to_list m.
Proof. apply merge_sort_Permutation. Qed.

(** [map_items] lists the entries of the map by ascending key. *)
Lemma map_items_sorted {V} (m : gmap string V) : Sorted key_le (map_items m).
Proof.
  assert (Total (@key_le V)) as Htotal.
  { intros x y. unfold key_le. apply String.leb_total. }
  apply Sorted_merge_sort. exact Htotal.
Qed.

(** The frozen problems of a team. *)
Lemma has_frozen_exists team :
  has_frozen team = true ↔ ∃ p, frozen (problems team !!! p) = true.
Proof.
  unfold has_frozen. rewrite <- (keep_exists frozen) by done.
  assert (∀ l : list (string * ProblemStatus),
    existsb (λ pp, frozen pp.2) l = existsb frozen (map snd l)) as Hmap.
  { induction l as [|[??] l IH]; simpl; [done|]. by rewrite IH. }
  rewrite Hmap, (existsb_perm _ _ (map snd (map_to_list (problems team)))); [done|].
  apply Permutation_map, map_items_perm.
Qed.

(** The counted problems of a team, up to their order. *)
Lemma visible_keep inc pm :
  visible inc pm ≡ₚ map snd (map_to_list (keep (counted inc) pm)).
Proof.
  unfold visible. rewrite <- keep_values.
  apply List_filter_perm, Permutation_map, map_items_perm.
Qed.

(** ** The steps of a scroll iteration *)

Lemma nth_elem_of (l : list string) i : (i < length l)%nat → nth i l "" ∈ l.
Proof. intros. apply list_elem_of_In, nth_In. done. Qed.

Lemma find_lowest_team_state sorted k ts :
  Forall (λ n, is_Some (ts !! n)) sorted → (k ≤ length sorted)%nat →
  (find_lowest_team sorted k ts).2 = ts.
Proof.
  intros Hreg. induction k as [|k IH]; intros Hk; simpl; [done|].
  rewrite Forall_forall in Hreg.
  rewrite touch_present by (apply Hreg, nth_elem_of; lia).
  destruct (has_frozen _); [done|]. apply IH. lia.
Qed.

Lemma find_lowest_team_result sorted k ts :
  Forall (λ n, is_Some (ts !! n)) sorted → (k ≤ length sorted)%nat →
  let r := (find_lowest_team sorted k ts).1 in
  r = "" ∨ (r ∈ sorted ∧ has_frozen (ts !!! r) = true).
Proof.
  intros Hreg. induction k as [|k IH]; intros Hk; simpl; [by left|].
  rewrite Forall_forall in Hreg.
  rewrite touch_present by (apply Hreg, nth_elem_of; lia).
  destruct (has_frozen _) eqn:E; simpl.
  - right. split; [apply nth_elem_of; lia|done].
  - apply IH. lia.
Qed.

Lemma has_frozen_problems t t' : problems t = problems t' → has_frozen t = has_frozen t'.
Proof. unfold has_frozen. by intros ->. Qed.

Lemma core_eq_problems (ts ts' : gmap string Team) n :
  core <$> ts = core <$> ts' → problems (ts !!! n) = problems (ts' !!! n).
Proof.
  intros Hc. apply (fmap_eq_lookup_total core _ _ n) in Hc.
  by apply (f_equal problems) in Hc.
Qed.

Lemma payload_eq_problems (ts ts' : gmap string Team) n :
  payload <$> ts = payload <$> ts' → problems (ts !!! n) = problems (ts' !!! n).
Proof.
  intros Hc. apply (fmap_eq_lookup_total payload _ _ n) in Hc.
  by apply (f_equal problems) in Hc.
Qed.

Lemma find_lowest_team_core sorted k ts ts' :
  Forall (λ n, is_Some (ts !! n)) sorted → (k ≤ length sorted)%nat →
  core <$> ts = core <$> ts' →
  (find_lowest_team sorted k ts).1 = (find_lowest_team sorted k ts').1.
Proof.
  intros Hreg Hk Hc. induction k as [|k IH]; simpl; [done|].
  rewrite Forall_forall in Hreg.
  assert (is_Some (ts !! nth k sorted "")) as Hs by (apply Hreg, nth_elem_of; lia).
  rewrite !touch_present by (done || by eapply fmap_eq_is_Some).
  rewrite (has_frozen_problems _ (ts' !!! nth k sorted "")) by (by apply core_eq_problems).
  destruct (has_frozen _); [done|]. apply IH. lia.
Qed.

(** The problem the iteration picks. *)
Lemma find_unfreeze_problem_lookup_total pnames pm q :
  (find_unfreeze_problem pnames pm).2 !!! q = pm !!! q.
Proof.
  revert pm. induction pnames as [|p pnames IH]; intros pm; simpl; [done|].
  destruct (frozen (touch p pm !!! p)); simpl.
  - apply touch_lookup_total.
  - by rewrite IH, touch_lookup_total.
Qed.

Lemma find_unfreeze_problem_found pnames pm :
  (∃ q, q ∈ pnames ∧ frozen (pm !!! q) = true) →
  let up := (find_unfreeze_problem pnames pm).1 in
  up ∈ pnames ∧ frozen (pm !!! up) = true.
Proof.
  revert pm. induction pnames as [|p pnames IH]; intros pm (q & Hq & Hfr); simpl.
  { by apply elem_of_nil in Hq. }
  destruct (frozen (touch p pm !!! p)) eqn:E; simpl.
  - rewrite touch_lookup_total in E. split; [left|done].
  - destruct (IH (touch p pm)) as [Hin Hf].
    + exists q. rewrite touch_lookup_total. split; [|done].
      apply elem_of_cons in Hq as [->|Hq]; [|done].
      rewrite touch_lookup_total in E. congruence.
    + rewrite touch_lookup_total in Hf. split; [by right|done].
Qed.

(** What the reveal changes in a team. *)
Lemma reveal_fields up team :
  name (reveal up team) = name team
  ∧ submissions (reveal up team) = submissions team
  ∧ ranking (reveal up team) = ranking team.
Proof. unfold reveal. by destruct (replay _ _ _ _). Qed.

Lemma reveal_lookup_total_ne up q team :
  up ≠ q → problems (reveal up team) !!! q = problems team !!! q.
Proof.
  intros. unfold reveal. destruct (replay _ _ _ _). simpl.
  by rewrite lookup_total_insert_ne, touch_lookup_total.
Qed.

Lemma reveal_unfrozen up team : frozen (problems (reveal up team) !!! up) = false.
Proof.
  unfold reveal. destruct (replay _ _ _ _) as [ps add] eqn:E. simpl.
  rewrite lookup_total_insert_eq.
  pose proof (replay_frozen (submissions team) up
    (mkProblemStatus (solved (touch up (problems team) !!! up))
       (solve_time (touch up (problems team) !!! up))
       (wrong_attempts_before_first_success (touch up (problems team) !!! up))
       (wrong_attempts_before_freeze (touch up (problems team) !!! up))
       (submissions_after_freeze (touch up (problems team) !!! up)) false) 0) as Hf.
  rewrite E in Hf. simpl in Hf. by destruct (solved ps).
Qed.

(** [old_rankings] holds the rank of every sorted team. *)
Lemma save_rankings_state sorted olds ts :
  Forall (λ n, is_Some (ts !! n)) sorted → (save_rankings sorted olds ts).2 = ts.
Proof.
  intros Hreg. revert olds. induction Hreg as [|n sorted Hn Hreg IH]; intros olds; simpl; [done|].
  rewrite touch_present by done. apply IH.
Qed.

Lemma save_rankings_other sorted (olds : gmap string Z) ts n :
  n ∉ sorted → (save_rankings sorted olds ts).1 !! n = olds !! n.
Proof.
  revert olds ts. induction sorted as [|m sorted IH]; intros olds ts Hn; simpl; [done|].
  apply not_elem_of_cons in Hn as [Hne Hn]. rewrite IH by done.
  by rewrite lookup_insert_ne.
Qed.

Lemma save_rankings_lookup sorted (olds : gmap string Z) ts n :
  Forall (λ n, is_Some (ts !! n)) sorted → n ∈ sorted →
  (save_rankings sorted olds ts).1 !!! n = ranking (ts !!! n).
Proof.
  intros Hreg. revert olds.
  induction Hreg as [|m sorted Hm Hreg IH]; intros olds Hn; simpl.
  { by apply elem_of_nil in Hn. }
  rewrite touch_present by done.
  destruct (decide (n ∈ sorted)) as [Hin|Hnotin]; [by apply IH|].
  apply elem_of_cons in Hn as [->|Hn]; [|done].
  rewrite lookup_total_alt, save_rankings_other by done.
  by rewrite lookup_insert_eq.
Qed.

(** The search for the replaced team finds a team when there is one. *)
Lemma find_replaced_found sorted (olds : gmap string Z) new_rank X :
  (∃ r, r ∈ sorted ∧ olds !!! r = new_rank ∧ r ≠ X) →
  let R := find_replaced sorted olds new_rank X in
  R ∈ sorted ∧ olds !!! R = new_rank ∧ R ≠ X.
Proof.
  induction sorted as [|n sorted IH]; intros (r & Hr & Hold & Hne); simpl.
  { by apply elem_of_nil in Hr. }
  destruct (Z.eqb_spec (olds !!! n) new_rank) as [Heq|Hneq],
    (String.eqb_spec n X) as [HX|HX]; simpl;
    try (split_and!; [left|done..]).
  all: destruct IH as (H1 & H2 & H3);
    [exists r; split_and!; [|done..];
     apply elem_of_cons in Hr as [->|Hr]; [congruence|done]|].
  all: split_and!; [by right|done..].
Qed.

(** Printing the scoreboard only refreshes statistics. *)
Lemma print_rows_core sorted pnames ts :
  Forall (λ n, is_Some (ts !! n)) sorted →
  core <$> (print_rows sorted pnames ts).2 = core <$> ts.
Proof.
  revert ts. induction sorted as [|n sorted IH]; intros ts Hreg; simpl; [done|].
  inversion_clear Hreg as [|?? Hn Hreg'].
  rewrite touch_present by done.
  set (ts' := <[n := calculate_team_stats (ts !!! n) false]> ts).
  assert (core <$> ts' = core <$> ts) as Hc.
  { unfold ts'. rewrite fmap_insert, core_calculate_team_stats.
    apply insert_id. by rewrite lookup_fmap, lookup_lookup_total. }
  specialize (IH ts'). destruct (print_rows sorted pnames ts') as [out ts''].
  simpl in *. rewrite IH; [done|].
  eapply Forall_impl; [exact Hreg'|]. intros m Hm. simpl.
  by eapply fmap_eq_is_Some.
Qed.

Lemma print_scoreboard_fields sys :
  team_order (print_scoreboard sys).2 = team_order sys
  ∧ problem_names (print_scoreboard sys).2 = problem_names sys
  ∧ is_frozen (print_scoreboard sys).2 = is_frozen sys
  ∧ competition_started (print_scoreboard sys).2 = competition_started sys.
Proof.
  unfold print_scoreboard. destruct (std_sort _ _ _) as [sorted ts].
  by destruct (print_rows _ _ _).
Qed.

Lemma print_scoreboard_core sys :
  registry_ok sys →
  core <$> teams (print_scoreboard sys).2 = core <$> teams sys.
Proof.
  intros [Hnd Hreg]. unfold print_scoreboard.
  destruct (std_sort_by_rank (teams sys) (team_order sys) Hreg) as [Hsorted Hcore].
  pose proof (std_sort_perm by_rank (team_order sys) (teams sys)) as Hperm.
  destruct (std_sort by_rank (team_order sys) (teams sys)) as [sorted ts1].
  simpl in *.
  pose proof (print_rows_core sorted (problem_names sys) ts1) as Hrows.
  destruct (print_rows sorted (problem_names sys) ts1) as [out ts2]. simpl in *.
  rewrite Hrows; [done|]. rewrite Hperm.
  eapply Forall_impl; [exact Hreg|]. intros m Hm. simpl.
  by eapply fmap_eq_is_Some.
Qed.

Lemma revealed_core sys t t' :
  core t = core t' → payload (revealed sys t) = payload (revealed sys t').
Proof.
  intros Hc. injection Hc as Hn Hp Hs Hr. unfold revealed. rewrite Hp.
  destruct (find_unfreeze_problem _ _) as [up pm].
  unfold reveal. simpl. rewrite Hs.
  destruct (replay _ _ _ _). unfold payload, core, set_ranking, set_stats. simpl.
  by rewrite Hn, Hs.
Qed.

Lemma revealed_ranking sys t : ranking (revealed sys t) = ranking t.
Proof.
  unfold revealed. destruct (find_unfreeze_problem _ _) as [up pm].
  by destruct (reveal_fields up (set_problems pm t)) as (_ & _ & ->).
Qed.

Lemma core_eq_ranking (ts ts' : gmap string Team) n :
  core <$> ts = core <$> ts' → ranking (ts !!! n) = ranking (ts' !!! n).
Proof.
  intros Hc. apply (fmap_eq_lookup_total core _ _ n) in Hc.
  by apply (f_equal ranking) in Hc.
Qed.

Lemma registry_ok_fmap {B} (f : Team → B) sys sys' :
  team_order sys' = team_order sys → f <$> teams sys = f <$> teams sys' →
  registry_ok sys → registry_ok sys'.
Proof.
  intros Ho Hf [Hnd Hreg]. split; rewrite Ho; [done|].
  eapply Forall_impl; [exact Hreg|]. intros n Hn. simpl. by eapply fmap_eq_is_Some.
Qed.

Lemma insert_calculate_core (ts : gmap string Team) n inc :
  is_Some (ts !! n) →
  core <$> <[n := calculate_team_stats (ts !!! n) inc]> ts = core <$> ts.
Proof.
  intros Hn. rewrite fmap_insert, core_calculate_team_stats.
  apply insert_id. by rewrite lookup_fmap, lookup_lookup_total.
Qed.

Lemma scroll_iteration_break sys :
  registry_ok sys → lowest_team sys = "" →
  ∃ sys', scroll_iteration sys = (Break, sys')
    ∧ core <$> teams sys' = core <$> teams sys
    ∧ team_order sys' = team_order sys
    ∧ problem_names sys' = problem_names sys
    ∧ is_frozen sys' = is_frozen sys
    ∧ competition_started sys' = competition_started sys.
Proof.
  intros [Hnd Hreg] HX. unfold scroll_iteration, lowest_team in *.
  destruct (std_sort_by_rank (teams sys) (team_order sys) Hreg) as [Hsorted Hcore].
  pose proof (std_sort_perm by_rank (team_order sys) (teams sys)) as Hperm.
  destruct (std_sort by_rank (team_order sys) (teams sys)) as [sorted ts1].
  simpl in Hsorted, Hcore, Hperm.
  assert (Forall (λ n, is_Some (ts1 !! n)) sorted) as Hreg1.
  { rewrite Hperm. eapply Forall_impl; [exact Hreg|].
    intros n Hn. simpl. by eapply fmap_eq_is_Some. }
  pose proof (find_lowest_team_state sorted (length sorted) ts1 Hreg1 (le_n _)) as Hst.
  destruct (find_lowest_team sorted (length sorted) ts1) as [X ts1'].
  simpl in *. subst X ts1'. simpl. eexists. split; [done|]. by split_and!.
Qed.

Lemma scroll_iteration_continue sys :
  registry_ok sys → lowest_team sys ≠ "" →
  let X := lowest_team sys in
  ∃ out sys', scroll_iteration sys = (Continue out, sys')
    ∧ X ∈ team_order sys ∧ has_frozen (team_of sys X) = true
    ∧ team_order sys' = team_order sys
    ∧ problem_names sys' = problem_names sys
    ∧ is_frozen sys' = is_frozen sys
    ∧ competition_started sys' = competition_started sys
    ∧ payload <$> teams sys' =
        <[X := payload (revealed sys (team_of sys X))]> (payload <$> teams sys)
    ∧ (∀ n, n ∈ team_order sys →
         ranking (team_of sys' n) = rank_of (teams sys') (team_order sys) n)
    ∧ ∃ R,
        out = (if (ranking (team_of sys' X) <? ranking (team_of sys X))%Z
               then notification X R (calculate_team_stats (team_of sys' X) false)
               else "")
        ∧ ((ranking (team_of sys' X) < ranking (team_of sys X))%Z →
           (∃ r, r ∈ team_order sys ∧ r ≠ X
                 ∧ ranking (team_of sys r) = ranking (team_of sys' X)) →
           R ∈ team_order sys ∧ R ≠ X
           ∧ ranking (team_of sys R) = ranking (team_of sys' X)).
Proof.
  intros [Hnd Hreg] HX. unfold scroll_iteration, lowest_team, team_of in *.
  destruct (std_sort_by_rank (teams sys) (team_order sys) Hreg) as [Hsorted Hcore].
  pose proof (std_sort_perm by_rank (team_order sys) (teams sys)) as Hperm.
  destruct (std_sort by_rank (team_order sys) (teams sys)) as [sorted ts1].
  simpl in Hsorted, Hcore, Hperm.
  assert (Forall (λ n, is_Some (ts1 !! n)) sorted) as Hreg1.
  { rewrite Hperm. eapply Forall_impl; [exact Hreg|].
    intros n Hn. simpl. by eapply fmap_eq_is_Some. }
  pose proof (find_lowest_team_state sorted (length sorted) ts1 Hreg1 (le_n _)) as Hst.
  pose proof (find_lowest_team_result sorted (length sorted) ts1 Hreg1 (le_n _)) as Hres.
  destruct (find_lowest_team sorted (length sorted) ts1) as [X ts1'].
  simpl in Hst, Hres, HX |- *. subst ts1'.
  destruct Hres as [?|[HXin HXfr]]; [done|].
  apply String.eqb_neq in HX. rewrite HX.
  assert (is_Some (ts1 !! X)) as HXsome.
  { rewrite Forall_forall in Hreg1. by apply Hreg1. }
  rewrite (touch_present X ts1) by done.
  assert (core (ts1 !!! X) = core (teams sys !!! X)) as HcoreX
    by (by apply fmap_eq_lookup_total).
  pose proof (revealed_core sys _ _ HcoreX) as Hrev.
  pose proof (revealed_ranking sys (ts1 !!! X)) as Hrank.
  unfold revealed in Hrev at 1. unfold revealed in Hrank.
  destruct (find_unfreeze_problem (problem_names sys) (problems (ts1 !!! X)))
    as [up pm].
  set (team1 := reveal up (set_problems pm (ts1 !!! X))) in *.
  set (ts2 := <[X := team1]> ts1).
  assert (Forall (λ n, is_Some (ts2 !! n)) sorted) as Hreg2.
  { eapply Forall_impl; [exact Hreg1|]. intros n Hn. simpl.
    unfold ts2. rewrite lookup_insert. case_decide; eauto. }
  pose proof (save_rankings_state sorted ∅ ts2 Hreg2) as Hsave.
  pose proof (λ n, save_rankings_lookup sorted ∅ ts2 n Hreg2) as Holds.
  destruct (save_rankings sorted ∅ ts2) as [olds ts2'].
  simpl in Hsave, Holds. subst ts2'.
  set (sys0 := set_teams ts2 sys).
  assert (registry_ok sys0) as Hok0.
  { split; simpl; [done|]. by rewrite <- Hperm. }
  pose proof (flush_scoreboard_payload sys0 Hok0) as Hpay.
  pose proof (λ n, flush_scoreboard_ranking sys0 n Hok0) as Hrk.
  destruct (flush_scoreboard_fields sys0) as (Ho1 & Hp1 & Hf1 & Hc1).
  unfold team_of in Hrk. simpl in Hpay, Hrk, Ho1, Hp1, Hf1, Hc1.
  set (sys1 := flush_scoreboard sys0) in *.
  assert (payload <$> ts2 =
          <[X := payload (revealed sys (teams sys !!! X))]> (payload <$> teams sys)) as Hpay2.
  { unfold ts2. rewrite fmap_insert, Hrev. f_equal. by apply core_payload_eq. }
  assert (ranking (ts1 !!! X) = ranking (teams sys !!! X)) as HoldX
    by (by apply core_eq_ranking).
  assert (is_Some (teams sys1 !! X)) as HX1.
  { apply (fmap_eq_is_Some payload ts2); [done|].
    unfold ts2. rewrite lookup_insert_eq. eauto. }
  assert (X ∈ team_order sys) as HXord by (by rewrite <- Hperm).
  assert (has_frozen (teams sys !!! X) = true) as HXfr'.
  { rewrite <- HXfr. apply has_frozen_problems. symmetry. by apply core_eq_problems. }
  (* the replaced team *)
  assert (∀ new_rank,
    (∃ r, r ∈ team_order sys ∧ r ≠ X ∧ ranking (teams sys !!! r) = new_rank) →
    let R := find_replaced sorted olds new_rank X in
    R ∈ team_order sys ∧ R ≠ X ∧ ranking (teams sys !!! R) = new_rank) as Hrep.
  { intros new_rank (r & Hr & Hne & Hrr).
    assert (∀ m, m ∈ sorted → m ≠ X → olds !!! m = ranking (teams sys !!! m)) as Hold.
    { intros m Hm HmX. rewrite Holds by done.
      unfold ts2. rewrite lookup_total_insert_ne by done.
      by apply core_eq_ranking. }
    destruct (find_replaced_found sorted olds new_rank X) as (H1 & H2 & H3).
    { exists r. rewrite Hperm. split_and!; [done| |done].
      rewrite Hold; [done| |done]. by rewrite Hperm. }
    simpl. split_and!; [by rewrite <- Hperm|done|].
    by rewrite <- Hold. }
  change (ranking (set_problems pm (ts1 !!! X))) with (ranking (ts1 !!! X)).
  rewrite HoldX.
  destruct (Z.ltb_spec (ranking (teams sys1 !!! X)) (ranking (teams sys !!! X)))
    as [Hlt|Hge].
  - eexists _, _. split; [done|]. simpl.
    assert (core <$> <[X := calculate_team_stats (teams sys1 !!! X) false]> (teams sys1)
            = core <$> teams sys1) as Hc2 by (by apply insert_calculate_core).
    assert (ranking (<[X := calculate_team_stats (teams sys1 !!! X) false]> (teams sys1) !!! X)
            = ranking (teams sys1 !!! X)) as HrX by (by apply core_eq_ranking).
    split_and!; try done.
    + rewrite (core_payload_eq _ _ Hc2). by rewrite Hpay.
    + intros n Hn. rewrite (core_eq_ranking _ _ n Hc2), Hrk by done.
      apply rank_of_payload. rewrite (core_payload_eq _ _ Hc2). by rewrite Hpay.
    + exists (find_replaced sorted olds (ranking (teams sys1 !!! X)) X).
      rewrite HrX. split.
      * apply Z.ltb_lt in Hlt. rewrite Hlt.
        by rewrite lookup_total_insert_eq, calculate_team_stats_twice.
      * intros _. apply Hrep.
  - eexists _, _. split; [done|]. split_and!; try done.
    + by rewrite Hpay.
    + intros n Hn. rewrite Hrk by done. by apply rank_of_payload.
    + exists "". split; [|intros ?; lia].
      apply Z.ltb_ge in Hge. by rewrite Hge.
Qed.

(** ** The frozen flags across an iteration *)

Lemma next_problem_frozen sys team :
  has_frozen team = true →
  (∀ p, frozen (problems team !!! p) = true → p ∈ problem_names sys) →
  next_problem sys team ∈ problem_names sys
  ∧ frozen (problems team !!! next_problem sys team) = true.
Proof.
  intros Hfr Hin. apply has_frozen_exists in Hfr as [p Hp].
  apply find_unfreeze_problem_found. exists p. split; [by apply Hin|done].
Qed.

Lemma revealed_problems sys team :
  let up := next_problem sys team in
  frozen (problems (revealed sys team) !!! up) = false
  ∧ ∀ q, q ≠ up → problems (revealed sys team) !!! q = problems team !!! q.
Proof.
  unfold next_problem, revealed.
  pose proof (find_unfreeze_problem_lookup_total (problem_names sys) (problems team)) as Hl.
  destruct (find_unfreeze_problem _ _) as [up pm]. simpl in *. split.
  - apply reveal_unfrozen.
  - intros q Hq. rewrite reveal_lookup_total_ne by done. simpl. apply Hl.
Qed.

Lemma frozen_count_revealed sys team :
  frozen (problems team !!! next_problem sys team) = true →
  S (frozen_count (problems (revealed sys team))) = frozen_count (problems team).
Proof.
  intros Hfr. destruct (revealed_problems sys team) as [Hup Hothers].
  set (up := next_problem sys team) in *.
  unfold frozen_count.
  assert (keep frozen (problems (revealed sys team)) =
          delete up (keep frozen (problems team))) as ->.
  { apply map_eq. intros q. apply option_eq. intros v.
    rewrite lookup_delete_Some, !keep_lookup by done.
    destruct (decide (q = up)) as [->|Hne].
    - split; [intros [<- ?]; congruence|by intros [? _]].
    - rewrite Hothers by done. intuition congruence. }
  rewrite map_size_delete_Some.
  - assert (size (keep frozen (problems team)) ≠ 0) as Hne; [|lia].
    intros Hz. apply map_size_empty_inv in Hz.
    assert (keep frozen (problems team) !! up = Some (problems team !!! up)) as Hk
      by (by apply keep_lookup).
    by rewrite Hz, lookup_empty in Hk.
  - exists (problems team !!! up). by apply keep_lookup.
Qed.

(** The statistics with frozen problems excluded either stay as they are or
    gain one solved problem. *)
Lemma visible_revealed sys team :
  frozen (problems team !!! next_problem sys team) = true →
  visible false (problems (revealed sys team)) ≡ₚ visible false (problems team)
  ∨ length (visible false (problems (revealed sys team))) =
    S (length (visible false (problems team))).
Proof.
  intros Hfr. destruct (revealed_problems sys team) as [Hup Hothers].
  set (up := next_problem sys team) in *.
  set (ps' := problems (revealed sys team) !!! up) in *.
  assert (counted false (problems team !!! up) = false) as Hc.
  { unfold counted. rewrite Hfr. simpl. by destruct (solved _). }
  rewrite !visible_keep.
  destruct (counted false ps') eqn:Hc'.
  - right. rewrite !length_map, !length_map_to_list.
    assert (keep (counted false) (problems (revealed sys team)) =
            <[up := ps']> (keep (counted false) (problems team))) as ->.
    { apply map_eq. intros q. apply option_eq. intros v.
      rewrite lookup_insert_Some, !keep_lookup by done.
      destruct (decide (q = up)) as [->|Hne].
      - split; [intros [<- ?]; by left|].
        intros [[_ <-]|[? _]]; done.
      - rewrite Hothers by done. intuition congruence. }
    apply map_size_insert_None.
    destruct (keep (counted false) (problems team) !! up) as [v|] eqn:E; [|done].
    apply keep_lookup in E as [<- ?]; [congruence|done].
  - left. rewrite (keep_ext (counted false) eq_refl _ (problems team)); [done|].
    intros q Hq. destruct (decide (q = up)) as [->|Hne]; [|by apply Hothers].
    fold ps' in Hq. destruct Hq; congruence.
Qed.

Lemma sort_reversed_perm_eq v v' : v ≡ₚ v' → sort_reversed v = sort_reversed v'.
Proof.
  intros Hp.
  assert (AntiSymm eq Z.ge) as Hanti by (intros x y ??; lia).
  apply (StronglySorted_unique Z.ge).
  - apply sort_reversed_descending.
  - apply sort_reversed_descending.
  - by rewrite !sort_reversed_perm.
Qed.

Lemma sumZ_perm l l' : l ≡ₚ l' → sumZ l = sumZ l'.
Proof.
  unfold sumZ. induction 1; simpl; lia.
Qed.

Lemma calculate_team_stats_visible t t' inc :
  visible inc (problems t) ≡ₚ visible inc (problems t') →
  solved_count (calculate_team_stats t inc) = solved_count (calculate_team_stats t' inc)
  ∧ penalty_time (calculate_team_stats t inc) = penalty_time (calculate_team_stats t' inc)
  ∧ solve_times (calculate_team_stats t inc) = solve_times (calculate_team_stats t' inc).
Proof.
  intros Hp. rewrite !calculate_team_stats_spec. simpl. split_and!.
  - by rewrite Hp.
  - f_equal. apply sumZ_perm. by apply Permutation_map.
  - apply sort_reversed_perm_eq. by apply Permutation_map.
Qed.

Lemma ranks_above_sc sc1 pt1 p1 n1 sc2 pt2 p2 n2 :
  ranks_above sc1 pt1 p1 n1 sc2 pt2 p2 n2 → (sc2 ≤ sc1)%Z.
Proof. unfold ranks_above. intuition lia. Qed.

(** If the revealed team gets ahead of nobody it was behind, no team that is
    ahead of it afterwards was behind it before. *)
Lemma rank_lt_revealed sys ts ts' X m :
  frozen (problems (ts !!! X) !!! next_problem sys (ts !!! X)) = true →
  problems (ts' !!! X) = problems (revealed sys (ts !!! X)) →
  (m ≠ X → problems (ts' !!! m) = problems (ts !!! m)) →
  rank_lt false ts' m X = true → rank_lt false ts m X = true.
Proof.
  intros Hfr HX Hm. destruct (decide (m = X)) as [->|Hne].
  { by rewrite rank_lt_irrefl. }
  rewrite !rank_lt_ranks_above. simpl.
  destruct (calculate_team_stats_visible (ts' !!! m) (ts !!! m) false)
    as (-> & -> & ->); [by rewrite Hm|].
  destruct (visible_revealed sys (ts !!! X) Hfr) as [Hsame|Hmore].
  - destruct (calculate_team_stats_visible (ts' !!! X) (ts !!! X) false)
      as (-> & -> & ->); [by rewrite HX|done].
  - intros Habove. apply ranks_above_sc in Habove. left.
    revert Habove. rewrite !calculate_team_stats_spec. simpl.
    rewrite HX, Hmore. lia.
Qed.

Lemma rank_lt_same_problems inc ts ts' a b :
  problems (ts' !!! a) = problems (ts !!! a) →
  problems (ts' !!! b) = problems (ts !!! b) →
  rank_lt inc ts' a b = rank_lt inc ts a b.
Proof.
  intros Ha Hb. unfold rank_lt.
  rewrite !compare_teams_fst, !calculate_team_stats_spec.
  unfold compare_stats. simpl. by rewrite Ha, Hb.
Qed.

(** The teams the revealed team was ahead of stay behind it. *)
Lemma rank_lt_revealed_ahead sys ts ts' X m :
  frozen (problems (ts !!! X) !!! next_problem sys (ts !!! X)) = true →
  problems (ts' !!! X) = problems (revealed sys (ts !!! X)) →
  (m ≠ X → problems (ts' !!! m) = problems (ts !!! m)) →
  rank_lt false ts X m = true → rank_lt false ts' X m = true.
Proof.
  intros Hfr HX Hm. destruct (decide (m = X)) as [->|Hne].
  { by rewrite rank_lt_irrefl. }
  rewrite !rank_lt_ranks_above. simpl.
  destruct (calculate_team_stats_visible (ts' !!! m) (ts !!! m) false)
    as (-> & -> & ->); [by rewrite Hm|].
  destruct (visible_revealed sys (ts !!! X) Hfr) as [Hsame|Hmore].
  - destruct (calculate_team_stats_visible (ts' !!! X) (ts !!! X) false)
      as (-> & -> & ->); [by rewrite HX|done].
  - intros Habove. apply ranks_above_sc in Habove. left.
    revert Habove. rewrite !calculate_team_stats_spec. simpl.
    rewrite HX, Hmore. lia.
Qed.

Lemma filter_length_le_succ `{EqDecision A} (f g : A → bool) l (X : A) :
  NoDup l → (∀ x, x ∈ l → x ≠ X → f x = true → g x = true) →
  (length (List.filter f l) ≤ S (length (List.filter g l)))%nat.
Proof.
  intros Hnd. induction Hnd as [|x l Hx Hnd IH]; intros Hfg; simpl; [lia|].
  destruct (decide (x = X)) as [->|Hne].
  - assert (length (List.filter f l) ≤ length (List.filter g l))%nat as Hle.
    { apply filter_length_le. intros y Hy. apply Hfg; [by right|].
      intros ->. done. }
    destruct (f X), (g X); simpl; lia.
  - assert (length (List.filter f l) ≤ S (length (List.filter g l)))%nat as Hle.
    { apply IH. intros y Hy. apply Hfg. by right. }
    pose proof (Hfg x (list_elem_of_here _ _) Hne) as Hx'.
    destruct (f x), (g x); simpl; try lia; by specialize (Hx' eq_refl).
Qed.

(** Reading a team back from an updated registry. *)
Lemma payload_insert_ne (ts ts' : gmap string Team) X v n :
  payload <$> ts' = <[X := v]> (payload <$> ts) → n ≠ X →
  payload (ts' !!! n) = payload (ts !!! n).
Proof.
  intros Hp Hne. apply (f_equal (λ m, m !! n)) in Hp.
  rewrite lookup_insert_ne, !lookup_fmap in Hp by done.
  rewrite !lookup_total_alt. destruct (ts' !! n), (ts !! n); simpl in *; congruence.
Qed.

Lemma payload_insert_eq (ts ts' : gmap string Team) X v :
  payload <$> ts' = <[X := v]> (payload <$> ts) → payload (ts' !!! X) = v.
Proof.
  intros Hp. apply (f_equal (λ m, m !! X)) in Hp.
  rewrite lookup_insert_eq, !lookup_fmap in Hp.
  rewrite !lookup_total_alt. destruct (ts' !! X); simpl in *; congruence.
Qed.

Lemma sum_list_with_one_less (f f' : string → nat) l X :
  NoDup l → X ∈ l → (∀ n, n ∈ l → n ≠ X → f' n = f n) → S (f' X) = f X →
  S (sum_list_with f' l) = sum_list_with f l.
Proof.
  intros Hnd. induction Hnd as [|n l Hn Hnd IH]; intros HX Hoth HfX.
  { by apply elem_of_nil in HX. }
  simpl. apply elem_of_cons in HX as [<-|HX].
  - rewrite <- HfX. simpl. f_equal. f_equal.
    clear IH. induction l as [|m l IHl]; simpl; [done|].
    apply not_elem_of_cons in Hn as [Hne Hn]. inversion_clear Hnd.
    rewrite Hoth; [|right; left|done]. f_equal. apply IHl; auto.
    intros k Hk ?. apply Hoth; [|done].
    apply elem_of_cons in Hk as [->|Hk]; [left|right; by right].
  - rewrite Hoth; [|left|intros ->; done].
    rewrite <- IH; [lia|done| |done].
    intros k Hk ?. apply Hoth; [by right|done].
Qed.

(** ** Invariants of the reveal loop *)

Lemma ranks_current_bijective sys :
  NoDup (team_order sys) → ranks_current sys → ranks_bijective sys.
Proof.
  intros Hnd Hcur.
  apply (positions_bijective sys (sort_by (rank_lt false (teams sys)) (team_order sys))).
  { apply sort_by_perm. }
  intros i n Hi. rewrite Hcur.
  - unfold rank_of.
    rewrite <- (filter_length_perm _ _ _ (sort_by_perm (rank_lt false (teams sys)) _)).
    rewrite (sorted_position (rank_lt false (teams sys)) _ i n); [done|..|done].
    + intros. apply rank_lt_irrefl.
    + intros y z _ _. apply rank_lt_asym.
    + by apply sort_by_rank_sorted.
  - rewrite <- (sort_by_perm (rank_lt false (teams sys))). by eapply list_elem_of_lookup_2.
Qed.

Lemma frozen_in_problem_set_payload sys sys' :
  payload <$> teams sys = payload <$> teams sys' →
  team_order sys' = team_order sys → problem_names sys' = problem_names sys →
  frozen_in_problem_set sys → frozen_in_problem_set sys'.
Proof.
  intros Hp Ho Hn Hinv n p. rewrite Ho, Hn. intros Hin Hfr. apply (Hinv n p Hin).
  unfold frozen_at, status_of, team_of in *.
  by rewrite (payload_eq_problems _ _ n Hp).
Qed.

Lemma ranks_current_core sys sys' :
  core <$> teams sys = core <$> teams sys' →
  team_order sys' = team_order sys →
  ranks_current sys → ranks_current sys'.
Proof.
  intros Hc Ho Hcur n. rewrite Ho. intros Hn. unfold team_of.
  rewrite <- (core_eq_ranking _ _ n Hc).
  rewrite <- (rank_of_payload (teams sys)) by (by apply core_payload_eq).
  by apply Hcur.
Qed.

Lemma payload_insert_is_Some (ts ts' : gmap string Team) X v n :
  payload <$> ts' = <[X := v]> (payload <$> ts) →
  is_Some (ts !! n) → is_Some (ts' !! n).
Proof.
  intros Hp [t Ht]. apply (f_equal (λ m, m !! n)) in Hp.
  rewrite lookup_insert, !lookup_fmap, Ht in Hp.
  destruct (ts' !! n); [eauto|]. by case_decide.
Qed.

(** One pass of the loop that does not break. *)
Lemma scroll_iteration_step sys out sys' :
  registry_ok sys → frozen_in_problem_set sys →
  scroll_iteration sys = (Continue out, sys') →
  registry_ok sys' ∧ frozen_in_problem_set sys' ∧ ranks_current sys'
  ∧ team_order sys' = team_order sys
  ∧ problem_names sys' = problem_names sys
  ∧ is_frozen sys' = is_frozen sys
  ∧ competition_started sys' = competition_started sys
  ∧ S (frozen_total sys') = frozen_total sys
  ∧ one_flag_cleared sys sys'.
Proof.
  intros Hok Hinv Hit.
  destruct (decide (lowest_team sys = "")) as [HX|HX].
  { destruct (scroll_iteration_break sys Hok HX) as (? & Hb & _). congruence. }
  destruct (scroll_iteration_continue sys Hok HX)
    as (out' & sys'' & Hit' & HXin & HXfr & Ho & Hn & Hf & Hc & Hpay & Hcur & _).
  rewrite Hit in Hit'. injection Hit' as <- <-.
  set (X := lowest_team sys) in *. set (t := team_of sys X) in *.
  destruct (next_problem_frozen sys t HXfr) as [Hupin Hupfr].
  { intros p Hp. by apply (Hinv X p). }
  destruct (revealed_problems sys t) as [Hup Hothers].
  set (up := next_problem sys t) in *.
  assert (problems (team_of sys' X) = problems (revealed sys t)) as HpX.
  { apply payload_insert_eq in Hpay. by apply (f_equal problems) in Hpay. }
  assert (∀ n, n ≠ X → problems (team_of sys' n) = problems (team_of sys n)) as Hpn.
  { intros n Hne. apply (payload_insert_ne _ _ _ _ n) in Hpay; [|done].
    by apply (f_equal problems) in Hpay. }
  destruct Hok as [Hnd Hreg]. split_and!; try done.
  - split; rewrite Ho; [done|].
    eapply Forall_impl; [exact Hreg|]. intros n Hsome. simpl.
    by eapply payload_insert_is_Some.
  - intros n p. rewrite Ho, Hn. intros Hin Hfr. apply (Hinv n p Hin).
    unfold frozen_at, status_of in *.
    destruct (decide (n = X)) as [->|Hne]; [|by rewrite <- Hpn].
    rewrite HpX in Hfr. destruct (decide (p = up)) as [->|Hpne]; [congruence|].
    by rewrite <- Hothers.
  - intros n. rewrite Ho. apply Hcur.
  - unfold frozen_total. rewrite Ho.
    apply (sum_list_with_one_less _ _ _ X); [done..| |].
    + intros n _ Hne. by rewrite Hpn.
    + rewrite HpX. by apply frozen_count_revealed.
  - exists X, up. unfold frozen_at, status_of. split_and!; [done|by rewrite HpX|].
    intros n' p' Hne. destruct (decide (n' = X)) as [->|HnX]; [|by rewrite Hpn].
    rewrite HpX. rewrite Hothers; [done|]. congruence.
Qed.

Lemma scroll_iteration_stop sys sys' :
  registry_ok sys → frozen_in_problem_set sys →
  scroll_iteration sys = (Break, sys') →
  registry_ok sys' ∧ frozen_in_problem_set sys'
  ∧ core <$> teams sys' = core <$> teams sys
  ∧ team_order sys' = team_order sys
  ∧ problem_names sys' = problem_names sys
  ∧ is_frozen sys' = is_frozen sys
  ∧ competition_started sys' = competition_started sys.
Proof.
  intros Hok Hinv Hit.
  destruct (decide (lowest_team sys = "")) as [HX|HX].
  2:{ destruct (scroll_iteration_continue sys Hok HX) as (? & ? & Hc & _). congruence. }
  destruct (scroll_iteration_break sys Hok HX) as (sys'' & Hb & Hc & Ho & Hn & Hf & Hs).
  rewrite Hit in Hb. injection Hb as <-. split_and!; try done.
  - by apply (registry_ok_fmap core sys).
  - apply (frozen_in_problem_set_payload sys); [|done..].
    symmetry. by apply core_payload_eq.
Qed.

(** The loop keeps the invariants, whenever it ends. *)
Lemma scroll_loop_inv fuel sys out sys' :
  scroll_loop fuel sys = Some (out, sys') →
  registry_ok sys → frozen_in_problem_set sys →
  registry_ok sys' ∧ frozen_in_problem_set sys'
  ∧ team_order sys' = team_order sys
  ∧ problem_names sys' = problem_names sys
  ∧ is_frozen sys' = is_frozen sys
  ∧ competition_started sys' = competition_started sys.
Proof.
  revert sys out sys'. induction fuel as [|fuel IH]; intros sys out sys' Hloop Hok Hinv;
    [done|]. simpl in Hloop.
  destruct (scroll_iteration sys) as [[|line] sys1] eqn:Hit.
  - injection Hloop as <- <-.
    destruct (scroll_iteration_stop sys sys1 Hok Hinv Hit)
      as (? & ? & ? & ? & ? & ? & ?). by split_and!.
  - destruct (scroll_iteration_step sys line sys1 Hok Hinv Hit)
      as (Hok1 & Hinv1 & _ & Ho & Hn & Hf & Hs & _).
    destruct (scroll_loop fuel sys1) as [[out1 sys2]|] eqn:Hrest; [|done].
    injection Hloop as <- <-.
    destruct (IH sys1 out1 sys2 Hrest Hok1 Hinv1) as (? & ? & Ho2 & Hn2 & Hf2 & Hs2).
    split_and!; [done|done|congruence..].
Qed.

(** The loop ends: each pass that does not break clears one of finitely many
    frozen flags. *)
Lemma scroll_loop_terminates k sys :
  registry_ok sys → frozen_in_problem_set sys → (frozen_total sys ≤ k)%nat →
  ∃ out sys', scroll_loop (S k) sys = Some (out, sys').
Proof.
  revert sys. induction k as [|k IH]; intros sys Hok Hinv Hk; simpl.
  - destruct (scroll_iteration sys) as [[|line] sys1] eqn:Hit; [eauto|].
    destruct (scroll_iteration_step sys line sys1 Hok Hinv Hit)
      as (_ & _ & _ & _ & _ & _ & _ & Hdec & _). lia.
  - destruct (scroll_iteration sys) as [[|line] sys1] eqn:Hit; [eauto|].
    destruct (scroll_iteration_step sys line sys1 Hok Hinv Hit)
      as (Hok1 & Hinv1 & _ & _ & _ & _ & _ & Hdec & _).
    destruct (IH sys1 Hok1 Hinv1) as (out & sys' & Hloop); [lia|].
    simpl in Hloop. rewrite Hloop. eauto.
Qed.

Lemma scroll_loop_more_fuel k k' sys r :
  scroll_loop k sys = Some r → (k ≤ k')%nat → scroll_loop k' sys = Some r.
Proof.
  revert k' sys r. induction k as [|k IH]; intros k' sys r Hloop Hk; [done|].
  destruct k' as [|k']; [lia|]. simpl in *.
  destruct (scroll_iteration sys) as [[|line] sys1]; [done|].
  destruct (scroll_loop k sys1) as [[out1 sys2]|] eqn:Hrest; [|done].
  rewrite (IH k' sys1 _ Hrest); [done|lia].
Qed.

(** ** Reachable states *)

Lemma flush_scoreboard_inv sys :
  registry_ok sys → frozen_in_problem_set sys →
  registry_ok (flush_scoreboard sys) ∧ frozen_in_problem_set (flush_scoreboard sys)
  ∧ ranks_current (flush_scoreboard sys).
Proof.
  intros Hok Hinv.
  pose proof (flush_scoreboard_payload sys Hok) as Hpay.
  destruct (flush_scoreboard_fields sys) as (Ho & Hn & _).
  split_and!.
  - by apply (registry_ok_fmap payload sys).
  - by apply (frozen_in_problem_set_payload sys).
  - intros n. rewrite Ho. intros Hin. rewrite flush_scoreboard_ranking by done.
    by apply rank_of_payload.
Qed.

Lemma print_scoreboard_inv sys :
  registry_ok sys → frozen_in_problem_set sys →
  registry_ok (print_scoreboard sys).2 ∧ frozen_in_problem_set (print_scoreboard sys).2.
Proof.
  intros Hok Hinv.
  pose proof (print_scoreboard_core sys Hok) as Hc.
  destruct (print_scoreboard_fields sys) as (Ho & Hn & _). split.
  - by apply (registry_ok_fmap core sys).
  - apply (frozen_in_problem_set_payload sys); [|done..].
    symmetry. by apply core_payload_eq.
Qed.

Lemma scroll_entry_inv sys :
  registry_ok sys → frozen_in_problem_set sys →
  registry_ok (scroll_entry sys).2 ∧ frozen_in_problem_set (scroll_entry sys).2
  ∧ ranks_current (scroll_entry sys).2
  ∧ team_order (scroll_entry sys).2 = team_order sys
  ∧ problem_names (scroll_entry sys).2 = problem_names sys
  ∧ is_frozen (scroll_entry sys).2 = is_frozen sys.
Proof.
  intros Hok Hinv. unfold scroll_entry.
  destruct (flush_scoreboard_inv sys Hok Hinv) as (Hok1 & Hinv1 & Hcur1).
  destruct (print_scoreboard_inv _ Hok1 Hinv1) as (Hok2 & Hinv2).
  destruct (flush_scoreboard_fields sys) as (Ho & Hn & Hf & _).
  destruct (print_scoreboard_fields (flush_scoreboard sys)) as (Ho2 & Hn2 & Hf2 & _).
  split_and!; try done; try congruence.
  apply (ranks_current_core (flush_scoreboard sys)); [|done..].
  symmetry. by apply print_scoreboard_core.
Qed.

Lemma in_scroll_inv sys0 sys :
  registry_ok sys0 → frozen_in_problem_set sys0 → in_scroll sys0 sys →
  registry_ok sys ∧ frozen_in_problem_set sys ∧ ranks_current sys
  ∧ team_order sys = team_order sys0.
Proof.
  intros Hok Hinv. induction 1 as [|sys out sys' _ IH Hit].
  - destruct (scroll_entry_inv sys0 Hok Hinv) as (? & ? & ? & ? & _). done.
  - destruct IH as (Hok1 & Hinv1 & _ & Ho).
    destruct (scroll_iteration_step sys out sys' Hok1 Hinv1 Hit)
      as (? & ? & ? & Ho' & _). split_and!; [done..|congruence].
Qed.

(** Resetting the counters of submissions made while frozen. *)
Lemma reset_status (ts : gmap string Team) n p :
  let ps := problems (ts !!! n) !!! p in
  let ps' := problems ((reset_team <$> ts) !!! n) !!! p in
  frozen ps' = frozen ps ∧ submissions_after_freeze ps' = 0%Z.
Proof.
  simpl. rewrite lookup_total_fmap, (lookup_total_alt ts).
  destruct (ts !! n) as [t|]; simpl; [|done].
  rewrite lookup_total_fmap, (lookup_total_alt (problems t)).
  by destruct (problems t !! p).
Qed.

Lemma scroll_inv fuel sys out sys' :
  scroll fuel sys = Some (out, sys') →
  registry_ok sys → frozen_in_problem_set sys →
  registry_ok sys' ∧ frozen_in_problem_set sys'.
Proof.
  unfold scroll. intros Hscroll Hok Hinv.
  destruct (is_frozen sys); simpl in Hscroll; [|by injection Hscroll as <- <-].
  destruct (scroll_entry_inv sys Hok Hinv) as (Hok1 & Hinv1 & _ & Ho1 & Hn1 & _).
  destruct (scroll_entry sys) as [out1 sys1]. simpl in *.
  destruct (scroll_loop fuel sys1) as [[out2 sys2]|] eqn:Hloop; [|done].
  destruct (scroll_loop_inv fuel sys1 out2 sys2 Hloop Hok1 Hinv1)
    as (Hok2 & Hinv2 & Ho2 & Hn2 & _).
  destruct (print_scoreboard_inv sys2 Hok2 Hinv2) as (Hok3 & Hinv3).
  destruct (print_scoreboard_fields sys2) as (Ho3 & Hn3 & _).
  destruct (print_scoreboard sys2) as [out3 sys3]. simpl in *.
  injection Hscroll as <- <-. split.
  - destruct Hok3 as [Hnd Hreg]. split; simpl; [done|].
    eapply Forall_impl; [exact Hreg|]. intros n Hn. simpl.
    rewrite lookup_fmap. destruct Hn as [t ->]. eauto.
  - intros n p. simpl. intros Hin Hfr. apply (Hinv3 n p Hin).
    unfold frozen_at, status_of, team_of in *. simpl in Hfr.
    by destruct (reset_status (teams sys3) n p) as [<- _].
Qed.

Lemma add_team_inv n sys :
  registry_ok sys → frozen_in_problem_set sys →
  registry_ok (add_team n sys).2 ∧ frozen_in_problem_set (add_team n sys).2.
Proof.
  intros [Hnd Hreg] Hinv. unfold add_team.
  destruct (competition_started sys); [done|].
  case_bool_decide as Hex; [done|]. simpl.
  assert (teams sys !! n = None) as Hnone.
  { destruct (teams sys !! n) eqn:E; [|done]. destruct Hex. eauto. }
  assert (n ∉ team_order sys) as Hnotin.
  { intros Hin. rewrite Forall_forall in Hreg.
    destruct (Hreg n Hin) as [? ?]. congruence. }
  split.
  - split; simpl.
    + apply NoDup_app. split_and!; [done| |apply NoDup_singleton].
      intros m Hm ->%list_elem_of_singleton. done.
    + apply Forall_app. split.
      * eapply Forall_impl; [exact Hreg|]. intros m Hm. simpl.
        rewrite lookup_insert. case_decide; eauto.
      * constructor; [|constructor]. rewrite lookup_insert_eq. eauto.
  - intros m p. simpl. intros Hin Hfr.
    unfold frozen_at, status_of, team_of in Hfr. simpl in Hfr.
    destruct (decide (m = n)) as [->|Hne].
    + by rewrite lookup_total_insert_eq in Hfr.
    + rewrite lookup_total_insert_ne in Hfr by done.
      apply (Hinv m p); [|done].
      apply elem_of_app in Hin as [?|Hin%list_elem_of_singleton]; done.
Qed.

Lemma start_competition_inv d k sys :
  registry_ok sys → frozen_in_problem_set sys →
  registry_ok (start_competition d k sys).2
  ∧ frozen_in_problem_set (start_competition d k sys).2.
Proof.
  intros [Hnd Hreg] Hinv. unfold start_competition.
  destruct (competition_started sys); [done|]. simpl.
  assert (payload <$> assign_rankings (sort_by String.ltb (team_order sys)) 0 (teams sys)
          = payload <$> teams sys) as Hpay.
  { apply assign_rankings_payload. by rewrite sort_by_perm. }
  split.
  - split; simpl; [done|].
    eapply Forall_impl; [exact Hreg|]. intros n Hn. simpl.
    by apply (fmap_eq_is_Some payload (teams sys)).
  - intros n p. simpl. intros Hin Hfr. apply elem_of_app. left.
    apply (Hinv n p Hin). unfold frozen_at, status_of, team_of in *. simpl in Hfr.
    by rewrite <- (payload_eq_problems _ _ n Hpay).
Qed.

Lemma submit_inv p n st t sys :
  n ∈ team_order sys → p ∈ problem_names sys →
  registry_ok sys → frozen_in_problem_set sys →
  registry_ok (submit p n st t sys) ∧ frozen_in_problem_set (submit p n st t sys).
Proof.
  intros Hn Hp [Hnd Hreg] Hinv. split.
  - split; simpl; [done|].
    eapply Forall_impl; [exact Hreg|]. intros m Hm. simpl.
    rewrite lookup_insert. case_decide; [eauto|]. by apply touch_is_Some.
  - intros m q. simpl. intros Hin Hfr.
    destruct (decide (m = n ∧ q = p)) as [[-> ->]|Hne]; [done|].
    apply (Hinv m q Hin). rewrite <- Hfr.
    unfold frozen_at, status_of, team_of, submit. simpl.
    destruct (decide (m = n)) as [->|Hmn].
    + rewrite lookup_total_insert_eq. simpl.
      rewrite lookup_total_insert_ne by (intros ->; by apply Hne).
      by rewrite !touch_lookup_total.
    + by rewrite lookup_total_insert_ne, touch_lookup_total.
Qed.

Lemma reachable_inv sys :
  reachable sys → registry_ok sys ∧ frozen_in_problem_set sys.
Proof.
  induction 1 as [|sys c fuel out sys' _ [Hok Hinv] Hvalid Hex].
  { split; [split; simpl; constructor|]. intros n p Hn. by apply elem_of_nil in Hn. }
  destruct c; simpl in Hex; try by apply (scroll_inv fuel sys out sys').
  all: apply (f_equal (fmap snd)) in Hex; simpl in Hex; injection Hex as <-.
  - by apply add_team_inv.
  - by apply start_competition_inv.
  - destruct Hvalid. by apply submit_inv.
  - destruct (flush_scoreboard_inv sys Hok Hinv) as (? & ? & _). done.
  - unfold freeze. by destruct (is_frozen sys).
  - done.
  - done.
  - done.
Qed.

(** ** Running command sequences *)

Lemma valid_commandb_valid sys c : valid_commandb sys c = true → valid_command sys c.
Proof.
  destruct c; simpl; try done.
  intros [H1 H2]%andb_prop. split; by eapply bool_decide_eq_true_1.
Qed.

Lemma run_reachable fuel cs sys out sys' :
  reachable sys → valid_run fuel cs sys = true →
  run fuel cs sys = Some (out, sys') → reachable sys'.
Proof.
  revert sys out. induction cs as [|c cs IH]; intros sys out Hr Hv Hrun; simpl in *.
  { by injection Hrun as _ <-. }
  apply andb_prop in Hv as [Hc Hv].
  destruct (execute fuel c sys) as [[o1 sys1]|] eqn:Hex; [|done].
  assert (reachable sys1) as Hr1.
  { eapply reachable_step; [done| |done]. by apply valid_commandb_valid. }
  destruct (decide (c = END)) as [->|Hne].
  { by injection Hrun as _ <-. }
  assert (match run fuel cs sys1 with
          | Some (out', sys2) => Some (o1 +:+ out', sys2)
          | None => None
          end = Some (out, sys')) as Hrun' by (by destruct c).
  destruct (run fuel cs sys1) as [[o2 sys2]|] eqn:Hrest; [|done].
  injection Hrun' as _ <-. by apply (IH sys1 o2).
Qed.

Lemma two_teams_frozen_reachable : reachable two_teams_frozen.
Proof.
  eapply (run_reachable 0
    [ADDTEAM "a"; ADDTEAM "b"; START 300 2; FREEZE; SUBMIT "A" "b" "Accepted" 20]
    ICPCSystem_new _ two_teams_frozen reachable_new).
  - vm_compute. reflexivity.
  - vm_compute. reflexivity.
Defined.

(** ** The claims on ranking passes and on the scroll *)

(** C3.  In every reachable state, the ranking pass [flush_scoreboard]
    leaves in the rank fields of the registered teams a bijection onto
    [1..N], [N] being the number of registered teams; the same holds at every
    head of the loop of a scroll, that is after the ranking pass that opens
    the scroll and after the one that ends each iteration. *)
Theorem ranking_pass_bijection (sys : ICPCSystem) :
  reachable sys →
  ranks_bijective (flush_scoreboard sys)
  ∧ ∀ s, in_scroll sys s → ranks_bijective s.
Proof.
  intros Hr. destruct (reachable_inv sys Hr) as [Hok Hinv]. split.
  - apply flush_scoreboard_bijective. by destruct Hok.
  - intros s Hs. destruct (in_scroll_inv sys s Hok Hinv Hs) as ([Hnd _] & _ & Hcur & _).
    by apply ranks_current_bijective.
Qed.

Lemma ranking_pass_bijection_witness :
  ranks_bijective (flush_scoreboard two_teams_frozen)
  ∧ ranks_bijective (scroll_entry two_teams_frozen).2.
Proof.
  destruct (ranking_pass_bijection two_teams_frozen two_teams_frozen_reachable)
    as [H1 H2].
  split; [exact H1|]. apply H2. constructor.
Defined.

(** C4, as stated, fails: when the reveal lets team [b] overtake team [a],
    the rank of [a] goes from 1 to 2. *)
Lemma overtaken_team_rank_worsens :
  ¬ (∀ sys0 s out s' n,
       reachable sys0 → is_frozen sys0 = true → in_scroll sys0 s →
       scroll_iteration s = (Continue out, s') → n ∈ team_order s →
       (ranking (team_of s' n) ≤ ranking (team_of s n))%Z).
Proof.
  intros Hall.
  specialize (Hall two_teams_frozen (scroll_entry two_teams_frozen).2
    ("b a 1 20" +:+ nl)
    (scroll_iteration (scroll_entry two_teams_frozen).2).2 "a"
    two_teams_frozen_reachable eq_refl (in_scroll_entry _)).
  assert (ranking (team_of (scroll_iteration (scroll_entry two_teams_frozen).2).2 "a") = 2%Z)
    as E2 by (by vm_compute).
  assert (ranking (team_of (scroll_entry two_teams_frozen).2 "a") = 1%Z)
    as E1 by (by vm_compute).
  rewrite E1, E2 in Hall.
  assert (2 ≤ 1)%Z; [|lia]. apply Hall.
  - by vm_compute.
  - vm_compute. constructor.
Qed.

(** C4, amended.  In every iteration of the reveal loop of a scroll, the rank
    of the team whose problem is revealed does not become numerically
    larger; the rank of every other team stays as it is or becomes larger by
    one. *)
Theorem revealed_team_rank_not_worse (sys0 s : ICPCSystem) (out : string)
    (s' : ICPCSystem) :
  reachable sys0 → is_frozen sys0 = true → in_scroll sys0 s →
  scroll_iteration s = (Continue out, s') →
  let X := lowest_team s in
  (ranking (team_of s' X) ≤ ranking (team_of s X))%Z
  ∧ ∀ n, n ∈ team_order s → n ≠ X →
      (ranking (team_of s n) ≤ ranking (team_of s' n) ≤ ranking (team_of s n) + 1)%Z.
Proof.
  intros Hr _ Hs Hit. destruct (reachable_inv sys0 Hr) as [Hok0 Hinv0].
  destruct (in_scroll_inv sys0 s Hok0 Hinv0 Hs) as (Hok & Hinv & Hcur & _).
  destruct (decide (lowest_team s = "")) as [HX|HX].
  { destruct (scroll_iteration_break s Hok HX) as (? & Hb & _). congruence. }
  destruct (scroll_iteration_continue s Hok HX)
    as (out' & s'' & Hit' & HXin & HXfr & Ho & _ & _ & _ & Hpay & Hcur' & _).
  rewrite Hit in Hit'. injection Hit' as <- <-.
  simpl. set (X := lowest_team s) in *.
  destruct (next_problem_frozen s (team_of s X) HXfr) as [_ Hupfr].
  { intros p Hp. by apply (Hinv X p). }
  assert (problems (teams s' !!! X) = problems (revealed s (teams s !!! X))) as HpX.
  { apply payload_insert_eq in Hpay. by apply (f_equal problems) in Hpay. }
  assert (∀ m, m ≠ X → problems (teams s' !!! m) = problems (teams s !!! m)) as Hpm.
  { intros m Hne. apply (payload_insert_ne _ _ _ _ m) in Hpay; [|done].
    by apply (f_equal problems) in Hpay. }
  destruct Hok as [Hnd _]. split.
  - rewrite Hcur', Hcur by done. unfold rank_of.
    assert (length (List.filter (λ m, rank_lt false (teams s') m X) (team_order s))
            ≤ length (List.filter (λ m, rank_lt false (teams s) m X) (team_order s)))%nat;
      [|lia].
    apply filter_length_le. intros m _.
    apply (rank_lt_revealed s); [done..|]. apply Hpm.
  - intros n Hn Hne. rewrite Hcur', Hcur by done. unfold rank_of.
    assert (length (List.filter (λ m, rank_lt false (teams s) m n) (team_order s))
            ≤ length (List.filter (λ m, rank_lt false (teams s') m n) (team_order s)))%nat.
    { apply filter_length_le. intros m _.
      destruct (decide (m = X)) as [->|HmX].
      - apply (rank_lt_revealed_ahead s); [done..|]. intros _. by apply Hpm.
      - rewrite (rank_lt_same_problems false (teams s) (teams s')); [done|..];
          by apply Hpm. }
    assert (length (List.filter (λ m, rank_lt false (teams s') m n) (team_order s))
            ≤ S (length (List.filter (λ m, rank_lt false (teams s) m n) (team_order s))))%nat.
    { apply (filter_length_le_succ _ _ _ X); [done|]. intros m _ HmX.
      rewrite (rank_lt_same_problems false (teams s) (teams s')); [done|..];
        by apply Hpm. }
    lia.
Qed.

Lemma revealed_team_rank_not_worse_witness :
  let s := (scroll_entry two_teams_frozen).2 in
  (ranking (team_of (scroll_iteration s).2 (lowest_team s))
   ≤ ranking (team_of s (lowest_team s)))%Z.
Proof.
  intros s.
  destruct (revealed_team_rank_not_worse two_teams_frozen s
              ("b a 1 20" +:+ nl)
              (scroll_iteration s).2) as [Hrank _].
  - exact two_teams_frozen_reachable.
  - reflexivity.
  - constructor.
  - vm_compute. reflexivity.
  - exact Hrank.
Defined.

Lemma append_nonempty (a b : string) : a ≠ "" → a +:+ b ≠ "".
Proof. by destruct a. Qed.

(** C5.  In an iteration of the reveal loop, [old_rank] and [new_rank] of the
    revealed team are its ranks in the ranking passes before and after the
    reveal.  Nothing is printed unless the rank decreased; when it did, the
    line printed carries the team's name, the name of the one other team
    that held the new rank before the reveal, and the team's solved count
    and penalty time recomputed with frozen problems excluded. *)
Theorem scroll_notification (sys0 s : ICPCSystem) (out : string) (s' : ICPCSystem) :
  reachable sys0 → is_frozen sys0 = true → in_scroll sys0 s →
  scroll_iteration s = (Continue out, s') →
  let X := lowest_team s in
  let old_rank := ranking (team_of s X) in
  let new_rank := ranking (team_of s' X) in
  old_rank = rank_of (teams s) (team_order s) X
  ∧ new_rank = rank_of (teams s') (team_order s') X
  ∧ (¬ (new_rank < old_rank)%Z → out = "")
  ∧ ((new_rank < old_rank)%Z →
     out ≠ ""
     ∧ ∃ R, R ∈ team_order s ∧ R ≠ X ∧ ranking (team_of s R) = new_rank
         ∧ (∀ R', R' ∈ team_order s → ranking (team_of s R') = new_rank → R' = R)
         ∧ out = notification X R (calculate_team_stats (team_of s' X) false)).
Proof.
  intros Hr _ Hs Hit. destruct (reachable_inv sys0 Hr) as [Hok0 Hinv0].
  destruct (in_scroll_inv sys0 s Hok0 Hinv0 Hs) as (Hok & Hinv & Hcur & _).
  destruct (decide (lowest_team s = "")) as [HX|HX].
  { destruct (scroll_iteration_break s Hok HX) as (? & Hb & _). congruence. }
  destruct (scroll_iteration_step s out s' Hok Hinv Hit) as ([Hnd' _] & _ & Hcurs' & Ho' & _).
  destruct (scroll_iteration_continue s Hok HX)
    as (out' & s'' & Hit' & HXin & HXfr & Ho & _ & _ & _ & Hpay & Hcur' & R & Hout & HR).
  rewrite Hit in Hit'. injection Hit' as <- <-.
  simpl. set (X := lowest_team s) in *.
  destruct Hok as [Hnd Hreg].
  destruct (ranks_current_bijective s Hnd Hcur) as (_ & Hinj & Hsurj).
  destruct (ranks_current_bijective s' Hnd' Hcurs') as (Hbound' & _ & _).
  split_and!.
  - by apply Hcur.
  - rewrite Ho. by apply Hcur'.
  - intros Hnlt. apply Z.ltb_nlt in Hnlt. by rewrite Hnlt in Hout.
  - intros Hlt. pose proof Hlt as Hltb. apply Z.ltb_lt in Hltb. rewrite Hltb in Hout.
    split.
    { rewrite Hout. unfold notification. by apply append_nonempty. }
    destruct (Hsurj (ranking (team_of s' X))) as (r & Hrin & Hrr).
    { specialize (Hbound' X). rewrite Ho in Hbound'. specialize (Hbound' HXin).
      destruct (ranks_current_bijective s Hnd Hcur) as (Hbound & _ & _).
      specialize (Hbound X HXin). lia. }
    destruct HR as (HRin & HRne & HRr); [done| |].
    { exists r. split_and!; [done| |done]. intros ->. lia. }
    exists R. split_and!; try done.
    intros R' HR'in HR'r. apply Hinj; [done..|congruence].
Qed.

Lemma scroll_notification_witness :
  let s := (scroll_entry two_teams_frozen).2 in
  ∃ R, R ∈ team_order s ∧ R ≠ lowest_team s
    ∧ "b a 1 20" +:+ nl =
      notification (lowest_team s) R
        (calculate_team_stats (team_of (scroll_iteration s).2 (lowest_team s)) false).
Proof.
  intros s.
  destruct (scroll_notification two_teams_frozen s
              ("b a 1 20" +:+ nl)
              (scroll_iteration s).2)
    as (_ & _ & _ & Hlt).
  - exact two_teams_frozen_reachable.
  - reflexivity.
  - constructor.
  - vm_compute. reflexivity.
  - destruct Hlt as (_ & R & HRin & HRne & _ & _ & Hout); [by vm_compute|].
    exists R. by split_and!.
Defined.

(** C7.  From every reachable state in freeze mode [scroll] terminates: with
    enough fuel it returns a state in which freeze mode is off and every
    counter of submissions made while frozen is zero.  Every pass of its
    loop that does not break clears exactly one frozen flag and changes no
    other flag, so the number of frozen flags of the registered teams drops
    by one with each pass. *)
Theorem scroll_terminates (sys : ICPCSystem) :
  reachable sys → is_frozen sys = true →
  ∃ fuel out sys',
    (∀ k, (fuel ≤ k)%nat → scroll k sys = Some (out, sys'))
    ∧ is_frozen sys' = false
    ∧ (∀ n p, submissions_after_freeze (status_of sys' n p) = 0%Z)
    ∧ (∀ s o s', in_scroll sys s → scroll_iteration s = (Continue o, s') →
         one_flag_cleared s s' ∧ S (frozen_total s') = frozen_total s).
Proof.
  intros Hr Hfr. destruct (reachable_inv sys Hr) as [Hok Hinv].
  destruct (scroll_entry_inv sys Hok Hinv) as (Hok1 & Hinv1 & _).
  destruct (scroll_entry sys) as [out1 sys1] eqn:Hentry. simpl in *.
  destruct (scroll_loop_terminates (frozen_total sys1) sys1 Hok1 Hinv1 (le_n _))
    as (out2 & sys2 & Hloop).
  destruct (print_scoreboard sys2) as [out3 sys3] eqn:Hprint.
  eexists (S (frozen_total sys1)), _, _. split_and!.
  - intros k Hk. unfold scroll. rewrite Hfr, Hentry. simpl.
    rewrite (scroll_loop_more_fuel _ k _ _ Hloop Hk), Hprint. done.
  - done.
  - intros n p. unfold status_of, team_of. simpl.
    by destruct (reset_status (teams sys3) n p) as [_ ->].
  - intros s o s' Hs Hit.
    destruct (in_scroll_inv sys s Hok Hinv Hs) as (Hoks & Hinvs & _).
    destruct (scroll_iteration_step s o s' Hoks Hinvs Hit)
      as (_ & _ & _ & _ & _ & _ & _ & Hdec & Hone). done.
Qed.

Lemma scroll_terminates_witness :
  ∃ fuel out sys',
    scroll fuel two_teams_frozen = Some (out, sys') ∧ is_frozen sys' = false.
Proof.
  destruct (scroll_terminates two_teams_frozen two_teams_frozen_reachable eq_refl)
    as (fuel & out & sys' & Hrun & Hoff & _).
  exists fuel, out, sys'. split; [by apply Hrun|done].
Defined.

(** ** Frozen problems are unsolved *)

Lemma frozen_unsolved_payload sys sys' :
  payload <$> teams sys = payload <$> teams sys' →
  team_order sys' = team_order sys → is_frozen sys' = is_frozen sys →
  frozen_unsolved sys → frozen_unsolved sys'.
Proof.
  intros Hp Ho Hf HJ n p. rewrite Ho, Hf.
  unfold frozen_at, status_of, team_of in *.
  rewrite <- (payload_eq_problems _ _ n Hp). apply HJ.
Qed.

Lemma add_team_frozen_unsolved n sys :
  frozen_unsolved sys → frozen_unsolved (add_team n sys).2.
Proof.
  intros HJ. unfold add_team.
  destruct (competition_started sys); [done|].
  case_bool_decide; [done|]. simpl.
  intros m p. simpl. intros Hin.
  unfold frozen_at, status_of, team_of. simpl.
  destruct (decide (m = n)) as [->|Hne].
  - by rewrite lookup_total_insert_eq.
  - rewrite lookup_total_insert_ne by done. apply HJ.
    apply elem_of_app in Hin as [?|Hin%list_elem_of_singleton]; done.
Qed.

Lemma start_competition_frozen_unsolved d k sys :
  registry_ok sys → frozen_unsolved sys →
  frozen_unsolved (start_competition d k sys).2.
Proof.
  intros [Hnd Hreg] HJ. unfold start_competition.
  destruct (competition_started sys); [done|]. simpl.
  apply (frozen_unsolved_payload sys); [|done..]. simpl. symmetry.
  apply assign_rankings_payload. by rewrite sort_by_perm.
Qed.

Lemma submit_frozen_unsolved p n st t sys :
  n ∈ team_order sys → frozen_unsolved sys → frozen_unsolved (submit p n st t sys).
Proof.
  intros Hn HJ m q Hin. specialize (HJ m q Hin). revert HJ.
  unfold frozen_at, status_of, team_of, submit. simpl.
  destruct (decide (m = n)) as [->|Hmn].
  2:{ by rewrite lookup_total_insert_ne, touch_lookup_total. }
  rewrite lookup_total_insert_eq. simpl.
  destruct (decide (q = p)) as [->|Hqp].
  2:{ by rewrite lookup_total_insert_ne, !touch_lookup_total. }
  rewrite lookup_total_insert_eq, !touch_lookup_total.
  set (ps := problems (teams sys !!! n) !!! p).
  destruct (is_frozen sys), (solved ps) eqn:Hs; simpl; try done.
  all: try (destruct (String.eqb st "Accepted"); simpl).
  all: intros HJ Hfr; by destruct (HJ Hfr).
Qed.

Lemma freeze_frozen_unsolved sys :
  frozen_unsolved sys → frozen_unsolved (freeze sys).2.
Proof.
  intros HJ. unfold freeze. destruct (is_frozen sys) eqn:Hf; [done|].
  intros n p Hin Hfr. destruct (HJ n p Hin Hfr). congruence.
Qed.

Lemma scroll_iteration_frozen_unsolved sys out sys' :
  registry_ok sys → frozen_in_problem_set sys → frozen_unsolved sys →
  scroll_iteration sys = (Continue out, sys') → frozen_unsolved sys'.
Proof.
  intros Hok Hinv HJ Hit.
  destruct (decide (lowest_team sys = "")) as [HX|HX].
  { destruct (scroll_iteration_break sys Hok HX) as (? & Hb & _). congruence. }
  destruct (scroll_iteration_continue sys Hok HX)
    as (out' & sys'' & Hit' & HXin & HXfr & Ho & Hn & Hf & Hc & Hpay & _).
  rewrite Hit in Hit'. injection Hit' as <- <-.
  set (X := lowest_team sys) in *.
  destruct (revealed_problems sys (team_of sys X)) as [Hup Hothers].
  intros n p. rewrite Ho, Hf. intros Hin.
  specialize (HJ n p Hin). revert HJ. unfold frozen_at, status_of, team_of in *.
  destruct (decide (n = X)) as [->|Hne].
  - apply payload_insert_eq in Hpay. apply (f_equal problems) in Hpay.
    simpl in Hpay. rewrite Hpay.
    destruct (decide (p = next_problem sys (teams sys !!! X))) as [->|Hpne].
    + intros _ Hfr. congruence.
    + by rewrite Hothers.
  - apply (payload_insert_ne _ _ _ _ n) in Hpay; [|done].
    apply (f_equal problems) in Hpay. simpl in Hpay. by rewrite Hpay.
Qed.

(** When no registered team has the empty name, the search for the lowest
    team with a frozen problem fails only if there is no frozen problem. *)
Lemma find_lowest_team_none sorted k ts :
  Forall (λ n, is_Some (ts !! n)) sorted → (k ≤ length sorted)%nat →
  "" ∉ sorted → (find_lowest_team sorted k ts).1 = "" →
  ∀ i, (i < k)%nat → has_frozen (ts !!! nth i sorted "") = false.
Proof.
  intros Hreg Hk Hne. induction k as [|k IH]; intros Hres i Hi; [lia|].
  simpl in Hres. rewrite Forall_forall in Hreg.
  rewrite touch_present in Hres by (apply Hreg, nth_elem_of; lia).
  destruct (has_frozen (ts !!! nth k sorted "")) eqn:E; simpl in Hres.
  - destruct Hne. rewrite <- Hres. apply nth_elem_of. lia.
  - destruct (decide (i = k)) as [->|]; [done|]. apply IH; [lia|done|lia].
Qed.

Lemma lowest_team_none sys :
  registry_ok sys → "" ∉ team_order sys → lowest_team sys = "" → no_frozen sys.
Proof.
  intros [Hnd Hreg] Hne HX n p Hin. unfold lowest_team in HX.
  destruct (std_sort_by_rank (teams sys) (team_order sys) Hreg) as [Hsorted Hcore].
  pose proof (std_sort_perm by_rank (team_order sys) (teams sys)) as Hperm.
  destruct (std_sort by_rank (team_order sys) (teams sys)) as [sorted ts1].
  simpl in Hsorted, Hcore, Hperm.
  assert (Forall (λ n, is_Some (ts1 !! n)) sorted) as Hreg1.
  { rewrite Hperm. eapply Forall_impl; [exact Hreg|].
    intros m Hm. simpl. by eapply fmap_eq_is_Some. }
  assert (n ∈ sorted) as Hin' by (by rewrite Hperm).
  apply list_elem_of_lookup_1 in Hin' as [i Hi].
  assert ("" ∉ sorted) as Hne' by (by rewrite Hperm).
  pose proof (find_lowest_team_none sorted (length sorted) ts1 Hreg1 (le_n _)
                Hne' HX i (lookup_lt_Some _ _ _ Hi)) as Hnone.
  rewrite (nth_lookup_Some _ _ _ _ Hi) in Hnone.
  rewrite (has_frozen_problems _ (teams sys !!! n)) in Hnone
    by (by apply core_eq_problems).
  apply not_true_is_false. intros Hfr. unfold frozen_at, status_of, team_of in Hfr.
  assert (has_frozen (teams sys !!! n) = true); [|congruence].
  apply has_frozen_exists. eauto.
Qed.

Lemma scroll_loop_no_frozen fuel sys out sys' :
  scroll_loop fuel sys = Some (out, sys') →
  registry_ok sys → frozen_in_problem_set sys → "" ∉ team_order sys →
  no_frozen sys'.
Proof.
  revert sys out sys'. induction fuel as [|fuel IH];
    intros sys out sys' Hloop Hok Hinv Hne; [done|]. simpl in Hloop.
  destruct (scroll_iteration sys) as [[|line] sys1] eqn:Hit.
  - injection Hloop as <- <-.
    destruct (decide (lowest_team sys = "")) as [HX|HX].
    2:{ destruct (scroll_iteration_continue sys Hok HX) as (? & ? & Hc & _). congruence. }
    destruct (scroll_iteration_stop sys sys1 Hok Hinv Hit) as (_ & _ & Hc & Ho & _).
    intros n p. rewrite Ho. intros Hin.
    rewrite <- (lowest_team_none sys Hok Hne HX n p Hin).
    unfold frozen_at, status_of, team_of. by rewrite (core_eq_problems _ _ n Hc).
  - destruct (scroll_iteration_step sys line sys1 Hok Hinv Hit)
      as (Hok1 & Hinv1 & _ & Ho & _).
    destruct (scroll_loop fuel sys1) as [[out1 sys2]|] eqn:Hrest; [|done].
    injection Hloop as <- <-. apply (IH sys1 out1); [done..|by rewrite Ho].
Qed.

Lemma scroll_team_order fuel sys out sys' :
  scroll fuel sys = Some (out, sys') → registry_ok sys → frozen_in_problem_set sys →
  team_order sys' = team_order sys.
Proof.
  unfold scroll. intros Hscroll Hok Hinv.
  destruct (is_frozen sys); simpl in Hscroll; [|by injection Hscroll as <- <-].
  destruct (scroll_entry_inv sys Hok Hinv) as (Hok1 & Hinv1 & _ & Ho1 & _).
  destruct (scroll_entry sys) as [out1 sys1]. simpl in *.
  destruct (scroll_loop fuel sys1) as [[out2 sys2]|] eqn:Hloop; [|done].
  destruct (scroll_loop_inv fuel sys1 out2 sys2 Hloop Hok1 Hinv1) as (_ & _ & Ho2 & _).
  destruct (print_scoreboard_fields sys2) as (Ho3 & _).
  destruct (print_scoreboard sys2) as [out3 sys3]. simpl in *.
  injection Hscroll as <- <-. simpl. congruence.
Qed.

Lemma scroll_frozen_unsolved fuel sys out sys' :
  scroll fuel sys = Some (out, sys') →
  registry_ok sys → frozen_in_problem_set sys → "" ∉ team_order sys →
  frozen_unsolved sys → frozen_unsolved sys'.
Proof.
  unfold scroll. intros Hscroll Hok Hinv Hne HJ.
  destruct (is_frozen sys); simpl in Hscroll; [|by injection Hscroll as <- <-].
  destruct (scroll_entry_inv sys Hok Hinv) as (Hok1 & Hinv1 & _ & Ho1 & _).
  destruct (scroll_entry sys) as [out1 sys1]. simpl in *.
  destruct (scroll_loop fuel sys1) as [[out2 sys2]|] eqn:Hloop; [|done].
  assert (no_frozen sys2) as Hnone.
  { apply (scroll_loop_no_frozen fuel sys1 out2); [done..|by rewrite Ho1]. }
  destruct (scroll_loop_inv fuel sys1 out2 sys2 Hloop Hok1 Hinv1) as (Hok2 & _).
  pose proof (print_scoreboard_core sys2 Hok2) as Hc3.
  destruct (print_scoreboard_fields sys2) as (Ho3 & _).
  destruct (print_scoreboard sys2) as [out3 sys3]. simpl in *.
  injection Hscroll as <- <-. intros n p. simpl. intros Hin Hfr. exfalso.
  rewrite Ho3 in Hin. specialize (Hnone n p Hin).
  unfold frozen_at, status_of, team_of in *. simpl in Hfr.
  destruct (reset_status (teams sys3) n p) as [Hsame _]. simpl in Hsame.
  rewrite Hsame, (core_eq_problems _ _ n Hc3) in Hfr. congruence.
Qed.

Lemma execute_team_order fuel c sys out sys' n :
  reachable sys → execute fuel c sys = Some (out, sys') →
  n ∈ team_order sys → n ∈ team_order sys'.
Proof.
  intros Hr Hex Hin. destruct (reachable_inv sys Hr) as [Hok Hinv].
  destruct c; simpl in Hex;
    try (by rewrite (scroll_team_order fuel sys out sys' Hex Hok Hinv)).
  all: apply (f_equal (fmap snd)) in Hex; simpl in Hex; injection Hex as <-; try done.
  - unfold add_team. destruct (competition_started sys); [done|].
    case_bool_decide; [done|]. simpl. apply elem_of_app. by left.
  - unfold start_competition. by destruct (competition_started sys).
  - by destruct (flush_scoreboard_fields sys) as [-> _].
  - unfold freeze. by destruct (is_frozen sys).
Qed.

Lemma reachable_frozen_unsolved sys :
  reachable sys → "" ∉ team_order sys → frozen_unsolved sys.
Proof.
  induction 1 as [|sys c fuel out sys' Hr IH Hvalid Hex]; intros Hne.
  { intros n p Hn. by apply elem_of_nil in Hn. }
  assert ("" ∉ team_order sys) as Hne0.
  { intros Hin. apply Hne. by eapply execute_team_order. }
  specialize (IH Hne0). destruct (reachable_inv sys Hr) as [Hok Hinv].
  destruct c; simpl in Hex;
    try (by apply (scroll_frozen_unsolved fuel sys out sys')).
  all: apply (f_equal (fmap snd)) in Hex; simpl in Hex; injection Hex as <-; try done.
  - by apply add_team_frozen_unsolved.
  - by apply start_competition_frozen_unsolved.
  - destruct Hvalid. by apply submit_frozen_unsolved.
  - destruct (flush_scoreboard_fields sys) as (Ho & _ & Hf & _).
    apply (frozen_unsolved_payload sys); [|done..].
    symmetry. by apply flush_scoreboard_payload.
  - by apply freeze_frozen_unsolved.
Qed.

Lemma in_scroll_frozen_unsolved sys0 sys :
  registry_ok sys0 → frozen_in_problem_set sys0 → frozen_unsolved sys0 →
  in_scroll sys0 sys → frozen_unsolved sys.
Proof.
  intros Hok Hinv HJ. induction 1 as [|sys out sys' Hs IH Hit].
  - unfold scroll_entry.
    destruct (flush_scoreboard_inv sys0 Hok Hinv) as (Hok1 & _).
    destruct (flush_scoreboard_fields sys0) as (Ho & _ & Hf & _).
    destruct (print_scoreboard_fields (flush_scoreboard sys0)) as (Ho2 & _ & Hf2 & _).
    apply (frozen_unsolved_payload sys0); [|congruence..|done].
    rewrite <- (flush_scoreboard_payload sys0 Hok).
    symmetry. apply core_payload_eq. by apply print_scoreboard_core.
  - destruct (in_scroll_inv sys0 sys Hok Hinv Hs) as (Hok1 & Hinv1 & _).
    by apply (scroll_iteration_frozen_unsolved sys out sys').
Qed.

Lemma two_teams_frozen_names : "" ∉ team_order two_teams_frozen.
Proof.
  change (team_order two_teams_frozen) with ["a"; "b"].
  intros [?|[?|?%elem_of_nil]%elem_of_cons]%elem_of_cons; done.
Defined.

(** The reveal in terms of the flag [before_freeze].  In an iteration of the
    reveal loop of a scroll, started in a reachable state whose registered
    teams have non-empty names, the status [ps] that is revealed is frozen,
    and the reveal replays the submissions of the team to that problem that
    carry the flag, in the order of the history.  If a first Accepted one
    exists, after the non-accepted ones [pre], the problem becomes solved at
    its time with wrong-attempt count the pre-freeze count plus the length
    of [pre]; if none exists the problem stays unsolved and its pre-freeze
    wrong-attempt counter grows by the number of flagged submissions.  The
    frozen flag is cleared in both cases. *)
Lemma scroll_reveals_flagged_submissions (sys0 s : ICPCSystem) (out : string)
    (s' : ICPCSystem) :
  reachable sys0 → "" ∉ team_order sys0 → is_frozen sys0 = true →
  in_scroll sys0 s → scroll_iteration s = (Continue out, s') →
  let X := lowest_team s in
  let p := next_problem s (team_of s X) in
  let ps := status_of s X p in
  let ps' := status_of s' X p in
  let window := frozen_window p (submissions (team_of s X)) in
  frozen ps = true
  ∧ (∀ pre acc post,
       window = (pre ++ acc :: post)%list →
       Forall (λ sub, accepted sub = false) pre → accepted acc = true →
       solved ps' = true ∧ solve_time ps' = time acc
       ∧ wrong_attempts_before_first_success ps' =
         wrap_int (wrong_attempts_before_freeze ps + Z.of_nat (length pre)))
  ∧ (Forall (λ sub, accepted sub = false) window →
     solved ps' = false
     ∧ wrong_attempts_before_freeze ps' =
       wrap_int (wrong_attempts_before_freeze ps + Z.of_nat (length window)))
  ∧ frozen ps' = false.
Proof.
  intros Hr Hne _ Hs Hit. destruct (reachable_inv sys0 Hr) as [Hok0 Hinv0].
  pose proof (reachable_frozen_unsolved sys0 Hr Hne) as HJ0.
  destruct (in_scroll_inv sys0 s Hok0 Hinv0 Hs) as (Hok & Hinv & _ & _).
  pose proof (in_scroll_frozen_unsolved sys0 s Hok0 Hinv0 HJ0 Hs) as HJ.
  destruct (decide (lowest_team s = "")) as [HX|HX].
  { destruct (scroll_iteration_break s Hok HX) as (? & Hb & _). congruence. }
  destruct (scroll_iteration_continue s Hok HX)
    as (out' & s'' & Hit' & HXin & HXfr & _ & _ & _ & _ & Hpay & _).
  rewrite Hit in Hit'. injection Hit' as <- <-.
  simpl. set (X := lowest_team s) in *. set (t := team_of s X) in *.
  destruct (next_problem_frozen s t HXfr) as [_ Hupfr].
  { intros p Hp. by apply (Hinv X p). }
  destruct (HJ X (next_problem s t) HXin Hupfr) as [_ Hunsolved].
  apply payload_insert_eq in Hpay. apply (f_equal problems) in Hpay.
  simpl in Hpay.
  assert (status_of s' X (next_problem s t) =
          problems (revealed s t) !!! next_problem s t) as ->.
  { unfold status_of, team_of. by rewrite Hpay. }
  change (status_of s X (next_problem s t)) with (problems t !!! next_problem s t)
    in Hunsolved |- *.
  unfold revealed, next_problem in *.
  pose proof (find_unfreeze_problem_lookup_total (problem_names s) (problems t)) as Hl.
  destruct (find_unfreeze_problem (problem_names s) (problems t)) as [up pm].
  simpl in *. rewrite <- (Hl up) in Hupfr, Hunsolved |- *.
  assert (pm !! up = Some (pm !!! up)) as Hsome.
  { rewrite lookup_total_alt in *. destruct (pm !! up); [done|]. done. }
  destruct (reveal_status up (set_problems pm t) (pm !!! up) Hsome Hupfr Hunsolved)
    as (Hacc & Hrej & Hfr).
  by split_and!.
Qed.

Example scroll_reveals_flagged_submissions_example :
  let s := (scroll_entry two_teams_frozen).2 in
  let s' := (scroll_iteration s).2 in
  let X := lowest_team s in
  let p := next_problem s (team_of s X) in
  solved (status_of s' X p) = true
  ∧ solve_time (status_of s' X p) = 20%Z
  ∧ wrong_attempts_before_first_success (status_of s' X p) = 0%Z
  ∧ frozen (status_of s' X p) = false.
Proof.
  intros s s' X p.
  destruct (scroll_reveals_flagged_submissions two_teams_frozen s
              ("b a 1 20" +:+ nl) s')
    as (_ & Hacc & _ & Hfr).
  - exact two_teams_frozen_reachable.
  - exact two_teams_frozen_names.
  - reflexivity.
  - constructor.
  - vm_compute. reflexivity.
  - destruct (Hacc [] (mkSubmission "A" "Accepted" 20 false) [])
      as (H1 & H2 & H3); [by vm_compute|constructor|reflexivity|].
    split_and!; [exact H1|exact H2|exact H3|exact Hfr].
Defined.

(** ** The registry holds the registered teams only *)

Lemma registry_exact_fmap {B} (f : Team → B) sys sys' :
  f <$> teams sys = f <$> teams sys' → team_order sys' = team_order sys →
  registry_exact sys → registry_exact sys'.
Proof.
  intros Hf Ho Hex n Hn. rewrite Ho. apply Hex.
  by apply (fmap_eq_is_Some f (teams sys')).
Qed.

Lemma scroll_iteration_registry_exact sys step sys' :
  registry_ok sys → scroll_iteration sys = (step, sys') →
  registry_exact sys → registry_exact sys'.
Proof.
  intros Hok Hit Hex.
  destruct (decide (lowest_team sys = "")) as [HX|HX].
  - destruct (scroll_iteration_break sys Hok HX) as (sys'' & Hb & Hc & Ho & _).
    rewrite Hit in Hb. injection Hb as _ <-.
    by apply (registry_exact_fmap core sys).
  - destruct (scroll_iteration_continue sys Hok HX)
      as (out' & sys'' & Hit' & HXin & _ & Ho & _ & _ & _ & Hpay & _).
    rewrite Hit in Hit'. injection Hit' as _ <-.
    intros n [t Ht]. rewrite Ho.
    destruct (decide (n = lowest_team sys)) as [->|Hne]; [done|].
    apply Hex. apply (f_equal (λ m, m !! n)) in Hpay.
    rewrite lookup_insert_ne, !lookup_fmap, Ht in Hpay by done.
    destruct (teams sys !! n); [eauto|done].
Qed.

Lemma scroll_loop_registry_exact fuel sys out sys' :
  scroll_loop fuel sys = Some (out, sys') →
  registry_ok sys → frozen_in_problem_set sys →
  registry_exact sys → registry_exact sys'.
Proof.
  revert sys out sys'. induction fuel as [|fuel IH];
    intros sys out sys' Hloop Hok Hinv Hex; [done|]. simpl in Hloop.
  destruct (scroll_iteration sys) as [[|line] sys1] eqn:Hit.
  - injection Hloop as <- <-. by apply (scroll_iteration_registry_exact sys Break).
  - destruct (scroll_iteration_step sys line sys1 Hok Hinv Hit) as (Hok1 & Hinv1 & _).
    destruct (scroll_loop fuel sys1) as [[out1 sys2]|] eqn:Hrest; [|done].
    injection Hloop as <- <-. apply (IH sys1 out1); [done..|].
    by apply (scroll_iteration_registry_exact sys (Continue line)).
Qed.

Lemma scroll_registry_exact fuel sys out sys' :
  scroll fuel sys = Some (out, sys') →
  registry_ok sys → frozen_in_problem_set sys →
  registry_exact sys → registry_exact sys'.
Proof.
  unfold scroll. intros Hscroll Hok Hinv Hex.
  destruct (is_frozen sys); simpl in Hscroll; [|by injection Hscroll as <- <-].
  destruct (scroll_entry_inv sys Hok Hinv) as (Hok1 & Hinv1 & _ & Ho1 & _).
  assert (registry_exact (scroll_entry sys).2) as Hex1.
  { unfold scroll_entry.
    destruct (flush_scoreboard_inv sys Hok Hinv) as (Hokf & _).
    destruct (flush_scoreboard_fields sys) as (Ho & _).
    destruct (print_scoreboard_fields (flush_scoreboard sys)) as (Ho2 & _).
    apply (registry_exact_fmap core (flush_scoreboard sys)); [|done|].
    - symmetry. by apply print_scoreboard_core.
    - apply (registry_exact_fmap payload sys); [|done..].
      symmetry. by apply flush_scoreboard_payload. }
  destruct (scroll_entry sys) as [out1 sys1]. simpl in *.
  destruct (scroll_loop fuel sys1) as [[out2 sys2]|] eqn:Hloop; [|done].
  pose proof (scroll_loop_registry_exact fuel sys1 out2 sys2 Hloop Hok1 Hinv1 Hex1) as Hex2.
  destruct (scroll_loop_inv fuel sys1 out2 sys2 Hloop Hok1 Hinv1) as (Hok2 & _).
  pose proof (print_scoreboard_core sys2 Hok2) as Hc3.
  destruct (print_scoreboard_fields sys2) as (Ho3 & _).
  destruct (print_scoreboard sys2) as [out3 sys3]. simpl in *.
  injection Hscroll as <- <-. intros n. simpl. rewrite lookup_fmap.
  intros [t Ht]. rewrite Ho3. apply Hex2.
  apply (fmap_eq_is_Some core (teams sys3)); [done|].
  destruct (teams sys3 !! n); [eauto|done].
Qed.

(** In a reachable state the registry holds exactly the registered teams. *)
Lemma reachable_registry sys n :
  reachable sys → is_Some (teams sys !! n) ↔ n ∈ team_order sys.
Proof.
  intros Hr. split.
  2:{ destruct (reachable_inv sys Hr) as [[_ Hreg] _].
      rewrite Forall_forall in Hreg. apply Hreg. }
  revert n. change (registry_exact sys).
  induction Hr as [|sys c fuel out sys' Hr IH Hvalid Hex].
  { intros n [t Ht]. unfold ICPCSystem_new in Ht. cbn [teams] in Ht.
    by rewrite lookup_empty in Ht. }
  destruct (reachable_inv sys Hr) as [Hok Hinv].
  destruct c; simpl in Hex;
    try (by apply (scroll_registry_exact fuel sys out sys')).
  all: apply (f_equal (fmap snd)) in Hex; simpl in Hex; injection Hex as <-; try done.
  - unfold add_team. destruct (competition_started sys); [done|].
    case_bool_decide; [done|]. simpl. intros n. simpl.
    rewrite lookup_insert. case_decide as Hn; subst.
    + intros _. apply elem_of_app. right. by left.
    + intros Hs. apply elem_of_app. left. by apply IH.
  - unfold start_competition. destruct (competition_started sys); [done|].
    apply (registry_exact_fmap payload sys); [|done..]. simpl. symmetry.
    destruct Hok as [_ Hreg]. apply assign_rankings_payload. by rewrite sort_by_perm.
  - destruct Hvalid as [Hteam _]. intros n. simpl.
    rewrite lookup_insert. case_decide as Hn; subst; [done|].
    destruct (decide (team_name = n)) as [->|Hne]; [done|].
    rewrite touch_lookup_ne by done. apply IH.
  - destruct (flush_scoreboard_fields sys) as (Ho & _).
    apply (registry_exact_fmap payload sys); [|done..].
    symmetry. by apply flush_scoreboard_payload.
  - unfold freeze. by destruct (is_frozen sys).
Qed.

(** ** A submission outside the problem set

    What the validity of the commands rules out: with a problem outside the
    problem set frozen, the reveal loop finds no problem to reveal for the
    team it picks, and picks the same team again. *)

Lemma scroll_loop_stuck sys out :
  scroll_iteration sys = (Continue out, sys) → ∀ fuel, scroll_loop fuel sys = None.
Proof.
  intros Hit fuel. induction fuel as [|fuel IH]; simpl; [done|].
  by rewrite Hit, IH.
Qed.

Remark scroll_unknown_problem_diverges :
  ∀ fuel, scroll fuel unknown_problem_frozen = None.
Proof.
  intros fuel. unfold scroll.
  change (is_frozen unknown_problem_frozen) with true. simpl negb.
  cbv iota.
  destruct (scroll_entry unknown_problem_frozen) as [out1 sys1] eqn:Hentry.
  assert (sys1 = (scroll_entry unknown_problem_frozen).2) as -> by (by rewrite Hentry).
  destruct fuel as [|fuel]; [done|]. simpl.
  destruct (scroll_iteration (scroll_entry unknown_problem_frozen).2)
    as [step sys2] eqn:Hit.
  assert (step = Continue "") as -> by (by apply (f_equal fst) in Hit; vm_compute in Hit).
  assert (sys2 = (scroll_iteration (scroll_entry unknown_problem_frozen).2).2) as ->
    by (by rewrite Hit).
  rewrite (scroll_loop_stuck _ ""); [done|]. vm_compute. reflexivity.
Qed.

(** ** A second freeze *)

(** C2 fails on the code in a second freeze.  After [first_freeze] problem A
    of team [a] is unsolved with one wrong attempt, which was made during
    the first freeze, revealed by the first scroll and added by it to the
    pre-freeze counter.  During the second freeze the team submits one
    Accepted solution and nothing else, so the reveal should solve the
    problem with wrong-attempt count [1 + 0].  The replay loop goes through
    the whole history and takes every submission flagged as made while
    frozen, the one of the first freeze included: the count it stores is 2,
    and the scoreboard shows a penalty time of 60 and the cell [+2]. *)
Theorem second_freeze_replays_first_window :
  ∃ out1 sys1 out2 sys2,
    run 2 first_freeze ICPCSystem_new = Some (out1, sys1)
    ∧ valid_run 2 (first_freeze ++ second_freeze) ICPCSystem_new = true
    ∧ is_frozen sys1 = true
    ∧ solved (status_of sys1 "a" "A") = false
    ∧ wrong_attempts_before_freeze (status_of sys1 "a" "A") = 1%Z
    ∧ submissions (team_of sys1 "a") = [mkSubmission "A" "Wrong_Answer" 10 false]
    ∧ run 2 second_freeze sys1 = Some (out2, sys2)
    ∧ submissions (team_of sys2 "a") =
        [mkSubmission "A" "Wrong_Answer" 10 false; mkSubmission "A" "Accepted" 20 false]
    ∧ solved (status_of sys2 "a" "A") = true
    ∧ solve_time (status_of sys2 "a" "A") = 20%Z
    ∧ wrong_attempts_before_first_success (status_of sys2 "a" "A") = 2%Z
    ∧ out2 = "[Info]Scroll scoreboard." +:+ nl +:+ "a 1 0 0 -1/1" +:+ nl
               +:+ "a 1 1 60 +2" +:+ nl.
Proof.
  destruct (run 2 first_freeze ICPCSystem_new) as [[out1 sys1]|] eqn:E1;
    [|by vm_compute in E1].
  destruct (run 2 second_freeze sys1) as [[out2 sys2]|] eqn:E2.
  2:{ apply (f_equal (λ r, snd <$> r)) in E1. vm_compute in E1.
      injection E1 as <-. by vm_compute in E2. }
  exists out1, sys1, out2, sys2.
  apply (f_equal (λ r, snd <$> r)) in E1. vm_compute in E1. injection E1 as <-.
  vm_compute in E2. injection E2 as <- <-.
  split_and!; by vm_compute.
Qed.

(** * Further properties of the operations *)

(** ** Sorting by a strict total order *)

Section strict_sort.
Context `{EqDecision A} (lt : A → A → bool).
Hypothesis lt_irrefl : ∀ x, lt x x = false.
Hypothesis lt_trans : ∀ x y z, lt x y = true → lt y z = true → lt x z = true.
Hypothesis lt_total : ∀ x y, x ≠ y → lt x y = true ∨ lt y x = true.

Lemma strict_asym x y : lt x y = true → lt y x = false.
Proof.
  intros Hxy. apply not_true_is_false. intros Hyx.
  pose proof (lt_trans _ _ _ Hxy Hyx) as Hxx. by rewrite lt_irrefl in Hxx.
Qed.

Lemma strict_ngt_trans x y z : ngt lt x y → ngt lt y z → ngt lt x z.
Proof.
  unfold ngt. intros Hyx Hzy.
  destruct (decide (x = y)) as [->|Hxy]; [done|].
  destruct (decide (y = z)) as [->|Hyz]; [done|].
  destruct (lt_total x y Hxy) as [H1|H1]; [|congruence].
  destruct (lt_total y z Hyz) as [H2|H2]; [|congruence].
  apply strict_asym. by apply (lt_trans x y z).
Qed.

Lemma sort_by_strict_sorted l :
  NoDup l → StronglySorted (λ a b, lt a b = true) (sort_by lt l).
Proof.
  intros Hnd.
  assert (NoDup (sort_by lt l)) as Hnd' by (by rewrite sort_by_perm).
  assert (StronglySorted (ngt lt) (sort_by lt l)) as Hs.
  { apply (sort_by_sorted _ (λ _, True)).
    - intros x y z _ _ _. apply strict_ngt_trans.
    - intros x y _ _. apply strict_asym.
    - by apply Forall_forall. }
  induction Hs as [|x r Hs IH Hx]; constructor.
  - apply IH. by inversion Hnd'.
  - inversion_clear Hnd' as [|?? Hnotin _].
    rewrite Forall_forall in *. intros y Hy.
    destruct (lt_total x y) as [?|Hlt]; [congruence|done|].
    specialize (Hx y Hy). unfold ngt in Hx. congruence.
Qed.

(** The index of an element in the sorted list is the number of elements
    of the list before it in the order. *)
Lemma sort_by_position l i x :
  NoDup l → sort_by lt l !! i = Some x →
  length (List.filter (λ y, lt y x) l) = i.
Proof.
  intros Hnd Hi.
  rewrite <- (filter_length_perm _ _ _ (sort_by_perm lt l)).
  apply (sorted_position lt); [..|done].
  - intros. apply lt_irrefl.
  - intros y z _ _. apply strict_asym.
  - by apply sort_by_strict_sorted.
Qed.
End strict_sort.

Lemma string_ltb_irrefl a : String.ltb a a = false.
Proof.
  apply not_true_is_false. rewrite string_ltb_lt. apply string_lt_irrefl.
Qed.

Lemma string_ltb_trans a b c :
  String.ltb a b = true → String.ltb b c = true → String.ltb a c = true.
Proof. rewrite !string_ltb_lt. apply String_as_OT.lt_trans. Qed.

Lemma string_ltb_total a b :
  a ≠ b → String.ltb a b = true ∨ String.ltb b a = true.
Proof. rewrite !string_ltb_lt. apply string_lt_total. Qed.

(** ** Registration and start *)

(** X1.  Registering a name a second time always fails and leaves the state
    as the first call left it: with the duplicate-name message before the
    start, with the competition-has-started message after it. *)
Theorem add_team_twice (n : string) (sys : ICPCSystem) :
  add_team n (add_team n sys).2 =
  ((if competition_started sys
    then "[Error]Add failed: competition has started."
    else "[Error]Add failed: duplicated team name.") +:+ nl,
   (add_team n sys).2).
Proof.
  destruct (competition_started sys) eqn:Hst.
  { unfold add_team. rewrite Hst. simpl. by rewrite Hst. }
  destruct (decide (is_Some (teams sys !! n))) as [Hex|Hex].
  - assert (add_team n sys =
            ("[Error]Add failed: duplicated team name." +:+ nl, sys)) as E.
    { unfold add_team. by rewrite Hst, bool_decide_eq_true_2. }
    rewrite E. simpl. exact E.
  - pose proof (eq_refl (add_team n sys)) as E. unfold add_team at 2 in E.
    rewrite Hst, bool_decide_eq_false_2 in E by done.
    rewrite E. unfold add_team. simpl.
    rewrite bool_decide_eq_true_2; [done|].
    rewrite lookup_insert_eq. eauto.
Qed.

(** X2.  Once [start_competition] has been called, whether it succeeded or
    not, every registration and every further start fails and changes
    nothing. *)
Theorem registration_closed_after_start (d k d' k' : Z) (n : string)
    (sys : ICPCSystem) :
  let started := (start_competition d k sys).2 in
  add_team n started =
    ("[Error]Add failed: competition has started." +:+ nl, started)
  ∧ start_competition d' k' started =
    ("[Error]Start failed: competition has started." +:+ nl, started).
Proof.
  simpl.
  assert (competition_started (start_competition d k sys).2 = true) as Hst.
  { unfold start_competition. by destruct (competition_started sys) eqn:E. }
  split.
  - unfold add_team at 1. by rewrite Hst.
  - unfold start_competition at 1. by rewrite Hst.
Qed.

(** X3.  The first start ranks the registered teams by name: the rank of a
    team is one more than the number of registered names that are
    lexicographically smaller than its own. *)
Theorem start_competition_initial_ranks (d k : Z) (sys : ICPCSystem) (n : string) :
  reachable sys → competition_started sys = false → n ∈ team_order sys →
  ranking (team_of (start_competition d k sys).2 n) =
  (Z.of_nat (length (List.filter (λ m, String.ltb m n) (team_order sys))) + 1)%Z.
Proof.
  intros Hr Hst Hn. destruct (reachable_inv sys Hr) as [[Hnd _] _].
  unfold start_competition, team_of. rewrite Hst. simpl.
  set (sorted := sort_by String.ltb (team_order sys)).
  assert (sorted ≡ₚ team_order sys) as Hperm by apply sort_by_perm.
  assert (NoDup sorted) as Hnd' by (by rewrite Hperm).
  assert (n ∈ sorted) as Hin by (by rewrite Hperm).
  apply list_elem_of_lookup_1 in Hin as [i Hi].
  rewrite (lookup_total_correct _ _ _
             (assign_rankings_at sorted 0 (teams sys) i n Hnd' Hi)).
  simpl. do 2 f_equal. symmetry.
  apply (sort_by_position String.ltb);
    [apply string_ltb_irrefl|apply string_ltb_trans|apply string_ltb_total
    |done|done].
Qed.

Lemma two_teams_registered_reachable : reachable two_teams_registered.
Proof.
  eapply (run_reachable 0 [ADDTEAM "b"; ADDTEAM "a"]
            ICPCSystem_new _ two_teams_registered reachable_new).
  - vm_compute. reflexivity.
  - vm_compute. reflexivity.
Defined.

Lemma start_competition_initial_ranks_witness :
  ranking (team_of (start_competition 300 3 two_teams_registered).2 "b") = 2%Z.
Proof.
  rewrite (start_competition_initial_ranks 300 3 two_teams_registered "b").
  - reflexivity.
  - exact two_teams_registered_reachable.
  - reflexivity.
  - vm_compute. left.
Defined.

(** ** What the commands keep of the contest *)

Lemma scroll_fields fuel sys out sys' :
  scroll fuel sys = Some (out, sys') →
  registry_ok sys → frozen_in_problem_set sys →
  same_contest sys sys' ∧ (is_frozen sys = true → is_frozen sys' = false).
Proof.
  unfold scroll. intros Hscroll Hok Hinv.
  destruct (is_frozen sys) eqn:Hfr; simpl in Hscroll;
    [|by injection Hscroll as <- <-].
  destruct (scroll_entry_inv sys Hok Hinv) as (Hok1 & Hinv1 & _ & Ho1 & Hn1 & _).
  assert (competition_started (scroll_entry sys).2 = competition_started sys)
    as Hs1.
  { unfold scroll_entry.
    destruct (print_scoreboard_fields (flush_scoreboard sys)) as (_ & _ & _ & ->).
    by destruct (flush_scoreboard_fields sys) as (_ & _ & _ & ->). }
  destruct (scroll_entry sys) as [out1 sys1]. simpl in *.
  destruct (scroll_loop fuel sys1) as [[out2 sys2]|] eqn:Hloop; [|done].
  destruct (scroll_loop_inv fuel sys1 out2 sys2 Hloop Hok1 Hinv1)
    as (_ & _ & Ho2 & Hn2 & _ & Hs2).
  destruct (print_scoreboard_fields sys2) as (Ho3 & Hn3 & _ & Hs3).
  destruct (print_scoreboard sys2) as [out3 sys3]. simpl in *.
  injection Hscroll as <- <-. unfold same_contest. simpl.
  split_and!; congruence.
Qed.

Lemma execute_same_contest fuel c sys out sys' :
  reachable sys → competition_started sys = true →
  execute fuel c sys = Some (out, sys') → same_contest sys sys'.
Proof.
  intros Hr Hst Hex. destruct (reachable_inv sys Hr) as [Hok Hinv].
  destruct c as [tn|d k|pr tn st0 t0| | | |tn|tn qp qs|]; simpl in Hex;
    try by apply (scroll_fields fuel sys out sys' Hex Hok Hinv).
  all: apply (f_equal (fmap snd)) in Hex; simpl in Hex; injection Hex as <-.
  - unfold add_team. by rewrite Hst.
  - unfold start_competition. by rewrite Hst.
  - done.
  - destruct (flush_scoreboard_fields sys) as (? & ? & _ & ?). done.
  - unfold freeze. by destruct (is_frozen sys).
  - done.
  - done.
  - done.
Qed.

Lemma reachable_not_started sys :
  reachable sys → competition_started sys = false → problem_names sys = [].
Proof.
  induction 1 as [|sys c fuel out sys' Hr IH Hvalid Hex]; [done|].
  destruct (reachable_inv sys Hr) as [Hok Hinv]. intros Hst'.
  destruct c as [tn|d k|pr tn st0 t0| | | |tn|tn qp qs|]; simpl in Hex.
  6: { destruct (scroll_fields fuel sys out sys' Hex Hok Hinv)
         as [(_ & Hn & Hs) _]. rewrite Hn. apply IH. congruence. }
  all: apply (f_equal (fmap snd)) in Hex; simpl in Hex; injection Hex as <-.
  - unfold add_team in *.
    destruct (competition_started sys) eqn:E; [simpl in *; congruence|].
    case_bool_decide; simpl in *; auto.
  - unfold start_competition in *.
    destruct (competition_started sys) eqn:E; simpl in *; congruence.
  - auto.
  - destruct (flush_scoreboard_fields sys) as (_ & Hn & _ & Hs).
    rewrite Hn. apply IH. congruence.
  - unfold freeze in *. destruct (is_frozen sys); simpl in *; auto.
  - auto.
  - auto.
  - auto.
Qed.

Lemma problem_letters n :
  (n ≤ 26)%nat → map problem_letter (seq 0 n) = take n alphabet.
Proof.
  intros Hn.
  change alphabet with (map problem_letter (seq 0 26)).
  change (map problem_letter) with (fmap (M:=list) problem_letter).
  rewrite <- fmap_take, take_seq. do 2 f_equal. lia.
Qed.

(** X4.  The first start of a contest with at most 26 problems names the
    problems by the first capital letters, in order, and makes them the whole
    problem set. *)
Theorem start_competition_problem_set (d k : Z) (sys : ICPCSystem) :
  reachable sys → competition_started sys = false → (k ≤ 26)%Z →
  problem_names (start_competition d k sys).2 = take (Z.to_nat k) alphabet.
Proof.
  intros Hr Hst Hk. unfold start_competition. rewrite Hst. simpl.
  rewrite (reachable_not_started sys Hr Hst). simpl.
  apply problem_letters. lia.
Qed.

Lemma start_competition_problem_set_witness :
  problem_names (start_competition 300 3 two_teams_registered).2 = ["A"; "B"; "C"].
Proof.
  rewrite (start_competition_problem_set 300 3 two_teams_registered).
  - reflexivity.
  - exact two_teams_registered_reachable.
  - reflexivity.
  - lia.
Defined.

(** ** Command sequences *)

Section run_invariant.
Variable P : ICPCSystem → ICPCSystem → Prop.
Hypothesis P_refl : ∀ sys, P sys sys.
Hypothesis P_trans : ∀ s1 s2 s3, P s1 s2 → P s2 s3 → P s1 s3.
Hypothesis P_step : ∀ fuel c sys out sys',
  reachable sys → valid_command sys c →
  execute fuel c sys = Some (out, sys') → P sys sys'.

Lemma run_invariant fuel cs sys out sys' :
  reachable sys → valid_run fuel cs sys = true →
  run fuel cs sys = Some (out, sys') → P sys sys'.
Proof.
  revert sys out. induction cs as [|c cs IH]; intros sys out Hr Hv Hrun;
    simpl in *.
  { injection Hrun as _ <-. apply P_refl. }
  apply andb_prop in Hv as [Hc%valid_commandb_valid Hv].
  destruct (execute fuel c sys) as [[o1 sys1]|] eqn:Hex; [|done].
  pose proof (P_step fuel c sys o1 sys1 Hr Hc Hex) as Hstep.
  destruct (decide (c = END)) as [->|Hne].
  { by injection Hrun as _ <-. }
  assert (match run fuel cs sys1 with
          | Some (out', sys2) => Some (o1 +:+ out', sys2)
          | None => None
          end = Some (out, sys')) as Hrun' by (by destruct c).
  destruct (run fuel cs sys1) as [[o2 sys2]|] eqn:Hrest; [|done].
  injection Hrun' as _ <-.
  apply (P_trans _ sys1); [done|]. apply (IH sys1 o2); [|done..].
  by eapply reachable_step.
Qed.
End run_invariant.

(** X5.  Once the contest has started, no sequence of valid commands changes
    the list of registered teams, the problem set or the started flag. *)
Theorem contest_fixed_after_start (fuel : nat) (cs : list command)
    (sys : ICPCSystem) (out : string) (sys' : ICPCSystem) :
  reachable sys → valid_run fuel cs sys = true →
  run fuel cs sys = Some (out, sys') →
  competition_started sys = true → same_contest sys sys'.
Proof.
  apply (run_invariant
           (λ s s', competition_started s = true → same_contest s s')).
  - done.
  - intros s1 s2 s3 H12 H23 Hst. destruct (H12 Hst) as (Ho & Hn & Hs).
    destruct H23 as (Ho' & Hn' & Hs'); [congruence|].
    unfold same_contest. split_and!; congruence.
  - intros k c s o s' Hr _ Hex Hst. by eapply execute_same_contest.
Qed.

Lemma contest_fixed_after_start_witness :
  ∃ out sys', run 2 [SCROLL; ADDTEAM "c"; START 10 5] two_teams_frozen
              = Some (out, sys')
    ∧ same_contest two_teams_frozen sys'.
Proof.
  eexists _, _. split; [vm_compute; reflexivity|].
  eapply (contest_fixed_after_start 2 [SCROLL; ADDTEAM "c"; START 10 5]).
  - exact two_teams_frozen_reachable.
  - vm_compute. reflexivity.
  - vm_compute. reflexivity.
  - reflexivity.
Defined.

(** X6.  [END] ends the run: the commands after the first [END] are never
    executed, whatever they are. *)
Theorem run_stops_at_END (fuel : nat) (cs1 cs2 : list command)
    (sys : ICPCSystem) :
  run fuel (cs1 ++ END :: cs2) sys = run fuel (cs1 ++ [END]) sys.
Proof.
  revert sys. induction cs1 as [|c cs1 IH]; intros sys; simpl; [done|].
  destruct (execute fuel c sys) as [[o1 sys1]|]; [|done].
  rewrite (IH sys1). done.
Qed.

(** ** Freezing and scrolling *)

(** X7.  A scroll that returns leaves the scoreboard unfrozen: a scroll
    right after it fails without changing the state, for any fuel, and a
    freeze right after it succeeds. *)
Theorem scroll_leaves_unfrozen (fuel k : nat) (sys : ICPCSystem) (out : string)
    (sys' : ICPCSystem) :
  scroll fuel sys = Some (out, sys') →
  scroll k sys' =
    Some ("[Error]Scroll failed: scoreboard has not been frozen." +:+ nl, sys')
  ∧ (freeze sys').1 = "[Info]Freeze scoreboard." +:+ nl.
Proof.
  intros Hscroll.
  assert (is_frozen sys' = false) as Hfr.
  { unfold scroll in Hscroll. destruct (is_frozen sys) eqn:E; simpl in Hscroll.
    - destruct (scroll_entry sys) as [out1 sys1].
      destruct (scroll_loop fuel sys1) as [[out2 sys2]|]; [|done].
      destruct (print_scoreboard sys2) as [out3 sys3].
      by injection Hscroll as _ <-.
    - by injection Hscroll as _ <-. }
  unfold scroll, freeze. by rewrite Hfr.
Qed.

Lemma scroll_leaves_unfrozen_witness :
  ∃ out sys', scroll 2 two_teams_frozen = Some (out, sys')
    ∧ scroll 0 sys' =
      Some ("[Error]Scroll failed: scoreboard has not been frozen." +:+ nl, sys').
Proof.
  eexists _, _. split; [vm_compute; reflexivity|].
  eapply (scroll_leaves_unfrozen 2 0 two_teams_frozen).
  vm_compute. reflexivity.
Defined.

(** X8.  A second freeze in a row fails and changes nothing; a freeze never
    touches the teams, their order or the problem set. *)
Theorem freeze_twice (sys : ICPCSystem) :
  freeze (freeze sys).2 =
    ("[Error]Freeze failed: scoreboard has been frozen." +:+ nl, (freeze sys).2)
  ∧ teams (freeze sys).2 = teams sys
  ∧ same_contest sys (freeze sys).2.
Proof.
  assert (is_frozen (freeze sys).2 = true) as Hfr.
  { unfold freeze. by destruct (is_frozen sys) eqn:E. }
  split.
  - unfold freeze at 1. by rewrite Hfr.
  - unfold freeze. by destruct (is_frozen sys).
Qed.

(** ** Submissions and queries *)

(** X9.  A submission is what a query of its team finds next, whenever it
    passes the two filters of the query; the team need not be registered. *)
Theorem query_submission_after_submit (p n st : string) (t : Z)
    (qp qs : string) (sys : ICPCSystem) :
  (qp = "ALL" ∨ qp = p) → (qs = "ALL" ∨ qs = st) →
  query_submission n qp qs (submit p n st t sys) =
    "[Info]Complete query submission." +:+ nl
      +:+ (n +:+ " " +:+ p +:+ " " +:+ st +:+ " " +:+ show t +:+ nl).
Proof.
  intros Hp Hs. unfold query_submission. rewrite submit_team.
  set (sub := mkSubmission p st t (negb (is_frozen sys))).
  assert (∃ l, submissions (team_of (submit p n st t sys) n) = (l ++ [sub])%list)
    as [l ->].
  { unfold team_of, submit. simpl. rewrite lookup_total_insert_eq. simpl. eauto. }
  rewrite length_app, Nat.add_1_r. simpl.
  rewrite lookup_app_r, Nat.sub_diag by done. simpl.
  assert (submission_matches qp qs sub = true) as ->; [|done].
  apply submission_matches_passes. split; simpl; intuition congruence.
Qed.

Lemma query_submission_after_submit_witness :
  query_submission "ghost" "ALL" "Accepted"
    (submit "A" "ghost" "Accepted" 7 ICPCSystem_new) =
    "[Info]Complete query submission." +:+ nl
      +:+ ("ghost A Accepted 7" +:+ nl).
Proof.
  apply (query_submission_after_submit "A" "ghost" "Accepted" 7 "ALL" "Accepted").
  - by left.
  - by right.
Defined.

(** X10.  A submission of a registered team changes no answer of
    [query_ranking]: ranks move at a flush or a scroll only.  It leaves the
    other teams, and the other problems of its team, as they are. *)
Theorem submit_keeps_rankings (p n st : string) (t : Z) (sys : ICPCSystem) :
  is_Some (teams sys !! n) →
  let sys' := submit p n st t sys in
  (∀ m, query_ranking m sys' = query_ranking m sys)
  ∧ (∀ m, m ≠ n → teams sys' !! m = teams sys !! m)
  ∧ (∀ q, q ≠ p → status_of sys' n q = status_of sys n q)
  ∧ same_contest sys sys' ∧ is_frozen sys' = is_frozen sys.
Proof.
  intros [tn Hn]. simpl. split_and!; try done.
  - intros m. unfold query_ranking, submit. simpl.
    destruct (decide (m = n)) as [->|Hne].
    + rewrite lookup_insert_eq, Hn. simpl.
      rewrite touch_lookup_total, (lookup_total_correct _ _ _ Hn). done.
    + rewrite lookup_insert_ne, touch_lookup_ne by done. done.
  - intros m Hne. unfold submit. simpl.
    rewrite lookup_insert_ne, touch_lookup_ne by done. done.
  - intros q Hne. unfold status_of, team_of, submit. simpl.
    rewrite lookup_total_insert_eq. simpl.
    rewrite lookup_total_insert_ne by done.
    by rewrite !touch_lookup_total.
Qed.

Lemma submit_keeps_rankings_witness :
  query_ranking "b" (submit "A" "b" "Accepted" 40 two_teams_frozen)
  = query_ranking "b" two_teams_frozen.
Proof.
  destruct (submit_keeps_rankings "A" "b" "Accepted" 40 two_teams_frozen)
    as [H _].
  - vm_compute. eauto.
  - exact (H "b").
Defined.

(** ** Entries created by [operator[]] *)

Lemma print_cell_touch k pm q : print_cell (touch k pm) q = print_cell pm q.
Proof.
  unfold touch. destruct (pm !! k) eqn:E; [done|].
  unfold print_cell. rewrite lookup_insert.
  case_decide; [subst; by rewrite E|done].
Qed.

Lemma print_cells_lookup pm pm' qs :
  (∀ q, print_cell pm' q = print_cell pm q) →
  print_cells pm' qs = print_cells pm qs.
Proof. intros H. induction qs as [|q qs IH]; simpl; [done|]. by rewrite H, IH. Qed.

Lemma find_unfreeze_problem_print_cell pnames pm q :
  print_cell (find_unfreeze_problem pnames pm).2 q = print_cell pm q.
Proof.
  revert pm. induction pnames as [|pn pnames IH]; intros pm; simpl; [done|].
  destruct (frozen (touch pn pm !!! pn)); simpl.
  - apply print_cell_touch.
  - rewrite IH. apply print_cell_touch.
Qed.

Lemma visible_lookup_total inc pm pm' :
  (∀ q, pm' !!! q = pm !!! q) → visible inc pm' ≡ₚ visible inc pm.
Proof.
  intros H. rewrite !visible_keep.
  rewrite (keep_ext (counted inc) eq_refl pm' pm); [done|]. intros q _. apply H.
Qed.

(** X11.  The search for the problem to reveal creates an entry for every
    problem it looks at that the team never tried.  These entries show
    nowhere: the cells of the team's row and its statistics are what they
    were. *)
Theorem find_unfreeze_problem_invisible (pnames : list string) (team : Team)
    (qnames : list string) (include_frozen : bool) :
  let team' := set_problems (find_unfreeze_problem pnames (problems team)).2 team in
  print_cells (problems team') qnames = print_cells (problems team) qnames
  ∧ solved_count (calculate_team_stats team' include_frozen) =
    solved_count (calculate_team_stats team include_frozen)
  ∧ penalty_time (calculate_team_stats team' include_frozen) =
    penalty_time (calculate_team_stats team include_frozen)
  ∧ solve_times (calculate_team_stats team' include_frozen) =
    solve_times (calculate_team_stats team include_frozen).
Proof.
  simpl. split.
  - apply print_cells_lookup. intros q. apply find_unfreeze_problem_print_cell.
  - apply calculate_team_stats_visible. simpl.
    apply visible_lookup_total. intros q.
    apply find_unfreeze_problem_lookup_total.
Qed.

(** ** The two visibility modes *)

Lemma calculate_team_stats_modes t :
  (∀ p, frozen (problems t !!! p) = true → solved (problems t !!! p) = false) →
  calculate_team_stats t true = calculate_team_stats t false.
Proof.
  intros H. rewrite !calculate_team_stats_spec. simpl.
  assert (visible true (problems t) = visible false (problems t)) as ->; [|done].
  unfold visible. apply filter_ext_in. intros ps Hin.
  apply list_elem_of_In, list_elem_of_fmap in Hin as [[k ps'] [-> Hin]].
  rewrite map_items_perm in Hin. apply elem_of_map_to_list in Hin. simpl.
  specialize (H k). rewrite (lookup_total_correct _ _ _ Hin) in H.
  unfold counted. destruct (solved ps'), (frozen ps'); simpl; try done.
  by specialize (H eq_refl).
Qed.

(** X12.  In a reachable state without a team of empty name, a frozen problem
    is never a solved one, so that the visibility mode makes no difference:
    the statistics of a registered team and the comparison of two registered
    teams are the same with and without the frozen problems. *)
Theorem frozen_mode_irrelevant (sys : ICPCSystem) :
  reachable sys → "" ∉ team_order sys →
  (∀ n, n ∈ team_order sys →
     calculate_team_stats (team_of sys n) true =
     calculate_team_stats (team_of sys n) false)
  ∧ (∀ a b, a ∈ team_order sys → b ∈ team_order sys →
       (compare_teams a b true (teams sys)).1 =
       (compare_teams a b false (teams sys)).1).
Proof.
  intros Hr Hne. pose proof (reachable_frozen_unsolved sys Hr Hne) as Hfu.
  assert (∀ n, n ∈ team_order sys →
            calculate_team_stats (team_of sys n) true =
            calculate_team_stats (team_of sys n) false) as Hstat.
  { intros n Hn. apply calculate_team_stats_modes. intros p Hp.
    by destruct (Hfu n p Hn Hp). }
  split; [done|]. intros a b Ha Hb. rewrite !compare_teams_fst.
  unfold team_of in Hstat. by rewrite (Hstat a Ha), (Hstat b Hb).
Qed.

Lemma frozen_mode_irrelevant_witness :
  (compare_teams "a" "b" true (teams two_teams_frozen)).1 =
  (compare_teams "a" "b" false (teams two_teams_frozen)).1.
Proof.
  destruct (frozen_mode_irrelevant two_teams_frozen) as [_ H].
  - exact two_teams_frozen_reachable.
  - exact two_teams_frozen_names.
  - apply H; vm_compute; [left|right; left].
Defined.

(** ** The listing *)

Lemma calculate_team_stats_core t t' inc :
  core t = core t' → calculate_team_stats t inc = calculate_team_stats t' inc.
Proof.
  intros Hc. rewrite !calculate_team_stats_spec. simpl.
  unfold core, set_stats in *. injection Hc as Hn Hp Hs Hr.
  by rewrite Hn, Hp, Hs, Hr.
Qed.

Lemma scoreboard_rows_core pnames l ts ts' :
  (∀ n, core (ts !!! n) = core (ts' !!! n)) →
  scoreboard_rows pnames l ts = scoreboard_rows pnames l ts'.
Proof.
  intros H. induction l as [|n l IH]; simpl; [done|].
  by rewrite IH, (calculate_team_stats_core _ _ false (H n)).
Qed.

Lemma print_rows_rows sorted pnames ts :
  (print_rows sorted pnames ts).1 = scoreboard_rows pnames sorted ts.
Proof.
  revert ts. induction sorted as [|n sorted IH]; intros ts; simpl; [done|].
  set (ts1 := <[n := calculate_team_stats (touch n ts !!! n) false]> (touch n ts)).
  specialize (IH ts1). destruct (print_rows sorted pnames ts1) as [out ts2].
  simpl in *. rewrite IH.
  rewrite (scoreboard_rows_core pnames sorted ts1 ts).
  - unfold scoreboard_row. by rewrite touch_lookup_total.
  - intros m. unfold ts1. destruct (decide (m = n)) as [->|Hne].
    + rewrite lookup_total_insert_eq, core_calculate_team_stats.
      by rewrite touch_lookup_total.
    + by rewrite lookup_total_insert_ne, touch_lookup_total.
Qed.

Lemma sorted_rank ts order i n :
  NoDup order → sort_by (rank_lt false ts) order !! i = Some n →
  rank_of ts order n = (Z.of_nat i + 1)%Z.
Proof.
  intros Hnd Hi. unfold rank_of. do 2 f_equal.
  apply (sort_by_position (rank_lt false ts));
    [apply rank_lt_irrefl|apply rank_lt_trans|apply rank_lt_total|done|done].
Qed.

Lemma print_scoreboard_rows sys :
  registry_ok sys →
  (print_scoreboard sys).1 =
    scoreboard_rows (problem_names sys)
      (sort_by (rank_lt false (teams sys)) (team_order sys)) (teams sys).
Proof.
  intros [Hnd Hreg]. unfold print_scoreboard.
  destruct (std_sort_by_rank (teams sys) (team_order sys) Hreg) as [Hs Hc].
  destruct (std_sort by_rank (team_order sys) (teams sys)) as [sorted ts].
  simpl in *. subst sorted.
  pose proof (print_rows_rows
                (sort_by (rank_lt false (teams sys)) (team_order sys))
                (problem_names sys) ts) as Hrows.
  destruct (print_rows _ (problem_names sys) ts) as [out ts']. simpl in *.
  rewrite Hrows. apply scoreboard_rows_core. intros n.
  by apply (fmap_eq_lookup_total core).
Qed.

(** X13.  The listing has one row for each registered team, in the order of
    [compare_teams]; the statistics that sorting and printing write into the
    teams on the way do not show in it.  When the ranks are those of a
    ranking pass, as at the two listings of a scroll, the rank printed in
    row [i], counted from 0, is [i + 1]. *)
Theorem print_scoreboard_listing (sys : ICPCSystem) :
  registry_ok sys →
  let sorted := sort_by (rank_lt false (teams sys)) (team_order sys) in
  (print_scoreboard sys).1 =
    scoreboard_rows (problem_names sys) sorted (teams sys)
  ∧ sorted ≡ₚ team_order sys
  ∧ (ranks_current sys →
     ∀ i n, sorted !! i = Some n →
       ranking (team_of sys n) = (Z.of_nat i + 1)%Z).
Proof.
  intros Hok. pose proof Hok as [Hnd Hreg]. simpl. split_and!.
  - by apply print_scoreboard_rows.
  - apply sort_by_perm.
  - intros Hcur i n Hi. rewrite Hcur.
    + by apply sorted_rank.
    + rewrite <- (sort_by_perm (rank_lt false (teams sys))).
      by eapply list_elem_of_lookup_2.
Qed.

Lemma print_scoreboard_listing_witness :
  (print_scoreboard two_teams_frozen).1 =
    scoreboard_rows (problem_names two_teams_frozen)
      (sort_by (rank_lt false (teams two_teams_frozen)) (team_order two_teams_frozen))
      (teams two_teams_frozen).
Proof.
  destruct (print_scoreboard_listing two_teams_frozen) as [H _].
  - apply reachable_inv, two_teams_frozen_reachable.
  - exact H.
Defined.

(** ** Ranks and comparisons *)

Lemma filter_length_lt {A} (f g : A → bool) l y :
  (∀ x, x ∈ l → f x = true → g x = true) →
  y ∈ l → f y = false → g y = true →
  (length (List.filter f l) < length (List.filter g l))%nat.
Proof.
  intros Hfg Hy Hfy Hgy. induction l as [|x l IH]; [by apply elem_of_nil in Hy|].
  assert (∀ z, z ∈ l → f z = true → g z = true) as Hfg'.
  { intros z Hz. apply Hfg. by right. }
  apply elem_of_cons in Hy as [<-|Hy]; simpl.
  - rewrite Hfy, Hgy. simpl.
    pose proof (filter_length_le f g l Hfg'). lia.
  - specialize (IH Hfg' Hy).
    destruct (f x) eqn:Ef.
    + rewrite (Hfg x) by (done || left). simpl. lia.
    + destruct (g x); simpl; lia.
Qed.

Lemma rank_of_lt ts order a b :
  a ∈ order → rank_lt false ts a b = true →
  (rank_of ts order a < rank_of ts order b)%Z.
Proof.
  intros Ha Hab. unfold rank_of.
  enough (length (List.filter (λ m, rank_lt false ts m a) order)
          < length (List.filter (λ m, rank_lt false ts m b) order))%nat by lia.
  apply (filter_length_lt _ _ order a); [|done| |done].
  - intros m _ Hma. by apply (rank_lt_trans false ts m a b).
  - apply rank_lt_irrefl.
Qed.

(** X14.  After a ranking pass, the stored ranks order the registered teams
    as [compare_teams] does: one team has the smaller rank exactly when
    [compare_teams] puts it before the other. *)
Theorem flush_ranks_follow_comparison (sys : ICPCSystem) (a b : string) :
  reachable sys → a ∈ team_order sys → b ∈ team_order sys →
  (ranking (team_of (flush_scoreboard sys) a)
   < ranking (team_of (flush_scoreboard sys) b))%Z
  ↔ (compare_teams a b false (teams sys)).1 = true.
Proof.
  intros Hr Ha Hb. destruct (reachable_inv sys Hr) as [Hok _].
  rewrite !flush_scoreboard_ranking by done.
  change (compare_teams a b false (teams sys)).1
    with (rank_lt false (teams sys) a b).
  split; [|by apply rank_of_lt].
  intros Hlt. destruct (rank_lt false (teams sys) a b) eqn:Hab; [done|].
  destruct (decide (a = b)) as [->|Hne]; [lia|].
  destruct (rank_lt_total false (teams sys) a b Hne) as [?|Hba]; [congruence|].
  pose proof (rank_of_lt (teams sys) (team_order sys) b a Hb Hba). lia.
Qed.

Lemma flush_ranks_follow_comparison_witness :
  (ranking (team_of (flush_scoreboard two_teams_frozen) "a")
   < ranking (team_of (flush_scoreboard two_teams_frozen) "b"))%Z
  ↔ (compare_teams "a" "b" false (teams two_teams_frozen)).1 = true.
Proof.
  apply (flush_ranks_follow_comparison two_teams_frozen "a" "b").
  - exact two_teams_frozen_reachable.
  - vm_compute. left.
  - vm_compute. right. left.
Defined.

(** X15.  A second flush in a row changes no answer of [query_ranking]. *)
Theorem flush_twice_same_ranking (sys : ICPCSystem) (n : string) :
  reachable sys →
  query_ranking n (flush (flush sys).2).2 = query_ranking n (flush sys).2.
Proof.
  intros Hr. destruct (reachable_inv sys Hr) as [Hok Hinv].
  unfold flush. simpl. set (s1 := flush_scoreboard sys).
  destruct (flush_scoreboard_inv sys Hok Hinv) as (Hok1 & _ & _).
  fold s1 in Hok1.
  destruct (flush_scoreboard_fields sys) as (Ho & _ & _ & _). fold s1 in Ho.
  destruct (flush_scoreboard_fields s1) as (_ & _ & Hf & _).
  pose proof (flush_scoreboard_payload sys Hok) as Hp. fold s1 in Hp.
  pose proof (flush_scoreboard_payload s1 Hok1) as Hp1.
  unfold query_ranking. rewrite Hf.
  destruct (teams s1 !! n) as [t1|] eqn:E1.
  - assert (n ∈ team_order s1) as Hn.
    { rewrite Ho. apply (reachable_registry sys n Hr).
      apply (fmap_eq_is_Some payload (teams s1)); [done|eauto]. }
    destruct (fmap_eq_is_Some payload (teams s1) (teams (flush_scoreboard s1)) n)
      as [t2 E2]; [done|eauto|].
    rewrite E2.
    assert (ranking t2 = ranking t1) as ->; [|done].
    pose proof (flush_scoreboard_ranking s1 n Hok1 Hn) as H2.
    unfold team_of in H2. rewrite (lookup_total_correct _ _ _ E2) in H2.
    rewrite H2, Ho, (rank_of_payload _ _ _ _ Hp).
    assert (n ∈ team_order sys) as Hn' by (by rewrite <- Ho).
    pose proof (flush_scoreboard_ranking sys n Hok Hn') as H1.
    fold s1 in H1. unfold team_of in H1.
    by rewrite (lookup_total_correct _ _ _ E1) in H1.
  - destruct (teams (flush_scoreboard s1) !! n) as [t2|] eqn:E2; [|done].
    destruct (fmap_eq_is_Some payload (teams (flush_scoreboard s1)) (teams s1) n)
      as [t1 E1']; [done|eauto|congruence].
Qed.

Lemma flush_twice_same_ranking_witness :
  query_ranking "b" (flush (flush two_teams_frozen).2).2 =
  query_ranking "b" (flush two_teams_frozen).2.
Proof.
  apply (flush_twice_same_ranking two_teams_frozen "b").
  exact two_teams_frozen_reachable.
Defined.

(** ** Ranks of a started contest *)

Lemma ranks_bijective_ext sys sys' :
  team_order sys' = team_order sys →
  (∀ n, n ∈ team_order sys → ranking (team_of sys' n) = ranking (team_of sys n)) →
  ranks_bijective sys → ranks_bijective sys'.
Proof.
  intros Ho Hr (Hrg & Hinj & Hsurj). unfold ranks_bijective. rewrite Ho.
  split_and!.
  - intros n Hn. rewrite Hr by done. by apply Hrg.
  - intros n m Hn Hm. rewrite !Hr by done. by apply Hinj.
  - intros r Hrange. destruct (Hsurj r Hrange) as (n & Hn & <-).
    exists n. split; [done|]. by apply Hr.
Qed.

Lemma scroll_loop_bijective fuel sys out sys' :
  scroll_loop fuel sys = Some (out, sys') →
  registry_ok sys → frozen_in_problem_set sys →
  ranks_bijective sys → ranks_bijective sys'.
Proof.
  revert sys out. induction fuel as [|fuel IH]; intros sys out Hloop Hok Hinv Hb;
    simpl in Hloop; [done|].
  destruct (scroll_iteration sys) as [[|line] sys1] eqn:Hit.
  - injection Hloop as _ <-.
    destruct (scroll_iteration_stop sys sys1 Hok Hinv Hit)
      as (_ & _ & Hc & Ho & _).
    apply (ranks_bijective_ext sys); [done| |done].
    intros n _. by apply core_eq_ranking.
  - destruct (scroll_loop fuel sys1) as [[out2 sys2]|] eqn:Hrest; [|done].
    injection Hloop as _ <-.
    destruct (scroll_iteration_step sys line sys1 Hok Hinv Hit)
      as (Hok1 & Hinv1 & Hcur1 & _).
    apply (IH sys1 out2); [done..|].
    apply ranks_current_bijective; [apply Hok1|done].
Qed.

Lemma reset_team_lookup_total (ts : gmap string Team) n :
  (reset_team <$> ts) !!! n = reset_team (ts !!! n).
Proof.
  rewrite !lookup_total_alt, lookup_fmap. destruct (ts !! n); simpl; [done|].
  unfold reset_team. simpl. by rewrite fmap_empty.
Qed.

Lemma scroll_bijective fuel sys out sys' :
  scroll fuel sys = Some (out, sys') →
  registry_ok sys → frozen_in_problem_set sys →
  ranks_bijective sys → ranks_bijective sys'.
Proof.
  unfold scroll. intros Hscroll Hok Hinv Hb.
  destruct (is_frozen sys); simpl in Hscroll; [|by injection Hscroll as _ <-].
  destruct (scroll_entry_inv sys Hok Hinv) as (Hok1 & Hinv1 & Hcur1 & _).
  destruct (scroll_entry sys) as [out1 sys1]. simpl in *.
  destruct (scroll_loop fuel sys1) as [[out2 sys2]|] eqn:Hloop; [|done].
  destruct (scroll_loop_inv fuel sys1 out2 sys2 Hloop Hok1 Hinv1)
    as (Hok2 & _).
  assert (ranks_bijective sys2) as Hb2.
  { apply (scroll_loop_bijective fuel sys1 out2); [done..|].
    apply ranks_current_bijective; [apply Hok1|done]. }
  destruct (print_scoreboard_fields sys2) as (Ho3 & _).
  pose proof (print_scoreboard_core sys2 Hok2) as Hc3.
  destruct (print_scoreboard sys2) as [out3 sys3]. simpl in *.
  injection Hscroll as _ <-.
  apply (ranks_bijective_ext sys2); [done| |done].
  intros n _. unfold team_of. simpl.
  rewrite reset_team_lookup_total. unfold reset_team. simpl.
  by apply core_eq_ranking.
Qed.

Lemma reachable_started_bijective sys :
  reachable sys → competition_started sys = true → ranks_bijective sys.
Proof.
  induction 1 as [|sys c fuel out sys' Hr IH Hvalid Hex]; [done|].
  destruct (reachable_inv sys Hr) as [Hok Hinv]. intros Hst'.
  destruct c as [tn|d k|pr tn st0 t0| | | |tn|tn qp qs|]; simpl in Hex.
  6: { destruct (scroll_fields fuel sys out sys' Hex Hok Hinv)
         as [(_ & _ & Hs) _].
       apply (scroll_bijective fuel sys out sys' Hex Hok Hinv).
       apply IH. congruence. }
  all: apply (f_equal (fmap snd)) in Hex; simpl in Hex; injection Hex as <-.
  - unfold add_team in *.
    destruct (competition_started sys) eqn:E; [by apply IH|].
    case_bool_decide; simpl in *; congruence.
  - unfold start_competition in *.
    destruct (competition_started sys) eqn:E; [by apply IH|]. simpl.
    destruct Hok as [Hnd Hreg].
    set (sorted := sort_by String.ltb (team_order sys)).
    assert (sorted ≡ₚ team_order sys) as Hperm by apply sort_by_perm.
    apply (positions_bijective _ sorted); [done|].
    assert (NoDup sorted) as Hnd' by (by rewrite Hperm).
    intros i n Hi. unfold team_of. simpl.
    rewrite (lookup_total_correct _ _ _
               (assign_rankings_at sorted 0 (teams sys) i n Hnd' Hi)). done.
  - apply (ranks_bijective_ext sys); [done| |by apply IH].
    intros m _. unfold team_of, submit. simpl.
    destruct (decide (m = tn)) as [->|Hne].
    + rewrite lookup_total_insert_eq. simpl. by rewrite touch_lookup_total.
    + by rewrite lookup_total_insert_ne, touch_lookup_total.
  - apply flush_scoreboard_bijective, Hok.
  - unfold freeze in *. destruct (is_frozen sys); simpl in *; by apply IH.
  - by apply IH.
  - by apply IH.
  - by apply IH.
Qed.

(** X16.  From the start of the contest on, whatever valid commands follow,
    the ranks of the registered teams are a bijection onto [1..N], and
    [query_ranking] answers a registered team with its rank. *)
Theorem started_ranks_bijective (sys : ICPCSystem) :
  reachable sys → competition_started sys = true →
  ranks_bijective sys
  ∧ ∀ n, n ∈ team_order sys →
      (1 ≤ ranking (team_of sys n) ≤ Z.of_nat (length (team_order sys)))%Z
      ∧ query_ranking n sys =
        "[Info]Complete query ranking." +:+ nl
          +:+ (if is_frozen sys then
                 "[Warning]Scoreboard is frozen. The ranking may be inaccurate until it were scrolled."
                   +:+ nl
               else "")
          +:+ n +:+ " NOW AT RANKING " +:+ show (ranking (team_of sys n)) +:+ nl.
Proof.
  intros Hr Hst. pose proof (reachable_started_bijective sys Hr Hst) as Hb.
  split; [done|]. intros n Hn. split; [by apply Hb|].
  apply (reachable_registry sys n Hr) in Hn as [t Ht].
  unfold query_ranking, team_of. by rewrite Ht, (lookup_total_correct _ _ _ Ht).
Qed.

Lemma started_ranks_bijective_witness : ranks_bijective two_teams_frozen.
Proof.
  destruct (started_ranks_bijective two_teams_frozen) as [H _].
  - exact two_teams_frozen_reachable.
  - reflexivity.
  - exact H.
Defined.

(** ** What every command keeps of a team *)

Lemma reveal_solved up team :
  solved (problems team !!! up) = true →
  let ps := problems team !!! up in
  problems (reveal up team) !!! up =
  mkProblemStatus (solved ps) (solve_time ps)
    (wrong_attempts_before_first_success ps) (wrong_attempts_before_freeze ps)
    (submissions_after_freeze ps) false.
Proof.
  intros Hs. simpl. unfold reveal. rewrite touch_lookup_total.
  rewrite replay_solved by done. simpl. rewrite Hs. simpl.
  by rewrite lookup_total_insert_eq.
Qed.

Lemma revealed_reveal sys team :
  revealed sys team =
  reveal (next_problem sys team)
    (set_problems (find_unfreeze_problem (problem_names sys) (problems team)).2 team).
Proof.
  unfold revealed, next_problem.
  by destruct (find_unfreeze_problem (problem_names sys) (problems team)).
Qed.

Lemma revealed_submissions sys team :
  submissions (revealed sys team) = submissions team.
Proof.
  rewrite revealed_reveal.
  by destruct (reveal_fields (next_problem sys team)
    (set_problems (find_unfreeze_problem (problem_names sys) (problems team)).2 team))
    as (_ & -> & _).
Qed.

Lemma reset_problems_lookup_total t p :
  problems (reset_team t) !!! p = reset_submissions_after_freeze (problems t !!! p).
Proof.
  unfold reset_team. simpl. rewrite !lookup_total_alt, lookup_fmap.
  by destruct (problems t !! p).
Qed.

Lemma submit_team_of p n st t sys :
  team_of (submit p n st t sys) n =
  let team := team_of sys n in
  let pm := touch p (problems team) in
  let ps := problems team !!! p in
  let ps' :=
    if is_frozen sys then
      if negb (solved ps) then
        mkProblemStatus (solved ps) (solve_time ps)
          (wrong_attempts_before_first_success ps)
          (wrong_attempts_before_freeze ps)
          (submissions_after_freeze ps + 1) true
      else ps
    else
      if negb (solved ps) then
        if String.eqb st "Accepted" then
          mkProblemStatus true t (wrong_attempts_before_freeze ps)
            (wrong_attempts_before_freeze ps) (submissions_after_freeze ps)
            (frozen ps)
        else
          mkProblemStatus (solved ps) (solve_time ps)
            (wrong_attempts_before_first_success ps)
            (wrong_attempts_before_freeze ps + 1)
            (submissions_after_freeze ps) (frozen ps)
      else ps in
  set_submissions
    (submissions team ++ [mkSubmission p st t (negb (is_frozen sys))])%list
    (set_problems (<[p := ps']> pm) team).
Proof.
  unfold team_of, submit. simpl. rewrite lookup_total_insert_eq.
  by rewrite !touch_lookup_total.
Qed.

Lemma submit_team_of_ne p n st t sys m :
  m ≠ n → team_of (submit p n st t sys) m = team_of sys m.
Proof.
  intros Hne. unfold team_of, submit. simpl.
  by rewrite lookup_total_insert_ne, touch_lookup_total.
Qed.

Section team_relation.
Variable R : Team → Team → Prop.
Hypothesis R_refl : ∀ t, R t t.
Hypothesis R_trans : ∀ t1 t2 t3, R t1 t2 → R t2 t3 → R t1 t3.
Hypothesis R_payload : ∀ t1 t1' t2 t2',
  payload t1 = payload t1' → payload t2 = payload t2' → R t1 t2 → R t1' t2'.
Hypothesis R_revealed : ∀ sys t,
  frozen (problems t !!! next_problem sys t) = true → R t (revealed sys t).
Hypothesis R_reset : ∀ t, R t (reset_team t).
Hypothesis R_named : ∀ n, R Team_new (set_name n Team_new).
Hypothesis R_submit : ∀ p n st t sys,
  R (team_of sys n) (team_of (submit p n st t sys) n).

Lemma payload_rel (ts ts' : gmap string Team) n :
  payload <$> ts = payload <$> ts' → R (ts !!! n) (ts' !!! n).
Proof.
  intros Hp. apply (R_payload (ts !!! n) (ts !!! n) (ts !!! n)); [done| |done].
  by apply (fmap_eq_lookup_total payload).
Qed.

Lemma scroll_iteration_rel sys step sys' n :
  registry_ok sys → frozen_in_problem_set sys →
  scroll_iteration sys = (step, sys') →
  R (team_of sys n) (team_of sys' n).
Proof.
  intros Hok Hinv Hit. destruct (decide (lowest_team sys = "")) as [He|Hne].
  - destruct (scroll_iteration_break sys Hok He) as (sys'' & Hit' & Hc & _).
    assert (sys'' = sys') as -> by congruence.
    apply payload_rel. symmetry. by apply core_payload_eq.
  - destruct (scroll_iteration_continue sys Hok Hne)
      as (out & sys'' & Hit' & HX & Hhf & _ & _ & _ & _ & Hp & _).
    assert (sys'' = sys') as -> by congruence.
    unfold team_of. destruct (decide (n = lowest_team sys)) as [->|Hn].
    + apply (R_payload (teams sys !!! lowest_team sys) _
               (revealed sys (team_of sys (lowest_team sys))));
        [done| |apply R_revealed].
      * symmetry. by apply (payload_insert_eq (teams sys)).
      * apply next_problem_frozen; [done|].
        intros q Hq. by apply (Hinv (lowest_team sys) q).
    + apply (R_payload (teams sys !!! n) _ (teams sys !!! n)); [done| |done].
      symmetry. by apply (payload_insert_ne (teams sys) _ (lowest_team sys)
        (payload (revealed sys (team_of sys (lowest_team sys))))).
Qed.

Lemma scroll_loop_rel fuel sys out sys' n :
  scroll_loop fuel sys = Some (out, sys') →
  registry_ok sys → frozen_in_problem_set sys →
  R (team_of sys n) (team_of sys' n).
Proof.
  revert sys out. induction fuel as [|fuel IH]; intros sys out Hloop Hok Hinv;
    simpl in Hloop; [done|].
  destruct (scroll_iteration sys) as [[|line] sys1] eqn:Hit.
  - injection Hloop as _ <-. by apply (scroll_iteration_rel sys Break).
  - destruct (scroll_loop fuel sys1) as [[out2 sys2]|] eqn:Hrest; [|done].
    injection Hloop as _ <-.
    destruct (scroll_iteration_step sys line sys1 Hok Hinv Hit)
      as (Hok1 & Hinv1 & _).
    apply (R_trans _ (team_of sys1 n)).
    + by apply (scroll_iteration_rel sys (Continue line)).
    + by apply (IH sys1 out2).
Qed.

Lemma scroll_rel fuel sys out sys' n :
  scroll fuel sys = Some (out, sys') →
  registry_ok sys → frozen_in_problem_set sys →
  R (team_of sys n) (team_of sys' n).
Proof.
  unfold scroll. intros Hscroll Hok Hinv.
  destruct (is_frozen sys); simpl in Hscroll;
    [|injection Hscroll as _ <-; apply R_refl].
  destruct (scroll_entry_inv sys Hok Hinv) as (Hok1 & Hinv1 & _).
  assert (payload <$> teams sys = payload <$> teams (scroll_entry sys).2) as Hp1.
  { unfold scroll_entry. destruct (flush_scoreboard_inv sys Hok Hinv) as (Hokf & _).
    rewrite <- (flush_scoreboard_payload sys Hok).
    symmetry. by apply core_payload_eq, print_scoreboard_core. }
  destruct (scroll_entry sys) as [out1 sys1]. simpl in *.
  destruct (scroll_loop fuel sys1) as [[out2 sys2]|] eqn:Hloop; [|done].
  destruct (scroll_loop_inv fuel sys1 out2 sys2 Hloop Hok1 Hinv1) as (Hok2 & _).
  pose proof (print_scoreboard_core sys2 Hok2) as Hc3.
  destruct (print_scoreboard sys2) as [out3 sys3]. simpl in *.
  injection Hscroll as _ <-. unfold team_of at 2. simpl.
  rewrite reset_team_lookup_total.
  apply (R_trans _ (team_of sys1 n)); [by apply payload_rel|].
  apply (R_trans _ (team_of sys2 n)); [by apply (scroll_loop_rel fuel sys1 out2)|].
  apply (R_trans _ (teams sys3 !!! n)); [|apply R_reset].
  apply payload_rel. symmetry. by apply core_payload_eq.
Qed.

Lemma execute_rel fuel c sys out sys' n :
  reachable sys → execute fuel c sys = Some (out, sys') →
  R (team_of sys n) (team_of sys' n).
Proof.
  intros Hr Hex. destruct (reachable_inv sys Hr) as [Hok Hinv].
  destruct c as [tn|d k|pr tn st0 t0| | | |tn|tn qp qs|]; simpl in Hex;
    try by apply (scroll_rel fuel sys out sys' n Hex Hok Hinv).
  all: apply (f_equal (fmap snd)) in Hex; simpl in Hex; injection Hex as <-.
  - unfold add_team. destruct (competition_started sys); [apply R_refl|].
    case_bool_decide as Hex; [apply R_refl|]. unfold team_of. simpl.
    destruct (decide (n = tn)) as [->|Hne].
    + rewrite lookup_total_insert_eq, lookup_total_alt.
      destruct (teams sys !! tn) eqn:E; [destruct Hex; eauto|].
      apply R_named.
    + rewrite lookup_total_insert_ne by done. apply R_refl.
  - unfold start_competition. destruct (competition_started sys); [apply R_refl|].
    apply payload_rel. simpl. symmetry. apply assign_rankings_payload.
    rewrite sort_by_perm. apply Hok.
  - destruct (decide (n = tn)) as [->|Hne]; [apply R_submit|].
    rewrite submit_team_of_ne by done. apply R_refl.
  - apply payload_rel. symmetry. by apply flush_scoreboard_payload.
  - unfold freeze. destruct (is_frozen sys); apply R_refl.
  - apply R_refl.
  - apply R_refl.
  - apply R_refl.
Qed.

Lemma run_rel fuel cs sys out sys' :
  reachable sys → valid_run fuel cs sys = true →
  run fuel cs sys = Some (out, sys') →
  ∀ n, R (team_of sys n) (team_of sys' n).
Proof.
  apply (run_invariant (λ s s', ∀ n, R (team_of s n) (team_of s' n))).
  - intros s n. apply R_refl.
  - intros s1 s2 s3 H12 H23 n. by apply (R_trans _ (team_of s2 n)).
  - intros k c s o s' Hr _ Hex n. by apply (execute_rel k c s o s').
Qed.
End team_relation.

Lemma payload_eq_fields t t' :
  payload t = payload t' →
  problems t = problems t' ∧ submissions t = submissions t' ∧ name t = name t'.
Proof. unfold payload, core. intros Hp. by injection Hp as -> -> ->. Qed.

(** *** Solved problems *)

Lemma team_solved_kept_revealed sys t : team_solved_kept t (revealed sys t).
Proof.
  intros p Hs. destruct (decide (p = next_problem sys t)) as [->|Hne].
  - rewrite revealed_reveal, reveal_solved; simpl;
      rewrite find_unfreeze_problem_lookup_total; done.
  - destruct (revealed_problems sys t) as [_ H]. by rewrite H.
Qed.

Lemma team_solved_kept_submit p n st t sys :
  team_solved_kept (team_of sys n) (team_of (submit p n st t sys) n).
Proof.
  intros q Hs. rewrite submit_team_of. simpl.
  destruct (decide (q = p)) as [->|Hne].
  - rewrite lookup_total_insert_eq, Hs. simpl. by destruct (is_frozen sys).
  - by rewrite lookup_total_insert_ne, touch_lookup_total.
Qed.

(** X17.  A solved problem stays solved: over any sequence of valid
    commands, flushes and scrolls included, it keeps its solve time and the
    number of wrong attempts that count for its penalty. *)
Theorem solved_stays_solved (fuel : nat) (cs : list command)
    (sys : ICPCSystem) (out : string) (sys' : ICPCSystem) :
  reachable sys → valid_run fuel cs sys = true →
  run fuel cs sys = Some (out, sys') → solved_kept sys sys'.
Proof.
  intros Hr Hv Hrun.
  refine (run_rel team_solved_kept _ _ _ _ _ _ _ fuel cs sys out sys' Hr Hv Hrun).
  - by intros t p.
  - intros t1 t2 t3 H12 H23 p Hs. destruct (H12 p Hs) as (Hs2 & Ht2 & Hw2).
    destruct (H23 p Hs2) as (? & ? & ?). split_and!; congruence.
  - intros t1 t1' t2 t2' [H1 _]%payload_eq_fields [H2 _]%payload_eq_fields H.
    unfold team_solved_kept. rewrite <- H1, <- H2. exact H.
  - intros s t _. apply team_solved_kept_revealed.
  - intros t p Hs. rewrite reset_problems_lookup_total. done.
  - by intros n p.
  - apply team_solved_kept_submit.
Qed.

Lemma solved_then_frozen_reachable : reachable solved_then_frozen.
Proof.
  eapply (run_reachable 0
    [ADDTEAM "a"; START 300 2; SUBMIT "A" "a" "Accepted" 10; FREEZE;
     SUBMIT "B" "a" "Wrong_Answer" 30]
    ICPCSystem_new _ solved_then_frozen reachable_new).
  - vm_compute. reflexivity.
  - vm_compute. reflexivity.
Defined.

Lemma solved_stays_solved_witness :
  ∃ out sys',
    run 2 [SUBMIT "A" "a" "Wrong_Answer" 40; SCROLL; FLUSH] solved_then_frozen
      = Some (out, sys')
    ∧ solved_kept solved_then_frozen sys'.
Proof.
  eexists _, _. split; [vm_compute; reflexivity|].
  eapply (solved_stays_solved 2
            [SUBMIT "A" "a" "Wrong_Answer" 40; SCROLL; FLUSH]).
  - exact solved_then_frozen_reachable.
  - vm_compute. reflexivity.
  - vm_compute. reflexivity.
Defined.

(** *** Submission histories *)

(** X18.  No command removes or rewrites a recorded submission: over any
    sequence of valid commands the history of a team is extended at its end
    only, and [submit] is what extends it, by one entry. *)
Theorem submission_history_grows (fuel : nat) (cs : list command)
    (sys : ICPCSystem) (out : string) (sys' : ICPCSystem) :
  reachable sys → valid_run fuel cs sys = true →
  run fuel cs sys = Some (out, sys') →
  ∀ n, history_kept (team_of sys n) (team_of sys' n).
Proof.
  intros Hr Hv Hrun.
  refine (run_rel history_kept _ _ _ _ _ _ _ fuel cs sys out sys' Hr Hv Hrun);
    unfold history_kept.
  - done.
  - intros t1 t2 t3 H12 H23. by etrans.
  - intros t1 t1' t2 t2' (_ & H1 & _)%payload_eq_fields
      (_ & H2 & _)%payload_eq_fields H. by rewrite <- H1, <- H2.
  - intros s t _. by rewrite revealed_submissions.
  - done.
  - done.
  - intros p n st t s. rewrite submit_team_of. simpl. by apply prefix_app_r.
Qed.

Lemma submission_history_grows_witness :
  ∃ out sys',
    run 2 [SUBMIT "A" "a" "Wrong_Answer" 40; SCROLL; FLUSH] solved_then_frozen
      = Some (out, sys')
    ∧ history_kept (team_of solved_then_frozen "a") (team_of sys' "a").
Proof.
  eexists _, _. split; [vm_compute; reflexivity|].
  eapply (submission_history_grows 2
            [SUBMIT "A" "a" "Wrong_Answer" 40; SCROLL; FLUSH]).
  - exact solved_then_frozen_reachable.
  - vm_compute. reflexivity.
  - vm_compute. reflexivity.
Defined.

(** *** Counters *)

Lemma first_accepted (l : list Submission) :
  Forall (λ sub, accepted sub = false) l
  ∨ ∃ pre acc post, l = (pre ++ acc :: post)%list
      ∧ Forall (λ sub, accepted sub = false) pre ∧ accepted acc = true.
Proof.
  induction l as [|x l IH]; [by left|].
  destruct (accepted x) eqn:Hx.
  { right. exists [], x, l. by split_and!. }
  destruct IH as [IH|(pre & acc & post & -> & Hpre & Hacc)].
  - left. by constructor.
  - right. exists (x :: pre), acc, post. split_and!; [done|by constructor|done].
Qed.

Lemma window_length_le (f : Submission → bool) (l : list Submission) :
  (Z.of_nat (length (List.filter f l)) ≤ Z.of_nat (length l))%Z.
Proof.
  apply inj_le. induction l as [|x l IH]; simpl; [done|].
  destruct (f x); simpl; lia.
Qed.

Lemma few_submissions_fits (t : Team) (p : string) (z : Z) :
  few_submissions t →
  let U := Z.of_nat (length (open_window p (submissions t))) in
  let F := Z.of_nat (length (frozen_window p (submissions t))) in
  (0 ≤ z ≤ U + F * F)%Z → fits_int z.
Proof.
  unfold few_submissions, fits_int. simpl. intros Hfew Hz.
  pose proof (window_length_le
    (λ sub, String.eqb (problem sub) p && before_freeze sub) (submissions t)).
  pose proof (window_length_le
    (λ sub, String.eqb (problem sub) p && negb (before_freeze sub)) (submissions t)).
  unfold open_window, frozen_window in Hz. nia.
Qed.

(** The reveal of a problem that waits for it keeps the counters within
    their bounds, so that its two additions stay in range. *)
Lemma reveal_bounded up team :
  few_submissions team → frozen (problems team !!! up) = true →
  counters_bounded team → counters_bounded (reveal up team).
Proof.
  intros Hfew Hfr HB p.
  destruct (reveal_fields up team) as (_ & Hsubs & _). rewrite Hsubs.
  destruct (decide (p = up)) as [->|Hne];
    [|rewrite reveal_lookup_total_ne by done; apply HB].
  pose proof (λ z, few_submissions_fits team up z Hfew) as Hfits.
  specialize (HB up). simpl in HB, Hfits.
  destruct HB as (Hsaf & Hfirst & Hwrong & Hone).
  rewrite Hfr in Hwrong. specialize (Hone Hfr).
  set (U := Z.of_nat (length (open_window up (submissions team)))) in *.
  set (F := Z.of_nat (length (frozen_window up (submissions team)))) in *.
  destruct (solved (problems team !!! up)) eqn:Hs.
  { rewrite (reveal_solved up team Hs). simpl. split_and!; try done; nia. }
  unfold reveal. rewrite touch_lookup_total.
  set (ps := problems team !!! up) in *.
  set (ps0 := mkProblemStatus (solved ps) (solve_time ps)
                (wrong_attempts_before_first_success ps)
                (wrong_attempts_before_freeze ps)
                (submissions_after_freeze ps) false).
  assert (solved ps0 = false) as Hs0 by done.
  destruct (first_accepted (frozen_window up (submissions team)))
    as [Hrej|(pre & acc & post & Hw & Hpre & Hacc)].
  - rewrite (replay_rejected _ up ps0 0 Hs0 Hrej). simpl.
    rewrite Hs. simpl. rewrite lookup_total_insert_eq. simpl. fold F.
    rewrite wrap_int_small by (apply Hfits; nia).
    split_and!; try done; nia.
  - rewrite (replay_accepted _ up ps0 0 pre acc post Hs0 Hw Hpre Hacc). simpl.
    rewrite lookup_total_insert_eq. simpl.
    assert (Z.of_nat (length pre) + 1 ≤ F)%Z as Hlen.
    { unfold F. rewrite Hw, length_app. simpl. lia. }
    rewrite wrap_int_small by (apply Hfits; nia).
    split_and!; try done; nia.
Qed.

Lemma window_snoc (f : Submission → bool) (l : list Submission) (x : Submission) :
  Z.of_nat (length (List.filter f (l ++ [x]))) =
  (Z.of_nat (length (List.filter f l)) + (if f x then 1 else 0))%Z.
Proof.
  rewrite List.filter_app, length_app. simpl. destruct (f x); simpl; lia.
Qed.

Lemma submit_bounded p n st t sys :
  counters_bounded (team_of sys n) →
  counters_bounded (team_of (submit p n st t sys) n).
Proof.
  intros HB q. rewrite submit_team_of. simpl.
  unfold open_window, frozen_window. rewrite !window_snoc. simpl.
  specialize (HB q). simpl in HB. unfold open_window, frozen_window in HB.
  destruct HB as (Hsaf & Hfirst & Hwrong & Hone).
  set (U := Z.of_nat (length (List.filter _ (submissions (team_of sys n))))) in *.
  set (F := Z.of_nat (length (List.filter _ (submissions (team_of sys n))))) in *.
  assert (0 ≤ U)%Z as HU by (unfold U; lia).
  assert (0 ≤ F)%Z as HF by (unfold F; lia).
  destruct (decide (q = p)) as [->|Hne].
  - rewrite lookup_total_insert_eq, String.eqb_refl. simpl.
    set (ps := problems (team_of sys n) !!! p) in *.
    destruct (is_frozen sys); simpl;
      destruct (solved ps); simpl; try destruct (String.eqb st "Accepted");
      simpl; destruct (frozen ps); simpl in *;
      repeat match goal with H : true = true → _ |- _ => specialize (H eq_refl) end;
      split_and!; try done; try nia.
  - rewrite lookup_total_insert_ne, touch_lookup_total by done.
    assert (String.eqb p q = false) as -> by (by apply String.eqb_neq).
    simpl. rewrite !Z.add_0_r. done.
Qed.

Lemma reachable_bounded sys :
  reachable sys →
  ∀ n, few_submissions (team_of sys n) → counters_bounded (team_of sys n).
Proof.
  induction 1 as [|sys c fuel out sys' Hr IH Hvalid Hex].
  { intros n _ p. unfold team_of. simpl.
    rewrite lookup_total_empty. simpl. rewrite lookup_total_empty. simpl.
    split_and!; done. }
  intros n.
  refine (execute_rel counters_kept _ _ _ _ _ _ _ fuel c sys out sys' n Hr Hex
            (IH n)); unfold counters_kept.
  - auto.
  - auto.
  - intros t1 t1' t2 t2' (Hp1 & Hs1 & _)%payload_eq_fields
      (Hp2 & Hs2 & _)%payload_eq_fields H.
    unfold few_submissions, counters_bounded in *.
    rewrite <- Hp1, <- Hs1, <- Hp2, <- Hs2. exact H.
  - intros s t Hfr H Hfew. rewrite revealed_reveal.
    unfold few_submissions in Hfew. rewrite revealed_submissions in Hfew.
    apply reveal_bounded.
    + done.
    + simpl. by rewrite find_unfreeze_problem_lookup_total.
    + intros q. simpl. rewrite find_unfreeze_problem_lookup_total. by apply H.
  - intros t H Hfew q. cbv zeta. rewrite reset_problems_lookup_total.
    destruct (H Hfew q) as (? & ? & ? & ?). simpl in *.
    split_and!; try done; lia.
  - intros m _ _ q. simpl. rewrite lookup_total_empty. simpl. split_and!; done.
  - intros q m st t s H Hfew. apply submit_bounded, H.
    unfold few_submissions in *. rewrite submit_team_of in Hfew. simpl in Hfew.
    rewrite length_app in Hfew. simpl in Hfew. lia.
Qed.

(** X19.  In every reachable state the three counters of every problem of a
    team (wrong attempts before the first success, wrong attempts before the
    freeze, submissions made while frozen) are not negative, as long as the
    team has made at most 46340 submissions: up to there the additions of a
    reveal stay in the range of an [int]. *)
Theorem counters_never_negative (sys : ICPCSystem) (n p : string) :
  reachable sys →
  (Z.of_nat (length (submissions (team_of sys n))) ≤ 46340)%Z →
  counters_nonneg (status_of sys n p).
Proof.
  intros Hr Hfew.
  destruct (reachable_bounded sys Hr n Hfew p) as (? & [? _] & [? _] & _).
  by split_and!.
Qed.

Lemma counters_never_negative_witness :
  counters_nonneg (status_of solved_then_frozen "a" "B").
Proof.
  apply (counters_never_negative solved_then_frozen "a" "B").
  - exact solved_then_frozen_reachable.
  - vm_compute. discriminate.
Defined.

(** The count of submissions made while frozen is only ever incremented or
    reset: it is never negative. *)
Lemma replay_queue subs p ps add :
  submissions_after_freeze (replay subs p ps add).1 = submissions_after_freeze ps.
Proof.
  revert ps add. induction subs as [|sub subs IH]; intros ps add; simpl; [done|].
  destruct (_ && _); [|apply IH].
  destruct (solved ps); simpl; [apply IH|].
  destruct (String.eqb _ _); by rewrite IH.
Qed.

Lemma reachable_queue sys :
  reachable sys →
  ∀ n p, (0 ≤ submissions_after_freeze (status_of sys n p))%Z.
Proof.
  intros Hr n. change (∀ p, (0 ≤ submissions_after_freeze
                                   (problems (team_of sys n) !!! p))%Z).
  revert n. induction Hr as [|sys c fuel out sys' Hr IH Hvalid Hex].
  { intros n p. unfold team_of. simpl.
    rewrite lookup_total_empty. simpl. by rewrite lookup_total_empty. }
  intros n.
  refine (execute_rel queue_kept _ _ _ _ _ _ _ fuel c sys out sys' n Hr Hex
            (IH n)); unfold queue_kept.
  - auto.
  - auto.
  - intros t1 t1' t2 t2' [H1 _]%payload_eq_fields [H2 _]%payload_eq_fields H.
    rewrite <- H1, <- H2. exact H.
  - intros s t _ H q. rewrite revealed_reveal.
    destruct (decide (q = next_problem s t)) as [->|Hne].
    + unfold reveal. rewrite touch_lookup_total.
      set (ps0 := mkProblemStatus _ _ _ _ _ false).
      pose proof (replay_queue (submissions t) (next_problem s t) ps0 0) as Hq.
      simpl submissions. 
      destruct (replay (submissions t) (next_problem s t) ps0 0) as [ps add].
      simpl in *. rewrite lookup_total_insert_eq.
      specialize (H (next_problem s t)).
      rewrite find_unfreeze_problem_lookup_total in Hq.
      destruct (negb (solved ps)); simpl; lia.
    + rewrite reveal_lookup_total_ne by done. simpl.
      rewrite find_unfreeze_problem_lookup_total. apply H.
  - intros t H q. rewrite reset_problems_lookup_total. done.
  - intros m _ q. simpl. by rewrite lookup_total_empty.
  - intros q m st t s H r. rewrite submit_team_of. simpl.
    destruct (decide (r = q)) as [->|Hne].
    + rewrite lookup_total_insert_eq. specialize (H q).
      destruct (is_frozen s), (negb _); try destruct (String.eqb _ _);
        simpl; lia.
    + rewrite lookup_total_insert_ne, touch_lookup_total by done. apply H.
Qed.

(** ** Frozen flags *)

Lemma reachable_frozen_counted sys :
  reachable sys → "" ∉ team_order sys →
  ∀ n p, n ∈ team_order sys → frozen_at sys n p = true →
    (1 ≤ submissions_after_freeze (status_of sys n p))%Z.
Proof.
  induction 1 as [|sys c fuel out sys' Hr IH Hvalid Hex]; intros Hne n p Hn Hfr.
  { by apply elem_of_nil in Hn. }
  assert ("" ∉ team_order sys) as Hne0.
  { intros Hin. apply Hne. by eapply execute_team_order. }
  specialize (IH Hne0).
  destruct (reachable_inv sys Hr) as [Hok Hinv].
  destruct c as [tn|d k|pr tn st0 t0| | | |tn|tn qp qs|]; simpl in Hex.
  6: { assert (reachable sys') as Hr' by (by eapply reachable_step).
       destruct (reachable_frozen_unsolved sys' Hr' Hne n p Hn Hfr) as [Hf' _].
       destruct (scroll_fields fuel sys out sys' Hex Hok Hinv) as [_ Hf].
       unfold scroll in Hex. destruct (is_frozen sys) eqn:E; simpl in Hex.
       - rewrite Hf in Hf'; done.
       - injection Hex as _ <-. congruence. }
  all: apply (f_equal (fmap snd)) in Hex; simpl in Hex; injection Hex as <-.
  - unfold add_team in *. destruct (competition_started sys); [by apply IH|].
    case_bool_decide as Hex; [by apply IH|].
    unfold frozen_at, status_of, team_of in *. simpl in *.
    destruct (decide (n = tn)) as [->|Hnt].
    + by rewrite lookup_total_insert_eq in Hfr.
    + rewrite lookup_total_insert_ne in * by done. apply IH; [|done].
      apply elem_of_app in Hn as [?|Hn%list_elem_of_singleton]; done.
  - unfold start_competition in *.
    destruct (competition_started sys); [by apply IH|].
    assert (payload <$> assign_rankings (sort_by String.ltb (team_order sys)) 0
                          (teams sys) = payload <$> teams sys) as Hpay.
    { apply assign_rankings_payload. rewrite sort_by_perm. apply Hok. }
    unfold frozen_at, status_of, team_of in *. simpl in *.
    rewrite (payload_eq_problems _ _ n Hpay) in *. by apply IH.
  - pose proof (reachable_queue sys Hr tn pr) as Hsaf. unfold status_of in Hsaf.
    unfold frozen_at, status_of in *.
    destruct (decide (n = tn)) as [->|Hnt].
    + rewrite submit_team_of in *. simpl in *.
      destruct (decide (p = pr)) as [->|Hpq].
      * rewrite lookup_total_insert_eq in *. specialize (IH tn pr Hn).
        unfold status_of in IH.
        destruct (is_frozen sys), (negb _); try destruct (String.eqb _ _);
          simpl in *; auto; lia.
      * rewrite lookup_total_insert_ne, touch_lookup_total in * by done.
        by apply IH.
    + rewrite submit_team_of_ne in * by done. by apply IH.
  - destruct (flush_scoreboard_fields sys) as (Ho & _).
    pose proof (flush_scoreboard_payload sys Hok) as Hpay.
    unfold frozen_at, status_of, team_of in *.
    rewrite (payload_eq_problems _ _ n Hpay) in *. apply IH; [congruence|done].
  - unfold freeze in *. destruct (is_frozen sys); by apply IH.
  - by apply IH.
  - by apply IH.
  - by apply IH.
Qed.

(** X20.  In a reachable state without a team of empty name, a problem of a
    registered team carries the frozen flag only while the scoreboard is
    frozen; the problem is then unsolved, belongs to the problem set, and at
    least one submission to it was counted since the freeze. *)
Theorem frozen_flag_invariant (sys : ICPCSystem) (n p : string) :
  reachable sys → "" ∉ team_order sys → n ∈ team_order sys →
  frozen (status_of sys n p) = true →
  is_frozen sys = true
  ∧ solved (status_of sys n p) = false
  ∧ p ∈ problem_names sys
  ∧ (1 ≤ submissions_after_freeze (status_of sys n p))%Z.
Proof.
  intros Hr Hne Hn Hfr.
  destruct (reachable_frozen_unsolved sys Hr Hne n p Hn Hfr) as [? ?].
  destruct (reachable_inv sys Hr) as [_ Hinv].
  split_and!; [done|done|by apply (Hinv n p)|].
  by apply reachable_frozen_counted.
Qed.

Lemma frozen_flag_invariant_witness :
  is_frozen two_teams_frozen = true
  ∧ solved (status_of two_teams_frozen "b" "A") = false
  ∧ "A" ∈ problem_names two_teams_frozen
  ∧ (1 ≤ submissions_after_freeze (status_of two_teams_frozen "b" "A"))%Z.
Proof.
  apply (frozen_flag_invariant two_teams_frozen "b" "A").
  - exact two_teams_frozen_reachable.
  - exact two_teams_frozen_names.
  - vm_compute. right. left.
  - reflexivity.
Defined.

(** X21.  After a scroll, in a contest without a team of empty name, no
    problem of a registered team is frozen any more. *)
Theorem scroll_clears_frozen_flags (fuel : nat) (sys : ICPCSystem)
    (out : string) (sys' : ICPCSystem) :
  reachable sys → "" ∉ team_order sys →
  scroll fuel sys = Some (out, sys') →
  ∀ n p, n ∈ team_order sys' → frozen (status_of sys' n p) = false.
Proof.
  intros Hr Hne Hscroll n p Hn.
  destruct (reachable_inv sys Hr) as [Hok Hinv].
  destruct (scroll_fields fuel sys out sys' Hscroll Hok Hinv)
    as [(Ho & _) Hf].
  assert (reachable sys') as Hr'.
  { by apply (reachable_step sys SCROLL fuel out sys'). }
  assert ("" ∉ team_order sys') as Hne' by (by rewrite Ho).
  destruct (frozen (status_of sys' n p)) eqn:Hfr; [|done].
  destruct (reachable_frozen_unsolved sys' Hr' Hne' n p Hn Hfr) as [Hf' _].
  unfold scroll in Hscroll. destruct (is_frozen sys) eqn:E; simpl in Hscroll.
  - rewrite Hf in Hf'; done.
  - injection Hscroll as _ <-. congruence.
Qed.

Lemma scroll_clears_frozen_flags_witness :
  ∃ out sys', scroll 2 two_teams_frozen = Some (out, sys')
    ∧ frozen (status_of sys' "b" "A") = false.
Proof.
  eexists _, _. split; [vm_compute; reflexivity|].
  eapply (scroll_clears_frozen_flags 2 two_teams_frozen).
  - exact two_teams_frozen_reachable.
  - exact two_teams_frozen_names.
  - vm_compute. reflexivity.
  - vm_compute. right. left.
Defined.

(** ** The order of the reveals *)

Lemma find_lowest_team_later sorted k ts :
  Forall (λ n, is_Some (ts !! n)) sorted → (k ≤ length sorted)%nat →
  let r := (find_lowest_team sorted k ts).1 in
  r ≠ "" →
  ∃ i, (i < k)%nat ∧ sorted !! i = Some r
    ∧ ∀ j m, (i < j < k)%nat → sorted !! j = Some m →
        has_frozen (ts !!! m) = false.
Proof.
  intros Hreg. induction k as [|k IH]; intros Hk; simpl; [done|].
  assert (k < length sorted)%nat as Hlt by lia.
  destruct (lookup_lt_is_Some_2 sorted k Hlt) as [x Hx].
  pose proof (nth_lookup_Some sorted k "" x Hx) as Hnth.
  rewrite Hnth.
  assert (is_Some (ts !! x)) as Hsome.
  { rewrite Forall_forall in Hreg. apply Hreg. by eapply list_elem_of_lookup_2. }
  rewrite (touch_present x ts Hsome).
  destruct (has_frozen (ts !!! x)) eqn:Hfr; simpl.
  - intros _. exists k. split_and!; [lia|done|]. intros j m Hj. lia.
  - intros Hr. destruct IH as (i & Hi & Hri & Hlater); [lia|done|].
    exists i. split_and!; [lia|done|]. intros j m Hj Hm.
    destruct (decide (j = k)) as [->|Hjk].
    + by assert (m = x) as -> by congruence.
    + apply (Hlater j m); [lia|done].
Qed.

Lemma find_unfreeze_problem_first pnames pm :
  (∃ q, q ∈ pnames ∧ frozen (pm !!! q) = true) →
  let up := (find_unfreeze_problem pnames pm).1 in
  ∃ pre post, pnames = (pre ++ up :: post)%list
    ∧ ∀ q, q ∈ pre → frozen (pm !!! q) = false.
Proof.
  revert pm. induction pnames as [|pn pnames IH]; intros pm (q & Hq & Hfr); simpl.
  { by apply elem_of_nil in Hq. }
  rewrite touch_lookup_total.
  destruct (frozen (pm !!! pn)) eqn:Hpn; simpl.
  - exists [], pnames. split; [done|]. intros q' Hq'. by apply elem_of_nil in Hq'.
  - destruct (IH (touch pn pm)) as (pre & post & Heq & Hpre).
    { exists q. apply elem_of_cons in Hq as [->|Hq]; [congruence|].
      by rewrite touch_lookup_total. }
    exists (pn :: pre), post. split; [simpl; by rewrite <- Heq|].
    intros q' [->|Hq']%elem_of_cons; [done|].
    rewrite <- (touch_lookup_total pn q' pm). by apply Hpre.
Qed.

Lemma lowest_team_sorted sys :
  registry_ok sys →
  lowest_team sys =
  (find_lowest_team (sort_by (rank_lt false (teams sys)) (team_order sys))
     (length (team_order sys)) (teams sys)).1.
Proof.
  intros [Hnd Hreg]. unfold lowest_team.
  destruct (std_sort_by_rank (teams sys) (team_order sys) Hreg) as [Hs Hc].
  destruct (std_sort by_rank (team_order sys) (teams sys)) as [sorted ts].
  simpl in *. subst sorted.
  pose proof (sort_by_perm (rank_lt false (teams sys)) (team_order sys)) as Hperm.
  rewrite (Permutation_length Hperm).
  apply find_lowest_team_core; [| |done].
  - rewrite Hperm. eapply Forall_impl; [exact Hreg|]. intros n Hn. simpl in *.
    by apply (fmap_eq_is_Some core (teams sys)).
  - by rewrite (Permutation_length Hperm).
Qed.

(** X22.  Every reveal of a scroll takes the team with the largest rank
    number among the registered teams that still have a frozen problem, and
    of this team the first frozen problem in the order of the problem set. *)
Theorem scroll_reveal_order (sys0 s : ICPCSystem) (out : string)
    (s' : ICPCSystem) :
  reachable sys0 → in_scroll sys0 s →
  scroll_iteration s = (Continue out, s') →
  let X := lowest_team s in
  let p := next_problem s (team_of s X) in
  X ∈ team_order s
  ∧ frozen (status_of s X p) = true
  ∧ (∀ m q, m ∈ team_order s →
       (ranking (team_of s X) < ranking (team_of s m))%Z →
       frozen (status_of s m q) = false)
  ∧ ∃ pre post, problem_names s = (pre ++ p :: post)%list
      ∧ ∀ q, q ∈ pre → frozen (status_of s X q) = false.
Proof.
  intros Hr Hin Hit. simpl.
  destruct (reachable_inv sys0 Hr) as [Hok0 Hinv0].
  destruct (in_scroll_inv sys0 s Hok0 Hinv0 Hin) as (Hok & Hinv & Hcur & _).
  assert (lowest_team s ≠ "") as Hne.
  { intros He. destruct (scroll_iteration_break s Hok He) as (? & ? & _).
    congruence. }
  destruct (scroll_iteration_continue s Hok Hne)
    as (_ & _ & _ & HX & HfrX & _).
  assert (∀ q, frozen (problems (team_of s (lowest_team s)) !!! q) = true →
               q ∈ problem_names s) as Hset.
  { intros q Hq. by apply (Hinv (lowest_team s) q). }
  destruct (next_problem_frozen s (team_of s (lowest_team s)) HfrX Hset)
    as [Hp Hpfr].
  split_and!; [done|done| |].
  - intros m q Hm Hlt.
    pose proof (lowest_team_sorted s Hok) as Hlow.
    set (sorted := sort_by (rank_lt false (teams s)) (team_order s)) in *.
    assert (sorted ≡ₚ team_order s) as Hperm by apply sort_by_perm.
    destruct Hok as [Hnd Hreg].
    destruct (find_lowest_team_later sorted (length (team_order s)) (teams s))
      as (i & Hi & HiX & Hlater).
    { by rewrite Hperm. }
    { by rewrite (Permutation_length Hperm). }
    { by rewrite <- Hlow. }
    rewrite <- Hlow in HiX.
    assert (m ∈ sorted) as Hms by (by rewrite Hperm).
    apply list_elem_of_lookup_1 in Hms as [j Hj].
    rewrite (Hcur m Hm), (Hcur _ HX) in Hlt.
    rewrite (sorted_rank (teams s) (team_order s) j m Hnd Hj) in Hlt.
    rewrite (sorted_rank (teams s) (team_order s) i _ Hnd HiX) in Hlt.
    assert (has_frozen (teams s !!! m) = false) as Hnone.
    { apply (Hlater j m); [|done]. split; [lia|].
      rewrite <- (Permutation_length Hperm). by eapply lookup_lt_Some. }
    destruct (frozen (status_of s m q)) eqn:Hfr; [|done].
    assert (has_frozen (teams s !!! m) = true); [|congruence].
    apply has_frozen_exists. by exists q.
  - apply (find_unfreeze_problem_first (problem_names s)
             (problems (team_of s (lowest_team s)))).
    exists (next_problem s (team_of s (lowest_team s))). done.
Qed.

Lemma scroll_reveal_order_witness :
  let s := (scroll_entry two_teams_frozen).2 in
  lowest_team s ∈ team_order s
  ∧ frozen (status_of s (lowest_team s) (next_problem s (team_of s (lowest_team s))))
    = true.
Proof.
  destruct (scroll_reveal_order two_teams_frozen (scroll_entry two_teams_frozen).2
              ("b a 1 20" +:+ nl)
              (scroll_iteration (scroll_entry two_teams_frozen).2).2)
    as (H1 & H2 & _).
  - exact two_teams_frozen_reachable.
  - apply in_scroll_entry.
  - vm_compute. reflexivity.
  - split; [exact H1|exact H2].
Defined.

(** ** Submissions that do not move the order *)

Lemma compare_stats_ext t1 t2 t1' t2' a b :
  solved_count t1' = solved_count t1 → penalty_time t1' = penalty_time t1 →
  solve_times t1' = solve_times t1 →
  solved_count t2' = solved_count t2 → penalty_time t2' = penalty_time t2 →
  solve_times t2' = solve_times t2 →
  compare_stats t1' t2' a b = compare_stats t1 t2 a b.
Proof. unfold compare_stats. by intros -> -> -> -> -> ->. Qed.

Lemma rank_lt_visible inc ts ts' a b :
  (∀ m, visible inc (problems (ts' !!! m)) ≡ₚ visible inc (problems (ts !!! m))) →
  rank_lt inc ts' a b = rank_lt inc ts a b.
Proof.
  intros H. unfold rank_lt. rewrite !compare_teams_fst.
  destruct (calculate_team_stats_visible (ts' !!! a) (ts !!! a) inc (H a))
    as (? & ? & ?).
  destruct (calculate_team_stats_visible (ts' !!! b) (ts !!! b) inc (H b))
    as (? & ? & ?).
  by apply compare_stats_ext.
Qed.

Lemma rank_of_ext ts ts' order n :
  (∀ a b, rank_lt false ts' a b = rank_lt false ts a b) →
  rank_of ts' order n = rank_of ts order n.
Proof.
  intros H. unfold rank_of. do 3 f_equal.
  apply filter_ext. intros m. apply H.
Qed.

Lemma submit_visible p n st t sys m :
  is_frozen sys = true ∨ st ≠ "Accepted" ∨ solved (status_of sys n p) = true →
  visible false (problems (team_of (submit p n st t sys) m))
  ≡ₚ visible false (problems (team_of sys m)).
Proof.
  intros Hcase. destruct (decide (m = n)) as [->|Hne];
    [|by rewrite submit_team_of_ne].
  rewrite submit_team_of. simpl. rewrite !visible_keep.
  erewrite (keep_ext (counted false) eq_refl); [done|].
  intros q. destruct (decide (q = p)) as [->|Hq].
  - rewrite lookup_total_insert_eq. unfold status_of in Hcase.
    set (ps := problems (team_of sys n) !!! p) in *.
    destruct (solved ps) eqn:Hs; simpl.
    { by destruct (is_frozen sys). }
    destruct (is_frozen sys) eqn:Hfr.
    { unfold counted. simpl. rewrite Hs. simpl. intros [|]; done. }
    destruct (String.eqb st "Accepted") eqn:Hst.
    { apply String.eqb_eq in Hst. destruct Hcase as [|[|]]; done. }
    unfold counted. simpl. rewrite Hs. simpl. intros [|]; done.
  - by rewrite lookup_total_insert_ne, touch_lookup_total.
Qed.

(** X23.  Only a submission that solves a problem in the open can move the
    order.  A submission made while the scoreboard is frozen, a submission
    with a verdict other than [Accepted], and a submission to a solved
    problem leave every comparison of two teams as it is, and with it every
    rank that a flush computes. *)
Theorem submit_order_changes_only_by_solving (p n st : string) (t : Z)
    (sys : ICPCSystem) :
  is_frozen sys = true ∨ st ≠ "Accepted" ∨ solved (status_of sys n p) = true →
  let sys' := submit p n st t sys in
  (∀ a b, (compare_teams a b false (teams sys')).1 =
          (compare_teams a b false (teams sys)).1)
  ∧ (reachable sys → n ∈ team_order sys → p ∈ problem_names sys →
     ∀ m, m ∈ team_order sys →
       ranking (team_of (flush_scoreboard sys') m) =
       ranking (team_of (flush_scoreboard sys) m)).
Proof.
  intros Hcase. simpl.
  assert (∀ a b, rank_lt false (teams (submit p n st t sys)) a b =
                 rank_lt false (teams sys) a b) as Hlt.
  { intros a b. apply rank_lt_visible. intros m.
    by apply (submit_visible p n st t sys m). }
  split; [exact Hlt|]. intros Hr Hn Hp m Hm.
  destruct (reachable_inv sys Hr) as [Hok Hinv].
  destruct (submit_inv p n st t sys Hn Hp Hok Hinv) as [Hok' _].
  rewrite !flush_scoreboard_ranking by done. by apply rank_of_ext.
Qed.

Lemma submit_order_changes_only_by_solving_witness :
  (compare_teams "a" "b" false
     (teams (submit "A" "b" "Accepted" 40 two_teams_frozen))).1 =
  (compare_teams "a" "b" false (teams two_teams_frozen)).1.
Proof.
  destruct (submit_order_changes_only_by_solving "A" "b" "Accepted" 40
              two_teams_frozen) as [H _].
  - left. reflexivity.
  - exact (H "a" "b").
Defined.

(** ** The ranks after a scroll *)

Lemma filter_map_swap {A B} (f : B → bool) (g : A → B) l :
  List.filter f (map g l) = map g (List.filter (λ x, f (g x)) l).
Proof.
  induction l as [|x l IH]; simpl; [done|].
  destruct (f (g x)); simpl; by rewrite IH.
Qed.

Lemma visible_fmap inc (g : ProblemStatus → ProblemStatus) pm :
  (∀ ps, counted inc (g ps) = counted inc ps) →
  visible inc (g <$> pm) ≡ₚ map g (visible inc pm).
Proof.
  intros Hg. unfold visible.
  etrans; [apply List_filter_perm, Permutation_map, map_items_perm|].
  rewrite map_to_list_fmap.
  change (prod_map id g <$> map_to_list pm)
    with (map (prod_map id g) (map_to_list pm)).
  rewrite map_map. simpl. rewrite <- (map_map snd g), filter_map_swap.
  apply Permutation_map.
  rewrite (filter_ext _ (counted inc)) by done.
  apply List_filter_perm, Permutation_map. symmetry. apply map_items_perm.
Qed.

Lemma calculate_team_stats_reset t inc :
  solved_count (calculate_team_stats (reset_team t) inc) =
    solved_count (calculate_team_stats t inc)
  ∧ penalty_time (calculate_team_stats (reset_team t) inc) =
    penalty_time (calculate_team_stats t inc)
  ∧ solve_times (calculate_team_stats (reset_team t) inc) =
    solve_times (calculate_team_stats t inc).
Proof.
  rewrite !calculate_team_stats_spec. simpl.
  pose proof (visible_fmap inc reset_submissions_after_freeze (problems t)
                ltac:(done)) as Hv.
  split_and!.
  - f_equal. rewrite (Permutation_length Hv). by rewrite length_map.
  - rewrite (sumZ_perm _ _ (Permutation_map penalty Hv)). by rewrite map_map.
  - rewrite (sort_reversed_perm_eq _ _ (Permutation_map solve_time Hv)).
    by rewrite map_map.
Qed.

Lemma rank_lt_reset ts a b :
  rank_lt false (reset_team <$> ts) a b = rank_lt false ts a b.
Proof.
  unfold rank_lt. rewrite !compare_teams_fst, !reset_team_lookup_total.
  destruct (calculate_team_stats_reset (ts !!! a) false) as (? & ? & ?).
  destruct (calculate_team_stats_reset (ts !!! b) false) as (? & ? & ?).
  by apply compare_stats_ext.
Qed.

Lemma scroll_loop_current fuel sys out sys' :
  scroll_loop fuel sys = Some (out, sys') →
  registry_ok sys → frozen_in_problem_set sys →
  ranks_current sys → ranks_current sys'.
Proof.
  revert sys out. induction fuel as [|fuel IH]; intros sys out Hloop Hok Hinv Hc;
    simpl in Hloop; [done|].
  destruct (scroll_iteration sys) as [[|line] sys1] eqn:Hit.
  - injection Hloop as _ <-.
    destruct (scroll_iteration_stop sys sys1 Hok Hinv Hit)
      as (_ & _ & Hcore & Ho & _).
    apply (ranks_current_core sys); [by symmetry|done|done].
  - destruct (scroll_loop fuel sys1) as [[out2 sys2]|] eqn:Hrest; [|done].
    injection Hloop as _ <-.
    destruct (scroll_iteration_step sys line sys1 Hok Hinv Hit)
      as (Hok1 & Hinv1 & Hcur1 & _).
    by apply (IH sys1 out2).
Qed.

Lemma scroll_current fuel sys out sys' :
  scroll fuel sys = Some (out, sys') → is_frozen sys = true →
  registry_ok sys → frozen_in_problem_set sys → ranks_current sys'.
Proof.
  unfold scroll. intros Hscroll Hfr Hok Hinv. rewrite Hfr in Hscroll.
  simpl in Hscroll.
  destruct (scroll_entry_inv sys Hok Hinv) as (Hok1 & Hinv1 & Hcur1 & _).
  destruct (scroll_entry sys) as [out1 sys1]. simpl in *.
  destruct (scroll_loop fuel sys1) as [[out2 sys2]|] eqn:Hloop; [|done].
  destruct (scroll_loop_inv fuel sys1 out2 sys2 Hloop Hok1 Hinv1) as (Hok2 & _).
  pose proof (scroll_loop_current fuel sys1 out2 sys2 Hloop Hok1 Hinv1 Hcur1)
    as Hcur2.
  destruct (print_scoreboard_fields sys2) as (Ho3 & _).
  pose proof (print_scoreboard_core sys2 Hok2) as Hc3.
  assert (ranks_current (print_scoreboard sys2).2) as Hcur3.
  { apply (ranks_current_core sys2); [by symmetry|done|done]. }
  destruct (print_scoreboard sys2) as [out3 sys3]. simpl in *.
  injection Hscroll as _ <-. intros n Hn. simpl in Hn.
  unfold team_of. simpl. rewrite reset_team_lookup_total.
  rewrite (rank_of_ext (teams sys3)) by apply rank_lt_reset.
  rewrite <- (Hcur3 n Hn). done.
Qed.

Lemma flush_current_query sys n :
  reachable sys → ranks_current sys →
  query_ranking n (flush sys).2 = query_ranking n sys.
Proof.
  intros Hr Hcur. destruct (reachable_inv sys Hr) as [Hok Hinv].
  unfold flush. simpl.
  destruct (flush_scoreboard_fields sys) as (_ & _ & Hf & _).
  pose proof (flush_scoreboard_payload sys Hok) as Hp.
  unfold query_ranking. rewrite Hf.
  destruct (teams sys !! n) as [t1|] eqn:E1.
  - assert (n ∈ team_order sys) as Hn.
    { apply (reachable_registry sys n Hr). eauto. }
    destruct (fmap_eq_is_Some payload (teams sys) (teams (flush_scoreboard sys)) n)
      as [t2 E2]; [done|eauto|].
    rewrite E2.
    assert (ranking t2 = ranking t1) as ->; [|done].
    pose proof (flush_scoreboard_ranking sys n Hok Hn) as H2.
    rewrite <- (Hcur n Hn) in H2. unfold team_of in H2.
    by rewrite (lookup_total_correct _ _ _ E2),
      (lookup_total_correct _ _ _ E1) in H2.
  - destruct (teams (flush_scoreboard sys) !! n) as [t2|] eqn:E2; [|done].
    destruct (fmap_eq_is_Some payload (teams (flush_scoreboard sys)) (teams sys) n)
      as [t1 E1']; [done|eauto|congruence].
Qed.

(** X24.  A scroll leaves the ranks up to date: in the state it returns the
    rank of every registered team is the one a ranking pass computes, so
    that a flush right after a scroll changes no answer of
    [query_ranking]. *)
Theorem scroll_leaves_ranks_current (fuel : nat) (sys : ICPCSystem)
    (out : string) (sys' : ICPCSystem) :
  reachable sys → is_frozen sys = true →
  scroll fuel sys = Some (out, sys') →
  (∀ n, n ∈ team_order sys' →
     ranking (team_of sys' n) = rank_of (teams sys') (team_order sys') n)
  ∧ ∀ n, query_ranking n (flush sys').2 = query_ranking n sys'.
Proof.
  intros Hr Hfr Hscroll. destruct (reachable_inv sys Hr) as [Hok Hinv].
  pose proof (scroll_current fuel sys out sys' Hscroll Hfr Hok Hinv) as Hcur.
  split; [exact Hcur|]. intros n. apply flush_current_query; [|done].
  by apply (reachable_step sys SCROLL fuel out sys').
Qed.

Lemma scroll_leaves_ranks_current_witness :
  ∃ out sys', scroll 2 two_teams_frozen = Some (out, sys')
    ∧ query_ranking "b" (flush sys').2 = query_ranking "b" sys'.
Proof.
  eexists _, _. split; [vm_compute; reflexivity|].
  refine (proj2 (scroll_leaves_ranks_current 2 two_teams_frozen _ _
                   two_teams_frozen_reachable eq_refl _) "b").
  vm_compute. reflexivity.
Defined.

(** ** A reveal and the rest of the state *)

(** X25.  A reveal touches one problem of one team: the other teams keep
    their problems and their histories, the revealed team keeps the statuses
    of its other problems and its history, and the team list, the problem
    set and the two flags of the contest stay as they are. *)
Theorem scroll_reveal_frame (sys0 s : ICPCSystem) (out : string)
    (s' : ICPCSystem) :
  reachable sys0 → in_scroll sys0 s →
  scroll_iteration s = (Continue out, s') →
  let X := lowest_team s in
  let p := next_problem s (team_of s X) in
  (∀ n, n ≠ X →
     problems (team_of s' n) = problems (team_of s n)
     ∧ submissions (team_of s' n) = submissions (team_of s n))
  ∧ (∀ q, q ≠ p → status_of s' X q = status_of s X q)
  ∧ submissions (team_of s' X) = submissions (team_of s X)
  ∧ same_contest s s' ∧ is_frozen s' = is_frozen s.
Proof.
  intros Hr Hin Hit. simpl.
  destruct (reachable_inv sys0 Hr) as [Hok0 Hinv0].
  destruct (in_scroll_inv sys0 s Hok0 Hinv0 Hin) as (Hok & Hinv & _).
  assert (lowest_team s ≠ "") as Hne.
  { intros He. destruct (scroll_iteration_break s Hok He) as (? & ? & _).
    congruence. }
  destruct (scroll_iteration_continue s Hok Hne)
    as (out' & s'' & Hit' & _ & _ & Ho & Hn & Hf & Hs & Hp & _).
  assert (s'' = s') as -> by congruence.
  pose proof (payload_insert_eq (teams s) (teams s') _ _ Hp) as HX.
  apply payload_eq_fields in HX as (HXp & HXs & _).
  split_and!; try done.
  - intros n Hn'.
    pose proof (payload_insert_ne (teams s) (teams s') _ _ n Hp Hn') as Hpn.
    by apply payload_eq_fields in Hpn as (? & ? & _).
  - intros q Hq. unfold status_of, team_of in *. rewrite HXp.
    destruct (revealed_problems s (teams s !!! lowest_team s)) as [_ H].
    by apply H.
  - unfold team_of in *. rewrite HXs. apply revealed_submissions.
Qed.

Lemma scroll_reveal_frame_witness :
  let s := (scroll_entry two_teams_frozen).2 in
  submissions (team_of (scroll_iteration s).2 (lowest_team s)) =
  submissions (team_of s (lowest_team s)).
Proof.
  destruct (scroll_reveal_frame two_teams_frozen (scroll_entry two_teams_frozen).2
              ("b a 1 20" +:+ nl)
              (scroll_iteration (scroll_entry two_teams_frozen).2).2)
    as (_ & _ & H & _).
  - exact two_teams_frozen_reachable.
  - apply in_scroll_entry.
  - vm_compute. reflexivity.
  - exact H.
Defined.

(** ** A scroll with nothing to reveal *)

Lemma find_lowest_team_no_frozen sorted k ts :
  Forall (λ n, is_Some (ts !! n)) sorted → (k ≤ length sorted)%nat →
  (∀ m, m ∈ sorted → has_frozen (ts !!! m) = false) →
  (find_lowest_team sorted k ts).1 = "".
Proof.
  intros Hreg Hk Hnone. induction k as [|k IH]; simpl; [done|].
  assert (k < length sorted)%nat as Hlt by lia.
  pose proof (nth_elem_of sorted k Hlt) as Hin.
  assert (is_Some (ts !! nth k sorted "")) as Hsome.
  { rewrite Forall_forall in Hreg. by apply Hreg. }
  rewrite (touch_present _ ts Hsome), (Hnone _ Hin). apply IH. lia.
Qed.

Lemma print_scoreboard_core_out s s' :
  registry_ok s → registry_ok s' →
  core <$> teams s = core <$> teams s' →
  team_order s' = team_order s → problem_names s' = problem_names s →
  (print_scoreboard s').1 = (print_scoreboard s).1.
Proof.
  intros Hok Hok' Hc Ho Hn.
  rewrite !print_scoreboard_rows by done. rewrite Ho, Hn.
  rewrite (sort_by_ext (rank_lt false (teams s')) (rank_lt false (teams s))).
  - apply scoreboard_rows_core. intros n. symmetry.
    by apply (fmap_eq_lookup_total core).
  - intros a b. apply rank_lt_payload. symmetry. by apply core_payload_eq.
Qed.

(** X26.  A scroll of a frozen scoreboard on which no registered team has a
    frozen problem reveals nothing: it prints its header and the same
    listing twice, without any line in between, and unfreezes. *)
Theorem scroll_nothing_to_reveal (sys : ICPCSystem) (k : nat) :
  reachable sys → is_frozen sys = true →
  (∀ n p, n ∈ team_order sys → frozen (status_of sys n p) = false) →
  let listing := (print_scoreboard (flush_scoreboard sys)).1 in
  ∃ sys', scroll (S k) sys =
            Some ("[Info]Scroll scoreboard." +:+ nl +:+ listing +:+ listing, sys')
    ∧ is_frozen sys' = false.
Proof.
  intros Hr Hfr Hnone. simpl.
  destruct (reachable_inv sys Hr) as [Hok Hinv].
  destruct (scroll_entry_inv sys Hok Hinv) as (Hok1 & Hinv1 & _ & Ho1 & Hn1 & _).
  destruct (flush_scoreboard_inv sys Hok Hinv) as (Hokf & _).
  assert (core <$> teams (scroll_entry sys).2 =
          core <$> teams (flush_scoreboard sys)) as Hc1.
  { unfold scroll_entry. by apply print_scoreboard_core. }
  assert (payload <$> teams (scroll_entry sys).2 = payload <$> teams sys) as Hp1.
  { rewrite <- (flush_scoreboard_payload sys Hok). by apply core_payload_eq. }
  assert ((scroll_entry sys).1 = (print_scoreboard (flush_scoreboard sys)).1)
    as Hout1 by done.
  assert (lowest_team (scroll_entry sys).2 = "") as Hlow.
  { rewrite (lowest_team_sorted _ Hok1).
    pose proof (sort_by_perm (rank_lt false (teams (scroll_entry sys).2))
                  (team_order (scroll_entry sys).2)) as Hperm.
    apply find_lowest_team_no_frozen.
    - rewrite Hperm. apply Hok1.
    - by rewrite (Permutation_length Hperm).
    - intros m Hm. rewrite Hperm, Ho1 in Hm.
      rewrite (has_frozen_problems _ (teams sys !!! m))
        by (by apply payload_eq_problems).
      destruct (has_frozen (teams sys !!! m)) eqn:Hhf; [|done].
      apply has_frozen_exists in Hhf as [p Hp].
      specialize (Hnone m p Hm). unfold status_of, team_of in Hnone. congruence. }
  destruct (scroll_iteration_break _ Hok1 Hlow)
    as (s2 & Hit & Hc2 & Ho2 & Hn2 & _).
  destruct (scroll_iteration_stop _ s2 Hok1 Hinv1 Hit) as (Hok2 & _).
  unfold scroll. rewrite Hfr. simpl negb. cbv iota.
  destruct (scroll_entry sys) as [out1 s1]. simpl in Hout1, Hit, Hc1, Hc2, Ho1,
    Ho2, Hn1, Hn2. simpl scroll_loop. rewrite Hit.
  assert ((print_scoreboard s2).1 = (print_scoreboard (flush_scoreboard sys)).1)
    as Hout3.
  { destruct (flush_scoreboard_fields sys) as (Hof & Hnf & _).
    apply print_scoreboard_core_out; [done|done| |congruence|congruence].
    by rewrite Hc2, Hc1. }
  destruct (print_scoreboard s2) as [out3 s3]. simpl in Hout3.
  subst out1 out3. eexists. split; [reflexivity|done].
Qed.

Lemma two_teams_idle_reachable : reachable two_teams_idle.
Proof.
  eapply (run_reachable 0 [ADDTEAM "b"; ADDTEAM "a"; START 300 2; FREEZE]
            ICPCSystem_new _ two_teams_idle reachable_new).
  - vm_compute. reflexivity.
  - vm_compute. reflexivity.
Defined.

Lemma scroll_nothing_to_reveal_witness :
  ∃ sys',
    scroll 1 two_teams_idle =
      Some ("[Info]Scroll scoreboard." +:+ nl
              +:+ (print_scoreboard (flush_scoreboard two_teams_idle)).1
              +:+ (print_scoreboard (flush_scoreboard two_teams_idle)).1, sys')
    ∧ is_frozen sys' = false.
Proof.
  apply (scroll_nothing_to_reveal two_teams_idle 0).
  - exact two_teams_idle_reachable.
  - reflexivity.
  - intros n p Hn. apply list_elem_of_In in Hn. simpl in Hn.
    destruct Hn as [<-|[<-|[]]]; reflexivity.
Defined.
